(** * Calldata shape inference (abi-guesser): a shallow embedding of
      [src/calldata-guesser/guess.ts] and the properties of its
      specification.

    Conventions of the embedding.
    - A [Uint8Array] is a [list byte]; JavaScript numbers that hold
      offsets, lengths and counts are integers of [Z] (every such number
      in the program is below 2^53, so the arithmetic is exact).
    - A [ParamType] of the ABI library is a tree ([ParamType] below).
      The program builds types by printing a type and parsing the text
      again ([ParamType.from (p.format() + "[]")]); the embedding builds
      the tree directly, [format] being the printer.
    - The reference ABI decoder ([defaultAbiCoder.decode]) and the UTF-8
      check ([toUtf8String]) belong to an external library: they are
      parameters of the development ([Section WithOracle]).
    - A JavaScript exception that the program does not catch is the
      outcome [Throw]; recursion is bounded by a fuel argument whose
      exhaustion is the outcome [OutOfFuel]. *)

From Stdlib Require Import ZArith List String Ascii Bool Lia Arith.
From Stdlib Require Import Init.Byte.
Import ListNotations.
Local Open Scope Z_scope.
Set Warnings "-register-all".

(* ================================================================== *)
(** ** Outcomes *)

Inductive result (A : Type) : Type :=
| Ret (a : A)
| Throw
| OutOfFuel.
Arguments Ret {A} a.
Arguments Throw {A}.
Arguments OutOfFuel {A}.

Definition bind {A B : Type} (r : result A) (k : A -> result B) : result B :=
  match r with
  | Ret a => k a
  | Throw => Throw
  | OutOfFuel => OutOfFuel
  end.

Notation "x <- c1 ;; c2" := (bind c1 (fun x => c2))
  (at level 61, c1 at next level, right associativity).

(** [xs.map(f)] where [f] may throw: elements are visited left to right. *)
Fixpoint mapM {A B : Type} (f : A -> result B) (l : list A) : result (list B) :=
  match l with
  | [] => Ret []
  | a :: l' => b <- f a ;; bs <- mapM f l' ;; Ret (b :: bs)
  end.

(* ================================================================== *)
(** ** Bytes and words *)

Definition bytes := list byte.

Definition len (d : bytes) : Z := Z.of_nat (List.length d).

(** [d.slice(s, e)] for non-negative [s] and [e]. *)
Definition slice (d : bytes) (s e : Z) : bytes :=
  firstn (Z.to_nat (e - s)) (skipn (Z.to_nat s) d).

Definition byteVal (b : byte) : Z := Z.of_N (Byte.to_N b).

(** Big-endian value of a byte string. *)
Definition beValue (bs : bytes) : Z :=
  fold_left (fun acc b => acc * 256 + byteVal b) bs 0.

(** [BigInt(ethers.utils.hexlify(bs))]: the text of the empty byte
    string is ["0x"], which [BigInt] refuses with a [SyntaxError]. *)
Definition bigIntOfBytes (bs : bytes) : result Z :=
  match bs with
  | [] => Throw
  | _ => Ret (beValue bs)
  end.

Definition MAX_SAFE_INTEGER : Z := 2 ^ 53 - 1.

Definition isSafeNumber (val : Z) : bool := val <? MAX_SAFE_INTEGER.

Definition tryParseOffset (data : bytes) (pos : Z) : result (option Z) :=
  bigOffset <- bigIntOfBytes (slice data pos (pos + 32)) ;;
  if negb (isSafeNumber bigOffset) then Ret None
  else
    let offset := bigOffset in
    if (offset <=? pos) || (offset >=? len data) then Ret None
    else if negb (offset mod 32 =? 0) then Ret None
    else Ret (Some offset).

Definition tryParseLength (data : bytes) (offset : Z) : result (option Z) :=
  bigLength <- bigIntOfBytes (slice data offset (offset + 32)) ;;
  if negb (isSafeNumber bigLength) then Ret None
  else
    let length := bigLength in
    if offset + 32 + length >? len data then Ret None
    else Ret (Some length).

Fixpoint countLeadingZeros (arr : bytes) : Z :=
  match arr with
  | [] => 0
  | b :: arr' => if byteVal b =? 0 then 1 + countLeadingZeros arr' else 0
  end.

Definition countTrailingZeros (arr : bytes) : Z := countLeadingZeros (rev arr).

(** [chunkString(str, len)] for an integer [len]: the loop runs
    [Math.ceil(str.length / len)] times and pushes
    [str.substring(offset, offset + len)] at the offsets 0, [len],
    [2 * len], ...  A negative [len] gives a count that is not positive
    and no chunk.  For [len = 0] the count is [NaN] on the empty string,
    which ends the loop at once, and [Infinity] on any other, where the
    loop does not end. *)
Definition chunkString (str : string) (len : Z) : result (list string) :=
  let length := Z.of_nat (String.length str) in
  if len =? 0 then (if length =? 0 then Ret [] else OutOfFuel)
  else
    let size := - (- length / len) in
    Ret (map (fun i => substring (Z.to_nat (i * len)) (Z.to_nat len) str)
             (map Z.of_nat (seq 0 (Z.to_nat size)))).

(* ================================================================== *)
(** ** Parameter types *)

Inductive ParamType : Type :=
| TUint256
| TBytes32
| TBytes
| TString
| TAddress
| TBytesN (n : Z)
| TTuple (components : list ParamType)
| TArray (arrayChildren : ParamType).

Definition digitChar (d : Z) : ascii := ascii_of_nat (48 + Z.to_nat d).

Fixpoint decimalAux (fuel : nat) (n : Z) (acc : string) : string :=
  match fuel with
  | O => acc
  | S fuel' =>
      let acc' := String (digitChar (n mod 10)) acc in
      if n / 10 =? 0 then acc' else decimalAux fuel' (n / 10) acc'
  end.

Definition decimal (n : Z) : string := decimalAux 80 n EmptyString.
Arguments decimal : simpl never.

Fixpoint join (sep : string) (l : list string) : string :=
  match l with
  | [] => EmptyString
  | [s] => s
  | s :: l' => (s ++ sep ++ join sep l')%string
  end.

(** [p.format()], the signature form of a type. *)
Fixpoint format (p : ParamType) : string :=
  match p with
  | TUint256 => "uint256"
  | TBytes32 => "bytes32"
  | TBytes => "bytes"
  | TString => "string"
  | TAddress => "address"
  | TBytesN n => "bytes" ++ decimal n
  | TTuple cs => "(" ++ join "," (map format cs) ++ ")"
  | TArray c => format c ++ "[]"
  end%string.

Record FunctionFragment : Type := mkFragment {
  name : string;
  inputs : list ParamType
}.

(** The placeholder of a dynamic variable: its offset, and its length
    where there is one ([None] is JavaScript's [null]). *)
Record DynamicPlaceholder : Type := mkPlaceholder {
  ph_offset : Z;
  ph_length : option Z
}.

(** A decoded parameter: a resolved type or a placeholder. *)
Inductive DecodedParam : Type :=
| Resolved (p : ParamType)
| Dynamic (ph : DynamicPlaceholder).

Record DynamicOnlyParams : Type := mkDynamicOnly {
  dop_depth : Z;
  assumeLength : bool
}.

(** A value returned by the ABI decoder: the 32 bytes of a [bytes32],
    the contents of a [bytes], or the elements of a tuple or an array. *)
Inductive Value : Type :=
| VWord (w : bytes)
| VBytes (b : bytes)
| VList (vs : list Value).

(** [new Set(strings)]: the distinct strings in order of insertion. *)
Fixpoint setOf (l : list string) : list string :=
  match l with
  | [] => []
  | s :: l' => s :: filter (fun t => negb (String.eqb s t)) (setOf l')
  end.

Definition setSize (l : list string) : Z := Z.of_nat (List.length (setOf l)).

Definition setHas (l : list string) (s : string) : bool :=
  existsb (String.eqb s) l.

(** [Array.from(Array(n).keys())]: the indices 0, ..., n-1. *)
Definition keys (n : Z) : list Z := map Z.of_nat (seq 0 (Z.to_nat n)).

Definition isSome {A : Type} (o : option A) : bool :=
  match o with Some _ => true | None => false end.

(** [a || b] on fragments that may be [null]. *)
Definition orNull {A : Type} (a b : option A) : option A :=
  match a with Some _ => a | None => b end.

Definition dynamicParamsOf (collectedParams : list DecodedParam)
  : list DynamicPlaceholder :=
  flat_map (fun v => match v with
                     | Resolved _ => []
                     | Dynamic ph => [ph]
                     end) collectedParams.

(** The test of lines 189-196: is the tail of a placeholder with a
    length taken to be a [bytes]? *)
Definition isBytesLike (maybeDynamicElementLen : Z) (dynamicData : bytes)
    (isTrailingDynamicParam : bool) : bool :=
  let lastWord := (maybeDynamicElementLen / 32) * 32 in
  ((maybeDynamicElementLen =? 0) && (len dynamicData =? 0))
  || ((maybeDynamicElementLen >? 0)
      && (((maybeDynamicElementLen mod 32 =? 0)
           && (isTrailingDynamicParam
               || (maybeDynamicElementLen =? len dynamicData)))
          || (countTrailingZeros (slice dynamicData lastWord (lastWord + 32))
              >=? 32 - (maybeDynamicElementLen mod 32)))).

(* ================================================================== *)
(** ** Merging of types ([mergeTypes], lines 460-490)

    [mergeTypes] reads the properties [baseType], [components] and
    [arrayChildren] of the types of its list.  The type [()], which
    [ParamType.from('()')] returns for the empty list and which is
    [TTuple []] here, is a tuple with one component: a type whose text
    is empty, which is no tuple and no array and has neither components
    nor children.  That component has no place among the types of a
    signature; it is an entry of the lists of [mergeTypes] only.  An
    array of tuples carries the components of its tuple.

    An entry of a list is [Undefined] for the [undefined] or [null] that
    [types[v].components[i]] and [v.arrayChildren] yield where there is
    no such component or child (reading a property of it is a
    [TypeError]), [EmptyType] for the component of [()], or a type. *)

Inductive MergeArg : Type :=
| Undefined
| EmptyType
| Proper (p : ParamType).

Definition isTuple (p : ParamType) : bool :=
  match p with TTuple _ => true | _ => false end.

Definition isArray (p : ParamType) : bool :=
  match p with TArray _ => true | _ => false end.

(** [types.find(v => v.baseType === b) !== undefined]. *)
Fixpoint findBaseType (base : ParamType -> bool) (types : list MergeArg)
  : result bool :=
  match types with
  | [] => Ret false
  | Undefined :: _ => Throw
  | EmptyType :: rest => findBaseType base rest
  | Proper t :: rest => if base t then Ret true else findBaseType base rest
  end.

(** [p.components]: [None] is [null]. *)
Fixpoint components (p : ParamType) : option (list MergeArg) :=
  match p with
  | TTuple [] => Some [EmptyType]
  | TTuple cs => Some (map Proper cs)
  | TArray arrayChildren => components arrayChildren
  | _ => None
  end.

(** [types[v].components[i]]. *)
Definition componentAt (i : nat) (t : MergeArg) : result MergeArg :=
  match t with
  | Proper p =>
      match components p with
      | Some cs => Ret (nth i cs Undefined)
      | None => Throw
      end
  | _ => Throw
  end.

(** [v.arrayChildren] of an entry that [find] has read. *)
Definition arrayChildrenOf (t : MergeArg) : MergeArg :=
  match t with
  | Proper (TArray c) => Proper c
  | _ => Undefined
  end.

Definition formatOpt (t : MergeArg) : result string :=
  match t with
  | Proper p => Ret (format p)
  | EmptyType => Ret EmptyString
  | Undefined => Throw
  end.

(** Lines 478-489 on the formatted types [set], for a list that starts
    with [first]. *)
Definition mergeScalars {A : Type} (first : A) (ofType : ParamType -> A)
    (set : list string) : A :=
  if setSize set =? 1 then first
  else if setHas set "bytes" then ofType TBytes
  else if setHas set "uint256" then ofType TUint256
  else ofType TBytes32.

(** [mergeTypes] on a list that starts with the component of [()];
    [None] is that component again.  It has no components and no
    children: the list may hold neither a tuple nor an array. *)
Definition mergeEmpty (rest : list MergeArg) : result (option ParamType) :=
  let types := EmptyType :: rest in
  hasTuple <- findBaseType isTuple types ;;
  if hasTuple then Throw
  else
    hasArray <- findBaseType isArray types ;;
    if hasArray then Throw
    else
      set <- mapM formatOpt types ;;
      Ret (mergeScalars None Some set).

(** [mergeTypes] on the non-empty list [first :: rest].  A recursive
    call of the program is on a list whose first element is a component
    or the child of [first]: were that element [undefined] or [null],
    [find] would raise on it at once.  The tuple that the program
    parses from the text of the merged components is [()] when the one
    component is the empty type. *)
Fixpoint mergeFrom (first : ParamType) (rest : list MergeArg)
    {struct first} : result ParamType :=
  let types := Proper first :: rest in
  hasTuple <- findBaseType isTuple types ;;
  if hasTuple then
    (fix viaComponents (t : ParamType) : result ParamType :=
       match t with
       | TTuple [] =>
           column <- mapM (componentAt 0) rest ;;
           merged <- mergeEmpty column ;;
           match merged with
           | None => Ret (TTuple [])
           | Some m => Ret (TTuple [m])
           end
       | TTuple cs0 =>
           componentTypes <-
             (fix columns (cs : list ParamType) (i : nat)
                : result (list ParamType) :=
                match cs with
                | [] => Ret []
                | c :: cs' =>
                    column <- mapM (componentAt i) rest ;;
                    merged <- mergeFrom c column ;;
                    more <- columns cs' (S i) ;;
                    Ret (merged :: more)
                end) cs0 O ;;
           Ret (TTuple componentTypes)
       | TArray arrayChildren => viaComponents arrayChildren
       | _ => Throw
       end) first
  else
    hasArray <- findBaseType isArray types ;;
    if hasArray then
      match first with
      | TArray c =>
          child <- mergeFrom c (map arrayChildrenOf rest) ;;
          Ret (TArray child)
      | _ => Throw
      end
    else
      set <- mapM formatOpt types ;;
      Ret (mergeScalars first (fun t => t) set).

(** The loop of lines 467-471 from the component number [i] on. *)
Fixpoint mergeColumns (rest : list MergeArg) (cs : list ParamType)
    (i : nat) : result (list ParamType) :=
  match cs with
  | [] => Ret []
  | c :: cs' =>
      column <- mapM (componentAt i) rest ;;
      merged <- mergeFrom c column ;;
      more <- mergeColumns rest cs' (S i) ;;
      Ret (merged :: more)
  end.

(** Lines 466-472 for a list whose first element is [t]: the merge
    runs over the components of [t]. *)
Fixpoint componentsMerge (rest : list MergeArg) (t : ParamType)
  : result ParamType :=
  match t with
  | TTuple [] =>
      column <- mapM (componentAt 0) rest ;;
      merged <- mergeEmpty column ;;
      match merged with
      | None => Ret (TTuple [])
      | Some m => Ret (TTuple [m])
      end
  | TTuple cs0 =>
      componentTypes <- mergeColumns rest cs0 O ;;
      Ret (TTuple componentTypes)
  | TArray arrayChildren => componentsMerge rest arrayChildren
  | _ => Throw
  end.

Definition isScalar (p : ParamType) : bool := negb (isTuple p || isArray p).

Definition mergeTypes (types : list ParamType) : result ParamType :=
  match types with
  | [] => Ret (TTuple [])
  | first :: rest => mergeFrom first (map Proper rest)
  end.

(* ================================================================== *)
(** ** The tuple inferencer *)

Section WithOracle.

(** [defaultAbiCoder.decode(types, data).map(v => v.toString())]:
    [None] when the decoder, or the rendering of one of its values,
    raises an error. *)
Variable abiDecode : list ParamType -> bytes -> option (list Value).

(** Does [ethers.utils.toUtf8String] accept the bytes? *)
Variable isUtf8 : bytes -> bool.

Definition testFragment (data : bytes) (fragment : option FunctionFragment)
  : bool :=
  match fragment with
  | None => false
  | Some f => isSome (abiDecode (inputs f) data)
  end.

(** The type of [decodeWellFormedTuple] without its fuel: the recursive
    calls of the body go through a parameter of this type. *)
Definition decoder : Type :=
  Z -> bytes -> Z -> list DecodedParam -> Z -> option DynamicOnlyParams ->
  result (option FunctionFragment).

Section Body.

Variable rec : decoder.

(** Lines 199-268: the elements of the array are dynamic and start with
    their offsets.  The last case of the function is not reached: a set
    of one formatted type has an input to come from
    ([decodeWellFormedTuple_noThrow]). *)
Definition resolveDynamicElements (depth : Z) (dynamicData : bytes)
    (maybeDynamicElementLen : Z) : result (option ParamType) :=
  decodedAssumingLength <-
    rec (depth + 1) dynamicData 0 [] (len dynamicData)
        (Some (mkDynamicOnly (depth + 1) true)) ;;
  decodedAssumingNoLength <-
    rec (depth + 1) dynamicData 0 [] (len dynamicData)
        (Some (mkDynamicOnly (depth + 1) false)) ;;
  match orNull decodedAssumingLength decodedAssumingNoLength with
  | None => Ret None
  | Some decodedToUse =>
      if negb (Z.of_nat (List.length (inputs decodedToUse))
               =? maybeDynamicElementLen)
      then Ret None
      else
        let allResults := map format (inputs decodedToUse) in
        if negb (setSize allResults =? 1) then Ret None
        else
          match inputs decodedToUse with
          | e :: _ => Ret (Some (TArray e))
          | [] => Throw
          end
  end.

(** The loop of lines 290-305 over the elements [elemIdx, ...]: it
    leaves at the first element that does not decode. *)
Fixpoint decodeElements (depth : Z) (dynamicData : bytes)
    (elemSizeWords : Z) (elemIdxs : list Z)
  : result (option (list (list ParamType))) :=
  match elemIdxs with
  | [] => Ret (Some [])
  | elemIdx :: rest =>
      fragment <-
        rec (depth + 1)
            (slice dynamicData (elemIdx * elemSizeWords * 32)
                   ((elemIdx + 1) * elemSizeWords * 32))
            0 [] (elemSizeWords * 32) None ;;
      match fragment with
      | None => Ret None
      | Some f =>
          more <- decodeElements depth dynamicData elemSizeWords rest ;;
          match more with
          | None => Ret None
          | Some l => Ret (Some (inputs f :: l))
          end
      end
  end.

(** Lines 270-313: the elements are packed without offsets.  There is
    at least one element here, so the last case is not reached. *)
Definition resolveStaticElements (depth : Z) (dynamicData0 : bytes)
    (maybeDynamicElementLen : Z) (isTrailingDynamicParam : bool)
  : result (option ParamType) :=
  let uneven :=
    negb (len dynamicData0 mod (32 * maybeDynamicElementLen) =? 0) in
  if uneven && negb isTrailingDynamicParam then Ret None
  else
    let dynamicData :=
      if uneven
      then slice dynamicData0 0
             (len dynamicData0 / (32 * maybeDynamicElementLen)
              * maybeDynamicElementLen * 32)
      else dynamicData0 in
    let elemSizeWords := len dynamicData / (32 * maybeDynamicElementLen) in
    decoded <- decodeElements depth dynamicData elemSizeWords
                 (keys maybeDynamicElementLen) ;;
    match decoded with
    | None => Ret None
    | Some elems =>
        let allResults := map (fun ins => format (TTuple ins)) elems in
        if setSize allResults >? 1 then Ret None
        else
          match elems with
          | ins :: _ => Ret (Some (TArray (TTuple ins)))
          | [] => Throw
          end
    end.

(** Lines 319-358: the tail is decoded as a tuple; with a length, the
    inputs are cut into that many chunks ([x % 0] is [NaN], which differs
    from 0; past that test there is at least one chunk). *)
Definition resolveAsTuple (depth : Z) (dynamicData : bytes)
    (maybeDynamicElementLen : option Z) : result (option ParamType) :=
  fragment <- rec (depth + 1) dynamicData 0 [] (len dynamicData) None ;;
  match fragment with
  | None => Ret None
  | Some f =>
      let inputs := inputs f in
      match maybeDynamicElementLen with
      | Some k =>
          let n := Z.of_nat (List.length inputs) in
          if (k =? 0) || negb (n mod k =? 0) then Ret None
          else
            let numPerElement := n / k in
            let chunks :=
              map (fun i => firstn (Z.to_nat numPerElement)
                              (skipn (Z.to_nat (i * numPerElement)) inputs))
                  (keys k) in
            if negb (setSize (map (fun v => join "," (map format v)) chunks)
                     =? 1)
            then Ret None
            else
              match chunks with
              | [] => Throw
              | [TBytes] :: _ => Ret (Some TBytes)
              | [t] :: _ => Ret (Some (TArray t))
              | result :: _ => Ret (Some (TArray (TTuple result)))
              end
      | None => Ret (Some (TTuple inputs))
      end
  end.

(** Lines 160-164: is the placeholder the last one, and which bytes
    are its tail? *)
Definition isTrailing (dynamicParams : list DynamicPlaceholder)
    (dynamicParamIdx : nat) : bool :=
  Nat.eqb (S dynamicParamIdx) (List.length dynamicParams).

Definition tailOf (data : bytes) (dynamicParams : list DynamicPlaceholder)
    (dynamicParamIdx : nat) (ph : DynamicPlaceholder) : bytes :=
  let dynamicDataStart :=
    ph_offset ph + (match ph_length ph with None => 0 | Some _ => 32 end) in
  let dynamicDataEnd :=
    if isTrailing dynamicParams dynamicParamIdx then len data
    else match nth_error dynamicParams (S dynamicParamIdx) with
         | Some next => ph_offset next
         | None => len data
         end in
  slice data dynamicDataStart dynamicDataEnd.

(** Lines 198-316 and the fall to line 319: a tail with a length that
    is not taken for [bytes]. *)
Definition resolveArray (depth : Z) (dynamicData : bytes)
    (maybeDynamicElementLen : Z) (isTrailingDynamicParam : bool)
  : result (option ParamType) :=
  if len dynamicData >? 32 * maybeDynamicElementLen then
    potentialOffsets <-
      mapM (fun paramIdx => tryParseOffset dynamicData (paramIdx * 32))
           (keys maybeDynamicElementLen) ;;
    let elementsHaveOffsets := forallb isSome potentialOffsets in
    if elementsHaveOffsets
    then resolveDynamicElements depth dynamicData maybeDynamicElementLen
    else resolveStaticElements depth dynamicData maybeDynamicElementLen
           isTrailingDynamicParam
  else resolveAsTuple depth dynamicData (Some maybeDynamicElementLen).

(** The callback of [collectedParams.map] (lines 153-359) at the
    placeholder number [dynamicParamIdx]; [Ret None] is [undefined]. *)
Definition resolveDynamicParam (depth : Z) (data : bytes)
    (dynamicParams : list DynamicPlaceholder) (dynamicParamIdx : nat)
    (ph : DynamicPlaceholder) : result (option ParamType) :=
  let isTrailingDynamicParam := isTrailing dynamicParams dynamicParamIdx in
  let dynamicData := tailOf data dynamicParams dynamicParamIdx ph in
  match ph_length ph with
  | Some maybeDynamicElementLen =>
      if isBytesLike maybeDynamicElementLen dynamicData isTrailingDynamicParam
      then Ret (Some TBytes)
      else resolveArray depth dynamicData maybeDynamicElementLen
             isTrailingDynamicParam
  | None => resolveAsTuple depth dynamicData None
  end.

(** [collectedParams.map(...)]: every parameter is visited, also after
    one of them has failed to resolve. *)
Fixpoint resolveParams (depth : Z) (data : bytes)
    (dynamicParams : list DynamicPlaceholder) (dynamicParamIdx : nat)
    (collectedParams : list DecodedParam) : result (list (option ParamType)) :=
  match collectedParams with
  | [] => Ret []
  | Resolved p :: rest =>
      more <- resolveParams depth data dynamicParams dynamicParamIdx rest ;;
      Ret (Some p :: more)
  | Dynamic ph :: rest =>
      r <- resolveDynamicParam depth data dynamicParams dynamicParamIdx ph ;;
      more <- resolveParams depth data dynamicParams (S dynamicParamIdx) rest ;;
      Ret (r :: more)
  end.

Definition definedParams (finalParams : list (option ParamType))
  : list ParamType :=
  flat_map (fun v => match v with Some p => [p] | None => [] end) finalParams.

(** Lines 146-376: the static part is complete. *)
Definition resolveTails (depth : Z) (data : bytes)
    (collectedParams : list DecodedParam) : result (option FunctionFragment) :=
  let dynamicParams := dynamicParamsOf collectedParams in
  finalParams <- resolveParams depth data dynamicParams 0 collectedParams ;;
  let filteredParams := definedParams finalParams in
  if negb (Nat.eqb (List.length finalParams) (List.length filteredParams))
  then Ret None
  else
    let fragment := Some (mkFragment "guessed" filteredParams) in
    if testFragment data fragment then Ret fragment else Ret None.

(** The guards of lines 396-431 on the three roles of a slot. *)
Definition mayAssumeLength (depth : Z) (dynamicOnlyParams : option DynamicOnlyParams)
  : bool :=
  match dynamicOnlyParams with
  | None => true
  | Some d => (depth =? dop_depth d) && assumeLength d
  end.

Definition mayAssumeNoLength (depth : Z) (dynamicOnlyParams : option DynamicOnlyParams)
  : bool :=
  match dynamicOnlyParams with
  | None => true
  | Some d => (depth =? dop_depth d) && negb (assumeLength d)
  end.

Definition mayAssumeStatic (depth : Z) (dynamicOnlyParams : option DynamicOnlyParams)
  : bool :=
  match dynamicOnlyParams with
  | None => true
  | Some d => negb (depth =? dop_depth d)
  end.

(** Lines 433-445: the slot is a static word. *)
Definition tryStatic (depth : Z) (data : bytes) (paramIdx : Z)
    (collectedParams : list DecodedParam) (endOfStaticCalldata : Z)
    (dynamicOnlyParams : option DynamicOnlyParams)
  : result (option FunctionFragment) :=
  if negb (mayAssumeStatic depth dynamicOnlyParams) then Ret None
  else
    fragment <- rec depth data (paramIdx + 1)
                  (collectedParams ++ [Resolved TBytes32])
                  endOfStaticCalldata dynamicOnlyParams ;;
    if testFragment data fragment then Ret fragment else Ret None.

(** Lines 413-425, then the static role. *)
Definition tryNoLength (depth : Z) (data : bytes) (paramIdx : Z)
    (collectedParams : list DecodedParam) (endOfStaticCalldata : Z)
    (dynamicOnlyParams : option DynamicOnlyParams) (maybeOffset : Z)
  : result (option FunctionFragment) :=
  if mayAssumeNoLength depth dynamicOnlyParams then
    fragment <- rec depth data (paramIdx + 1)
                  (collectedParams ++ [Dynamic (mkPlaceholder maybeOffset None)])
                  (Z.min endOfStaticCalldata maybeOffset) dynamicOnlyParams ;;
    if testFragment data fragment then Ret fragment
    else tryStatic depth data paramIdx collectedParams endOfStaticCalldata
           dynamicOnlyParams
  else tryStatic depth data paramIdx collectedParams endOfStaticCalldata
         dynamicOnlyParams.

(** Lines 388-445: the roles of the slot, in the order of the search. *)
Definition classifySlot (depth : Z) (data : bytes) (paramIdx : Z)
    (collectedParams : list DecodedParam) (endOfStaticCalldata : Z)
    (dynamicOnlyParams : option DynamicOnlyParams)
  : result (option FunctionFragment) :=
  let paramOffset := paramIdx * 32 in
  maybeOffset <- tryParseOffset data paramOffset ;;
  match maybeOffset with
  | Some maybeOffset =>
      maybeLength <- tryParseLength data maybeOffset ;;
      match maybeLength with
      | Some maybeLength =>
          if mayAssumeLength depth dynamicOnlyParams then
            fragment <- rec depth data (paramIdx + 1)
                          (collectedParams
                           ++ [Dynamic (mkPlaceholder maybeOffset (Some maybeLength))])
                          (Z.min endOfStaticCalldata maybeOffset)
                          dynamicOnlyParams ;;
            if testFragment data fragment then Ret fragment
            else tryNoLength depth data paramIdx collectedParams
                   endOfStaticCalldata dynamicOnlyParams maybeOffset
          else tryNoLength depth data paramIdx collectedParams
                 endOfStaticCalldata dynamicOnlyParams maybeOffset
      | None => tryNoLength depth data paramIdx collectedParams
                  endOfStaticCalldata dynamicOnlyParams maybeOffset
      end
  | None => tryStatic depth data paramIdx collectedParams endOfStaticCalldata
              dynamicOnlyParams
  end.

(** The search at one slot when only a pointer role is allowed. *)
Definition pointerOnly (depth : Z) (data : bytes) (paramIdx : Z)
    (collectedParams : list DecodedParam) (endOfStaticCalldata : Z)
    (mode : DynamicOnlyParams) : result (option FunctionFragment) :=
  maybeOffset <- tryParseOffset data (paramIdx * 32) ;;
  match maybeOffset with
  | None => Ret None
  | Some offset =>
      maybeLength <- tryParseLength data offset ;;
      let try (length : option Z) :=
        fragment <- rec depth data (paramIdx + 1)
                      (collectedParams ++ [Dynamic (mkPlaceholder offset length)])
                      (Z.min endOfStaticCalldata offset) (Some mode) ;;
        if testFragment data fragment then Ret fragment
        else Ret None in
      if assumeLength mode then
        match maybeLength with
        | Some length => try (Some length)
        | None => Ret None
        end
      else try None
  end.

(** The body of [decodeWellFormedTuple]. *)
Definition decodeBody : decoder :=
  fun depth data paramIdx collectedParams endOfStaticCalldata dynamicOnlyParams =>
  let paramOffset := paramIdx * 32 in
  if paramOffset >=? endOfStaticCalldata
  then resolveTails depth data collectedParams
  else classifySlot depth data paramIdx collectedParams endOfStaticCalldata
         dynamicOnlyParams.

End Body.

Fixpoint decodeWellFormedTuple (fuel : nat) : decoder :=
  match fuel with
  | O => fun _ _ _ _ _ _ => OutOfFuel
  | S fuel' => decodeBody (decodeWellFormedTuple fuel')
  end.

(* ---------------------------------------------------------------- *)
(** *** The entrance of tail resolution

    A call of [decodeWellFormedTuple] enters tail resolution (line 146)
    when its slot counter has reached the end of the head.
    [assertingSearch holds otherwise] is the search with an assertion in
    front of that entrance: a call that is about to resolve the tails
    of an accumulator on which [holds] fails gives [otherwise] in place
    of its outcome.  Every other step is the body of
    [decodeWellFormedTuple], and the calls of the body go to the
    asserting search again, so the assertion stands in front of every
    entrance that a search reaches, the nested ones included. *)

Section Asserting.

Variable holds : bytes -> Z -> list DecodedParam -> bool.
Variable otherwise : result (option FunctionFragment).

Definition assertingBody (rec : decoder) : decoder :=
  fun depth data paramIdx collectedParams endOfStaticCalldata dynamicOnlyParams =>
  if (paramIdx * 32 >=? endOfStaticCalldata)
     && negb (holds data paramIdx collectedParams)
  then otherwise
  else decodeBody rec depth data paramIdx collectedParams endOfStaticCalldata
         dynamicOnlyParams.

Fixpoint assertingSearch (fuel : nat) : decoder :=
  match fuel with
  | O => fun _ _ _ _ _ _ => OutOfFuel
  | S fuel' => assertingBody (assertingSearch fuel')
  end.

End Asserting.

(* ---------------------------------------------------------------- *)
(** *** The prettifier ([prettyTypes], lines 492-530) *)

(** The refinement of a [bytes32] whose value is [val]. *)
Definition prettyBytes32 (val : bytes) : ParamType :=
  let leadingZeros := countLeadingZeros val in
  let trailingZeros := countTrailingZeros val in
  if (leadingZeros >=? 12) && (leadingZeros <=? 17) then TAddress
  else if leadingZeros >? 16 then TUint256
  else if trailingZeros >? 0 then TBytesN (32 - trailingZeros)
  else TBytes32.

(** One step of [params.map((param, idx) => ...)] at [val = vals[idx]]
    ([None] when [vals] has no such element).  A value that has not the
    shape of its type is outside the contract of the decoder; the
    accesses it would meet are [Throw]. *)
Fixpoint prettyType (param : ParamType) (val : option Value) {struct param}
  : result ParamType :=
  match param with
  | TBytes32 =>
      match val with
      | Some (VWord w) => Ret (prettyBytes32 w)
      | _ => Throw
      end
  | TBytes =>
      match val with
      | Some (VBytes b) => if isUtf8 b then Ret TString else Ret TBytes
      | _ => Ret TBytes
      end
  | TArray arrayChildren =>
      match val with
      | Some (VList vs) =>
          childrenTypes <-
            mapM (fun child => prettyType arrayChildren (Some child)) vs ;;
          merged <- mergeTypes childrenTypes ;;
          Ret (TArray merged)
      | _ => Throw
      end
  | TTuple components =>
      match components, val with
      | [], _ => Ret (TTuple [])
      | _, Some (VList vs) =>
          pretty <-
            (fix go (params : list ParamType) (idx : nat)
               : result (list ParamType) :=
               match params with
               | [] => Ret []
               | p :: rest =>
                   t <- prettyType p (nth_error vs idx) ;;
                   ts <- go rest (S idx) ;;
                   Ret (t :: ts)
               end) components O ;;
          Ret (TTuple pretty)
      | _, _ => Throw
      end
  | _ => Ret param
  end.

Fixpoint prettyTypesFrom (idx : nat) (params : list ParamType)
    (vals : list Value) : result (list ParamType) :=
  match params with
  | [] => Ret []
  | p :: rest =>
      t <- prettyType p (nth_error vals idx) ;;
      ts <- prettyTypesFrom (S idx) rest vals ;;
      Ret (t :: ts)
  end.

Definition prettyTypes (params : list ParamType) (vals : list Value)
  : result (list ParamType) :=
  prettyTypesFrom O params vals.

(* ---------------------------------------------------------------- *)
(** *** The driver *)

Definition hexDigit (d : Z) : ascii :=
  if d <? 10 then ascii_of_nat (48 + Z.to_nat d)
  else ascii_of_nat (87 + Z.to_nat d).

(** [ethers.utils.hexlify(bs).substring(2)]. *)
Fixpoint hexOf (bs : bytes) : string :=
  match bs with
  | [] => EmptyString
  | b :: bs' =>
      String (hexDigit (byteVal b / 16))
        (String (hexDigit (byteVal b mod 16)) (hexOf bs'))
  end.

(** Fuel that the search on [data] does not exhaust
    ([decodeWellFormedTuple_fuel]). *)
Definition searchFuel (data : bytes) : nat :=
  Z.to_nat ((len data / 32 + 2) * (len data / 32 + 3)).

Definition wellFormedParse (sig data : bytes)
  : result (option FunctionFragment) :=
  fragment <-
    decodeWellFormedTuple (searchFuel data) 0 data 0 [] (len data) None ;;
  match fragment with
  | None => Ret None
  | Some f =>
      match abiDecode (inputs f) data with
      | None => Throw
      | Some vals =>
          pretty <- prettyTypes (inputs f) vals ;;
          Ret (Some (mkFragment ("guessed_" ++ hexOf sig) pretty))
      end
  end.

Definition guessFragment (calldata : bytes) : result (option FunctionFragment) :=
  if len calldata =? 0 then Ret None
  else wellFormedParse (slice calldata 0 4) (skipn 4 calldata).

End WithOracle.

(* ================================================================== *)
(** ** A reference decoder

    The inferencer is run on concrete calldata with this decoder as its
    oracle.  It follows the layout of the contract ABI: a static value
    sits in place, a dynamic one behind an offset relative to the start
    of the enclosing tuple or array; every read must stay inside the
    buffer, and an array may not announce more elements than there are
    words left from its length word on. *)

Module Ref.

Fixpoint isDynamic (p : ParamType) : bool :=
  match p with
  | TBytes | TString | TArray _ => true
  | TTuple cs => existsb isDynamic cs
  | _ => false
  end.

Fixpoint headSize (p : ParamType) : Z :=
  match p with
  | TTuple cs =>
      if existsb isDynamic cs then 32
      else fold_right (fun c acc => headSize c + acc) 0 cs
  | _ => 32
  end.

(** Whether the library's [toUtf8String] returns on a byte string
    rather than throwing: its scanner reads a lead byte, the number of
    continuation bytes that the lead byte announces, and refuses a
    stray continuation byte, an unknown lead byte, a sequence cut short
    by the end of the bytes, a missing continuation byte, a code point
    above 0x10ffff, a UTF-16 surrogate half and an overlong encoding. *)
Definition continuation (res : option Z) (nextChar : byte) : option Z :=
  match res with
  | Some r =>
      if Z.land (byteVal nextChar) 0xc0 =? 0x80
      then Some (Z.lor (Z.shiftl r 6) (Z.land (byteVal nextChar) 0x3f))
      else None
  | None => None
  end.

Definition codePoint (res : option Z) (overlongMask : Z) : bool :=
  match res with
  | Some r =>
      negb (r >? 0x10ffff)
      && negb ((0xd800 <=? r) && (r <=? 0xdfff))
      && negb (r <=? overlongMask)
  | None => false
  end.

Fixpoint validUtf8 (b : bytes) : bool :=
  match b with
  | [] => true
  | c0 :: rest =>
      let c := byteVal c0 in
      if Z.shiftr c 7 =? 0 then validUtf8 rest
      else if Z.land c 0xe0 =? 0xc0 then
        match rest with
        | n1 :: rest1 =>
            codePoint (continuation (Some (Z.land c 0x1f)) n1) 0x7f
            && validUtf8 rest1
        | _ => false
        end
      else if Z.land c 0xf0 =? 0xe0 then
        match rest with
        | n1 :: n2 :: rest2 =>
            codePoint
              (continuation (continuation (Some (Z.land c 0x0f)) n1) n2)
              0x7ff
            && validUtf8 rest2
        | _ => false
        end
      else if Z.land c 0xf8 =? 0xf0 then
        match rest with
        | n1 :: n2 :: n3 :: rest3 =>
            codePoint
              (continuation
                 (continuation (continuation (Some (Z.land c 0x07)) n1) n2)
                 n3)
              0xffff
            && validUtf8 rest3
        | _ => false
        end
      else false
  end.

Definition wordAt (data : bytes) (pos : Z) : option bytes :=
  if (0 <=? pos) && (pos + 32 <=? len data)
  then Some (slice data pos (pos + 32)) else None.

Definition numberAt (data : bytes) (pos : Z) : option Z :=
  match wordAt data pos with
  | Some w => if isSafeNumber (beValue w) then Some (beValue w) else None
  | None => None
  end.

Fixpoint decodeAt (p : ParamType) (data : bytes) (pos : Z) {struct p}
  : option Value :=
  match p with
  | TBytes =>
      match numberAt data pos with
      | Some n =>
          if pos + 32 + (n + 31) / 32 * 32 <=? len data
          then Some (VBytes (slice data (pos + 32) (pos + 32 + n)))
          else None
      | None => None
      end
  | TString =>
      match numberAt data pos with
      | Some n =>
          if (pos + 32 + (n + 31) / 32 * 32 <=? len data)
             && validUtf8 (slice data (pos + 32) (pos + 32 + n))
          then Some (VBytes (slice data (pos + 32) (pos + 32 + n)))
          else None
      | None => None
      end
  | TArray c =>
      match numberAt data pos with
      | Some n =>
          if n * 32 >? len data - pos then None
          else
            let base := pos + 32 in
            option_map VList
              ((fix elems (idxs : list Z) : option (list Value) :=
                  match idxs with
                  | [] => Some []
                  | i :: rest =>
                      let v :=
                        if isDynamic c
                        then match numberAt data (base + 32 * i) with
                             | Some off => decodeAt c data (base + off)
                             | None => None
                             end
                        else decodeAt c data (base + headSize c * i) in
                      match v, elems rest with
                      | Some v, Some vs => Some (v :: vs)
                      | _, _ => None
                      end
                  end) (keys n))
      | None => None
      end
  | TTuple cs =>
      option_map VList
        ((fix comps (cs : list ParamType) (cursor : Z) : option (list Value) :=
            match cs with
            | [] => Some []
            | c :: rest =>
                let v :=
                  if isDynamic c
                  then match numberAt data cursor with
                       | Some off => decodeAt c data (pos + off)
                       | None => None
                       end
                  else decodeAt c data cursor in
                match v, comps rest (cursor + headSize c) with
                | Some v, Some vs => Some (v :: vs)
                | _, _ => None
                end
            end) cs pos)
  | _ => option_map VWord (wordAt data pos)
  end.

Definition decode (types : list ParamType) (data : bytes)
  : option (list Value) :=
  match decodeAt (TTuple types) data 0 with
  | Some (VList vs) => Some vs
  | _ => None
  end.

End Ref.

(** Building calldata for the examples. *)
Definition word (n : Z) : bytes :=
  map (fun i => match Byte.of_N (Z.to_N ((n / 256 ^ (31 - i)) mod 256)) with
                | Some b => b
                | None => x00
                end) (keys 32).

Definition selector : bytes := [xa9; x05; x9c; xbb].

Definition calldataOf (ws : list Z) : bytes := selector ++ flat_map word ws.

(* ================================================================== *)
(** ** Statements of the specification *)

(** The 32-byte word of [t] that contains the byte of index [i]. *)
Definition wordContaining (t : bytes) (i : Z) : bytes :=
  slice t (32 * (i / 32)) (32 * (i / 32) + 32).

(** The bytes-like criterion in the words of the specification: [k] is
    the length carried by the placeholder, [t] its tail.  That the last
    [n] bytes of a word are zero is: the word ends in at least [n] zero
    bytes. *)
Definition bytesLikeAsStated (k : Z) (t : bytes) (trailing : bool) : Prop :=
  (k = 0 /\ t = [])
  \/ (k > 0 /\ k mod 32 = 0 /\ (trailing = true \/ k = len t))
  \/ (k mod 32 <> 0
      /\ 32 - k mod 32 <= countTrailingZeros (wordContaining t (k - 1))).

(** The criterion of the program: the third case does not ask for
    [k mod 32 <> 0], and looks at the word that starts at the byte
    [32 * (k / 32)]. *)
Definition bytesLikeOfCode (k : Z) (t : bytes) (trailing : bool) : Prop :=
  (k = 0 /\ t = [])
  \/ (k > 0 /\ k mod 32 = 0 /\ (trailing = true \/ k = len t))
  \/ (k > 0
      /\ 32 - k mod 32 <= countTrailingZeros (wordContaining t k)).

(** What the search keeps true from call to call. *)
Definition headInvariant (data : bytes) (paramIdx : Z) (collectedParams : list DecodedParam)
    (endOfStaticCalldata : Z) : Prop :=
  Z.of_nat (List.length collectedParams) = paramIdx
  /\ (0 < paramIdx -> 32 * (paramIdx - 1) < endOfStaticCalldata)
  /\ forall (j : nat) (ph : DynamicPlaceholder),
       nth_error collectedParams j = Some (Dynamic ph) ->
       32 * Z.of_nat j < ph_offset ph < len data
       /\ ph_offset ph mod 32 = 0
       /\ endOfStaticCalldata <= ph_offset ph.

(** The order of the placeholders in the words of the specification:
    every offset is strictly greater than the one discovered before. *)
Definition increasingOffsets (dynamicParams : list DynamicPlaceholder) : Prop :=
  forall (j : nat) (p q : DynamicPlaceholder),
    nth_error dynamicParams j = Some p ->
    nth_error dynamicParams (S j) = Some q ->
    ph_offset p < ph_offset q.

(** The same order as a test on an accumulator. *)
Fixpoint increasingOffsetsb (dynamicParams : list DynamicPlaceholder) : bool :=
  match dynamicParams with
  | p :: rest =>
      match rest with
      | q :: _ => (ph_offset p <? ph_offset q) && increasingOffsetsb rest
      | [] => true
      end
  | [] => true
  end.

Definition increasingAtTails (data : bytes) (paramIdx : Z)
    (collectedParams : list DecodedParam) : bool :=
  increasingOffsetsb (dynamicParamsOf collectedParams).

(** What the program has of the offsets of an accumulator at the end
    of a head of [paramIdx] slots: the offset of the placeholder of the
    slot [j] is greater than the position of that slot, not less than
    the end of the head, inside the buffer and a multiple of 32. *)
Definition placeholderOffsets (data : bytes) (paramIdx : Z)
    (collectedParams : list DecodedParam) : Prop :=
  forall (j : nat) (ph : DynamicPlaceholder),
    nth_error collectedParams j = Some (Dynamic ph) ->
    32 * Z.of_nat j < ph_offset ph
    /\ 32 * paramIdx <= ph_offset ph < len data
    /\ ph_offset ph mod 32 = 0.

(** The same as a test on an accumulator. *)
Definition placeholderOk (data : bytes) (paramIdx : Z) (j : nat)
    (param : DecodedParam) : bool :=
  match param with
  | Dynamic ph =>
      (32 * Z.of_nat j <? ph_offset ph)
      && (32 * paramIdx <=? ph_offset ph)
      && (ph_offset ph <? len data)
      && (ph_offset ph mod 32 =? 0)
  | Resolved _ => true
  end.

Fixpoint placeholdersFrom (data : bytes) (paramIdx : Z) (j : nat)
    (collectedParams : list DecodedParam) : bool :=
  match collectedParams with
  | [] => true
  | param :: rest =>
      placeholderOk data paramIdx j param
      && placeholdersFrom data paramIdx (S j) rest
  end.

Definition placeholdersOk (data : bytes) (paramIdx : Z)
    (collectedParams : list DecodedParam) : bool :=
  placeholdersFrom data paramIdx 0 collectedParams.

(** The one placeholder that the mode [{depth, assume_length b}] lets
    the slot [j] of a head of its depth give: the word of the slot is
    an offset; with [b] a length stands behind the offset and goes into
    the placeholder, without [b] the placeholder has no length. *)
Definition pointerSlot (data : bytes) (b : bool) (j : nat)
    (param : DecodedParam) : Prop :=
  exists offset,
    tryParseOffset data (Z.of_nat j * 32) = Ret (Some offset)
    /\ if b
       then exists length,
              tryParseLength data offset = Ret (Some length)
              /\ param = Dynamic (mkPlaceholder offset (Some length))
       else param = Dynamic (mkPlaceholder offset None).

(** Shape equivalence as the test suite decides it ([normalize] and
    [compareParams] of the tests), on the types of this development; a
    comparison that raises an error is [false]. *)
Definition normalize (p : ParamType) : string :=
  match p with
  | TString => "bytes"
  | _ => format p
  end.

Fixpoint compareParam (left right : ParamType) {struct left} : bool :=
  match left with
  | TArray leftChild =>
      match right with
      | TArray rightChild => compareParam leftChild rightChild
      | _ => false
      end
  | TTuple leftComponents =>
      match right with
      | TTuple rightComponents =>
          (fix each (ls rs : list ParamType) : bool :=
             match ls, rs with
             | [], [] => true
             | l :: ls', r :: rs' => compareParam l r && each ls' rs'
             | _, _ => false
             end) leftComponents rightComponents
      | _ => false
      end
  | _ => String.eqb (normalize left) (normalize right)
  end.

Definition compareParams (left right : list ParamType) : bool :=
  compareParam (TTuple left) (TTuple right).

(** Fuel for the calls below a slot of a buffer of [w] whole words: the
    resolution of the tails and all that it calls. *)
Fixpoint tailFuel (w : nat) : nat :=
  match w with
  | O => 2
  | S w' => S w' + 1 + tailFuel w'
  end.

(** A result other than the exhaustion of the fuel. *)
Definition terminates {A : Type} (r : result A) : Prop := r <> OutOfFuel.

(** A result other than an exception. *)
Definition noThrow {A : Type} (r : result A) : Prop := r <> Throw.

(** The lengths of the placeholders of an accumulator are not negative. *)
Definition lengthsNonneg (collectedParams : list DecodedParam) : Prop :=
  Forall (fun v => match v with
                   | Dynamic (mkPlaceholder _ (Some k)) => 0 <= k
                   | _ => True
                   end) collectedParams.

(** The placeholders of an accumulator point behind the first word. *)
Definition placeholdersBehind (collectedParams : list DecodedParam) : Prop :=
  Forall (fun v => match v with
                   | Resolved _ => True
                   | Dynamic ph => 32 <= ph_offset ph
                   end) collectedParams.

(** The types that the inferencer itself builds: [bytes32], [bytes],
    and the tuples and arrays of such types. *)
Fixpoint rawType (p : ParamType) : bool :=
  match p with
  | TBytes32 | TBytes => true
  | TTuple components => forallb rawType components
  | TArray arrayChildren => rawType arrayChildren
  | _ => false
  end.

(** The resolved parameters of an accumulator are such types. *)
Definition rawParams (collectedParams : list DecodedParam) : Prop :=
  Forall (fun v => match v with
                   | Resolved p => rawType p = true
                   | Dynamic _ => True
                   end) collectedParams.

(** What the prettifier may make of a type of the search: a [bytes32]
    becomes one of the names of a word, a [bytes] stays or becomes
    [string], a tuple keeps its components in number and order, each
    refined in turn, and an array stays an array. *)
Fixpoint refinementOf (param t : ParamType) {struct param} : Prop :=
  match param with
  | TBytes32 =>
      t = TAddress \/ t = TUint256 \/ t = TBytes32
      \/ exists n, t = TBytesN n
  | TBytes => t = TString \/ t = TBytes
  | TTuple components =>
      match t with
      | TTuple ts =>
          (fix each (cs ts : list ParamType) : Prop :=
             match cs, ts with
             | [], [] => True
             | c :: cs', t' :: ts' => refinementOf c t' /\ each cs' ts'
             | _, _ => False
             end) components ts
      | _ => False
      end
  | TArray _ => isArray t = true
  | _ => t = param
  end.

(** [k] pairs of brackets, and the type with [k] array levels around
    it; a text that closes a type inside a signature is empty or starts
    with a comma or a closing parenthesis. *)
Fixpoint brackets (k : nat) : string :=
  match k with
  | O => EmptyString
  | S k' => ("[]" ++ brackets k')%string
  end.

Fixpoint arrays (k : nat) (p : ParamType) : ParamType :=
  match k with
  | O => p
  | S k' => arrays k' (TArray p)
  end.

Definition closing (r : string) : Prop :=
  match r with
  | EmptyString => True
  | String c _ => c = ","%char \/ c = ")"%char
  end.

(** The text of a type, followed by brackets and a closing text, is
    read in one way. *)
Definition formatUnique (p : ParamType) : Prop :=
  forall q k k' r s,
    rawType p = true -> rawType q = true ->
    closing r -> closing s ->
    (format p ++ brackets k ++ r = format q ++ brackets k' ++ s)%string ->
    arrays k p = arrays k' q /\ r = s.

(** The refinement that also follows the element type of an array. *)
Fixpoint refinesStrictly (param t : ParamType) {struct param} : Prop :=
  match param with
  | TBytes32 =>
      t = TAddress \/ t = TUint256 \/ t = TBytes32
      \/ exists n, t = TBytesN n
  | TBytes => t = TString \/ t = TBytes
  | TTuple components =>
      match t with
      | TTuple ts =>
          (fix each (cs ts : list ParamType) : Prop :=
             match cs, ts with
             | [], [] => True
             | c :: cs', t' :: ts' => refinesStrictly c t' /\ each cs' ts'
             | _, _ => False
             end) components ts
      | _ => False
      end
  | TArray arrayChildren =>
      match t with
      | TArray t' => refinesStrictly arrayChildren t'
      | _ => False
      end
  | _ => t = param
  end.

(** A decoded value that has the shape of its type, with no empty
    array inside: a word for [bytes32], a list with one value for each
    component of a tuple, a list that is not empty for an array. *)
Fixpoint hasShape (param : ParamType) (val : Value) {struct param} : Prop :=
  match param with
  | TBytes32 => exists w, val = VWord w
  | TTuple components =>
      match val with
      | VList vs =>
          (fix each (cs : list ParamType) (vs : list Value) : Prop :=
             match cs, vs with
             | [], [] => True
             | c :: cs', v :: vs' => hasShape c v /\ each cs' vs'
             | _, _ => False
             end) components vs
      | _ => False
      end
  | TArray arrayChildren =>
      match val with
      | VList vs => vs <> [] /\ Forall (hasShape arrayChildren) vs
      | _ => False
      end
  | _ => True
  end.

(** What a search over a whole buffer keeps true of its head: the
    slots walked so far, the last of them before the end of the head,
    and an end that is the end of the buffer while every slot is a
    static word, and the offset read at one of the slots afterwards. *)
Definition headEndsAtTail (data : bytes) (paramIdx : Z)
    (collectedParams : list DecodedParam) (endOfStaticCalldata : Z) : Prop :=
  Z.of_nat (List.length collectedParams) = paramIdx
  /\ (paramIdx = 0 \/ 32 * (paramIdx - 1) < endOfStaticCalldata)
  /\ ((endOfStaticCalldata = len data
       /\ Forall (fun v => v = Resolved TBytes32) collectedParams)
      \/ exists j, 0 <= j < paramIdx
                   /\ tryParseOffset data (j * 32)
                      = Ret (Some endOfStaticCalldata)).

(* ================================================================== *)
(** ** Example data *)

(** Two placeholders [{offset 64, length 32}] and [{offset 160,
    length 0}]: the tail of the first is a non-zero word followed by a
    zero word. *)
Definition blobData : bytes := flat_map word [64; 160; 32; 1; 0; 0].

Definition blobPlaceholders : list DynamicPlaceholder :=
  [mkPlaceholder 64 (Some 32); mkPlaceholder 160 (Some 0)].

Definition refSearch (fuel : nat) : decoder :=
  decodeWellFormedTuple Ref.decode fuel.

(** The tail of an array under the mode [{depth 1, assumeLength}]: the
    first word is an offset to an empty blob, the second is the number
    7, which is no offset. *)
Definition pointerThenNumber : bytes := flat_map word [64; 7; 0].

(** The tail of the array of the strings "hello" and "world". *)
Definition twoStrings : bytes :=
  flat_map word [64; 128; 5; 0x68656c6c6f * 2 ^ 216; 5; 0x776f726c64 * 2 ^ 216].

(** Two head slots whose pointers cross: the first points to the byte
    96, the second to the byte 64; both find the length 0. *)
Definition crossedPointers : bytes := flat_map word [96; 64; 0; 0].

Definition crossedPlaceholders : list DecodedParam :=
  [Dynamic (mkPlaceholder 96 (Some 0)); Dynamic (mkPlaceholder 64 (Some 0))].

(** The arguments of [test(string[])] at ["hello", "world"]: one
    placeholder of offset 32 and length 2, whose tail is [twoStrings]. *)
Definition stringArray : bytes := flat_map word [32; 2] ++ twoStrings.

(** [test(bytes32[])] called with the empty array: the arguments are an
    offset and the length 0. *)
Definition emptyArrayArgs : bytes := flat_map word [32; 0].

Definition emptyArrayCalldata : bytes := selector ++ emptyArrayArgs.

(** Calldata on which the prettifier raises an error.  The inferencer
    reads the head [64; 160] as a pointer to the three words
    [2^255; 256; 0] and a pointer to the array of arrays
    [[64; 128]; [1; 0]]; the decoder reads the type
    [((bytes32,bytes32,bytes32),bytes32[][])] with its static tuple in
    place, finds the offset of the array in the fourth word, 256, and
    there the arrays [[1; 0]] and [[]]. *)
Definition crossReadArgs : bytes :=
  flat_map word [64; 160; 2 ^ 255; 256; 0; 2; 64; 160; 2; 64; 128; 2; 1; 0].

Definition crossReadCalldata : bytes := selector ++ crossReadArgs.

(** The arguments of four scenarios of the specification:
    [test(uint256)] at 123, [test(bytes32)], the static tuple
    [(uint256,uint256,bytes4)] at [(10, 20, 0x69696969)] and
    [test((string,uint256[])[])] at
    [(("alice", [1,2,3]), ("bob", [4,5,6]))]. *)
Definition scenarioUint : bytes := flat_map word [123].

Definition scenarioBytes32 : bytes :=
  flat_map word
    [0xaabbccddeeffaabbccddeeffaabbccddeeffaabbccddeeffaabbccddeeffaabb].

Definition scenarioTuple : bytes :=
  flat_map word [10; 20; 0x69696969 * 2 ^ 224].

Definition scenarioArrayOfTuples : bytes :=
  flat_map word
    [32; 2; 64; 320;
     64; 128; 5; 0x616c696365 * 2 ^ 216; 3; 1; 2; 3;
     64; 128; 3; 0x626f62 * 2 ^ 232; 3; 4; 5; 6].

(** [test(uint256[])] at [[2^255]] and [test(bytes)] at [0x80] have the
    same arguments. *)
Definition scenarioSingle : bytes := flat_map word [32; 1; 2 ^ 255].

(** The parameter list of a guess, when there is one. *)
Definition guessedInputs (calldata : bytes) : option (list ParamType) :=
  match guessFragment Ref.decode Ref.validUtf8 calldata with
  | Ret (Some f) => Some (inputs f)
  | _ => None
  end.

(** The tail of an array of two pairs of words, [(1, 2)] and [(3, 4)]:
    no word is an offset. *)
Definition staticPairs : bytes := flat_map word [1; 2; 3; 4].

(* ================================================================== *)
(** * Properties *)

(** ** The driver at the boundary *)

Section Driver.

Variable abiDecode : list ParamType -> bytes -> option (list Value).
Variable isUtf8 : bytes -> bool.

(** With no argument bytes the search ends at once: the only candidate
    is the fragment without parameters, and the oracle decides. *)
Lemma decodeWellFormedTuple_empty (fuel : nat) (vals : list Value) :
  abiDecode [] [] = Some vals ->
  decodeWellFormedTuple abiDecode (S fuel) 0 [] 0 [] 0 None
  = Ret (Some (mkFragment "guessed" [])).
Proof.
  intros H. cbn. unfold decodeBody. cbn. unfold resolveTails. cbn.
  rewrite H. reflexivity.
Qed.

Lemma wellFormedParse_empty (sig : bytes) (vals : list Value) :
  abiDecode [] [] = Some vals ->
  wellFormedParse abiDecode isUtf8 sig []
  = Ret (Some (mkFragment ("guessed_" ++ hexOf sig) [])).
Proof.
  intros H. unfold wellFormedParse.
  change (searchFuel []) with 6%nat. change (len []) with 0.
  rewrite (decodeWellFormedTuple_empty 5 vals H). cbn.
  rewrite H. reflexivity.
Qed.

(** C8. Empty calldata gives no fragment; calldata of exactly four
    bytes, a bare selector, gives the fragment without parameters when
    the oracle accepts the empty tuple on the empty argument region. *)
Theorem guessFragment_boundary :
  guessFragment abiDecode isUtf8 [] = Ret None
  /\ forall (calldata : bytes) (vals : list Value),
       List.length calldata = 4%nat ->
       abiDecode [] [] = Some vals ->
       exists f, guessFragment abiDecode isUtf8 calldata = Ret (Some f)
                 /\ inputs f = []
                 /\ name f = ("guessed_" ++ hexOf calldata)%string.
Proof.
  split; [reflexivity|].
  intros calldata vals Hlen H.
  destruct calldata as [|b1 [|b2 [|b3 [|b4 [|b5 rest]]]]]; try discriminate.
  exists (mkFragment ("guessed_" ++ hexOf [b1; b2; b3; b4]) []).
  unfold guessFragment. cbn [len List.length].
  change (skipn 4 [b1; b2; b3; b4]) with (@nil byte).
  change (slice [b1; b2; b3; b4] 0 4) with [b1; b2; b3; b4].
  cbn [Z.of_nat Z.eqb Pos.of_succ_nat Pos.succ].
  rewrite (wellFormedParse_empty _ vals H). cbn [inputs name].
  repeat split.
Qed.

(** C10. Non-empty calldata of fewer than four bytes is all selector:
    the argument region is empty and the result is the fragment without
    parameters (when the oracle accepts the empty tuple). *)
Theorem guessFragment_short_calldata (calldata : bytes) (vals : list Value) :
  (0 < List.length calldata < 4)%nat ->
  abiDecode [] [] = Some vals ->
  guessFragment abiDecode isUtf8 calldata
  = Ret (Some (mkFragment ("guessed_" ++ hexOf calldata) [])).
Proof.
  intros Hlen H.
  destruct calldata as [|b1 [|b2 [|b3 [|b4 rest]]]]; cbn in Hlen; try lia;
    unfold guessFragment; cbn [len List.length];
    match goal with
    | |- context [skipn 4 ?l] => change (skipn 4 l) with (@nil byte)
    end;
    match goal with
    | |- context [slice ?l 0 4] => change (slice l 0 4) with l
    end;
    cbn [Z.of_nat Z.eqb Pos.of_succ_nat Pos.succ];
    apply (wellFormedParse_empty _ vals H).
Qed.

End Driver.

Lemma guessFragment_boundary_witness :
  exists f, guessFragment Ref.decode Ref.validUtf8 selector = Ret (Some f)
            /\ inputs f = []
            /\ name f = ("guessed_" ++ hexOf selector)%string.
Proof.
  apply (proj2 (guessFragment_boundary Ref.decode Ref.validUtf8) selector []);
    reflexivity.
Defined.

Lemma guessFragment_short_calldata_witness :
  guessFragment Ref.decode Ref.validUtf8 [xa9; x05]
  = Ret (Some (mkFragment "guessed_a905" [])).
Proof.
  apply (guessFragment_short_calldata Ref.decode Ref.validUtf8 [xa9; x05] []).
  - cbn. lia.
  - reflexivity.
Defined.

(** ** Tail resolution: the bytes-like criterion *)

Lemma len_nil_iff (t : bytes) : len t = 0 <-> t = [].
Proof.
  unfold len. destruct t; cbn; split; intros H; try reflexivity;
    try discriminate; lia.
Qed.

Lemma isBytesLike_iff (k : Z) (t : bytes) (trailing : bool) :
  isBytesLike k t trailing = true <-> bytesLikeOfCode k t trailing.
Proof.
  unfold isBytesLike, bytesLikeOfCode, wordContaining.
  replace (k / 32 * 32) with (32 * (k / 32)) by lia.
  repeat first [ rewrite orb_true_iff | rewrite andb_true_iff ].
  rewrite !Z.eqb_eq, Z.gtb_ltb, Z.ltb_lt, Z.geb_le, len_nil_iff.
  intuition lia.
Qed.

(** The criterion of the specification is sufficient for the program
    (for a length, which is never negative); the counterexample below
    shows that it is not necessary. *)
Lemma bytesLikeAsStated_sufficient (k : Z) (t : bytes) (trailing : bool) :
  0 <= k -> bytesLikeAsStated k t trailing -> bytesLikeOfCode k t trailing.
Proof.
  unfold bytesLikeAsStated, bytesLikeOfCode, wordContaining.
  intros Hk [H | [H | [Hm H]]]; [left; exact H | right; left; exact H |].
  right; right.
  assert (Hpos : k > 0) by (destruct (Z.eq_dec k 0) as [->|]; [easy | lia]).
  split; [exact Hpos|].
  pose proof (Z.div_mod k 32 ltac:(lia)).
  pose proof (Z.mod_pos_bound k 32 ltac:(lia)).
  assert (E : (k - 1) / 32 = k / 32).
  { symmetry. apply (Z.div_unique (k - 1) 32 (k / 32) (k mod 32 - 1)); lia. }
  rewrite E in H. exact H.
Qed.

Section TailResolution.

Variable rec :
  Z -> bytes -> Z -> list DecodedParam -> Z -> option DynamicOnlyParams ->
  result (option FunctionFragment).

(** C2 (as the program has it). A placeholder with length [k] and tail
    [t] is taken for [bytes] exactly when (1) [k = 0] and [t] is empty,
    or (2) [k > 0], [k mod 32 = 0] and the placeholder is the trailing
    one or [k = len t], or (3) [k > 0] and the word of [t] that starts at
    byte [32 * (k / 32)] ends in at least [32 - k mod 32] zero bytes;
    otherwise the resolution goes on with the array rules. *)
Theorem bytesLike_criterion (depth : Z) (data : bytes)
    (dynamicParams : list DynamicPlaceholder) (dynamicParamIdx : nat)
    (ph : DynamicPlaceholder) (k : Z) :
  ph_length ph = Some k ->
  let t := tailOf data dynamicParams dynamicParamIdx ph in
  let trailing := isTrailing dynamicParams dynamicParamIdx in
  (bytesLikeOfCode k t trailing ->
   resolveDynamicParam rec depth data dynamicParams dynamicParamIdx ph
   = Ret (Some TBytes))
  /\ (~ bytesLikeOfCode k t trailing ->
      resolveDynamicParam rec depth data dynamicParams dynamicParamIdx ph
      = resolveArray rec depth t k trailing).
Proof.
  intros Hk t trailing. unfold resolveDynamicParam. rewrite Hk.
  fold t. fold trailing.
  destruct (isBytesLike k t trailing) eqn:E.
  - apply isBytesLike_iff in E. split; [reflexivity | contradiction].
  - split; [|reflexivity].
    intros H. apply isBytesLike_iff in H. congruence.
Qed.

End TailResolution.

(** C2 as stated fails: a placeholder with [k = 32] that is not the
    trailing one, whose tail has 64 bytes and a zero second word, meets
    none of (1)-(3) and is taken for [bytes]. *)
Lemma bytesLike_asStated_counterexample :
  resolveDynamicParam (refSearch 8) 0 blobData blobPlaceholders 0
    (mkPlaceholder 64 (Some 32)) = Ret (Some TBytes)
  /\ ~ bytesLikeAsStated 32
        (tailOf blobData blobPlaceholders 0 (mkPlaceholder 64 (Some 32)))
        (isTrailing blobPlaceholders 0).
Proof.
  split; [vm_compute; reflexivity|].
  intros [[H _]|[(_ & _ & [H|H])|[H _]]]; vm_compute in H;
    try discriminate; apply H; reflexivity.
Qed.

Lemma bytesLike_criterion_witness :
  resolveDynamicParam (refSearch 8) 0 blobData blobPlaceholders 0
    (mkPlaceholder 64 (Some 32)) = Ret (Some TBytes).
Proof.
  apply (proj1 (bytesLike_criterion (refSearch 8) 0 blobData blobPlaceholders
                  0%nat (mkPlaceholder 64 (Some 32)) 32 eq_refl)).
  right; right. split; [lia | vm_compute; discriminate].
Defined.

(** ** The prettifier *)



(** ** Merging *)

Lemma ParamType_nested_ind (P : ParamType -> Prop) :
  P TUint256 -> P TBytes32 -> P TBytes -> P TString -> P TAddress ->
  (forall n, P (TBytesN n)) ->
  (forall cs, Forall P cs -> P (TTuple cs)) ->
  (forall c, P c -> P (TArray c)) ->
  forall p, P p.
Proof.
  intros H1 H2 H3 H4 H5 H6 HT HA.
  fix IH 1. intros [| | | | | n | cs | c].
  - exact H1.
  - exact H2.
  - exact H3.
  - exact H4.
  - exact H5.
  - apply H6.
  - apply HT. induction cs as [|c cs IHcs]; constructor; [apply IH | exact IHcs].
  - apply HA, IH.
Qed.

Lemma findBaseType_none (base : ParamType -> bool) (l : list ParamType) :
  forallb (fun t => negb (base t)) l = true ->
  findBaseType base (map Proper l) = Ret false.
Proof.
  induction l as [|t l IH]; cbn; [reflexivity|].
  rewrite andb_true_iff, negb_true_iff. intros [Ht Hl]. rewrite Ht. auto.
Qed.

Lemma mapM_formatOpt (l : list ParamType) :
  mapM formatOpt (map Proper l) = Ret (map format l).
Proof.
  induction l as [|t l IH]; cbn; [reflexivity|]. rewrite IH. reflexivity.
Qed.

Lemma components_tuple (cs : list ParamType) :
  cs <> [] -> components (TTuple cs) = Some (map Proper cs).
Proof. destruct cs; [congruence | reflexivity]. Qed.

Lemma mapM_componentAt (i : nat) (css : list (list ParamType)) :
  Forall (fun cs => (i < List.length cs)%nat) css ->
  mapM (componentAt i) (map Proper (map TTuple css))
  = Ret (map (fun cs => Proper (nth i cs TBytes32)) css).
Proof.
  induction 1 as [|cs css Hcs _ IH]; cbn [map mapM]; [reflexivity|].
  rewrite IH. unfold componentAt.
  rewrite components_tuple by (destruct cs; [cbn in Hcs; lia | discriminate]).
  cbn [bind]. do 3 f_equal.
  rewrite (nth_indep _ Undefined (Proper TBytes32))
    by (rewrite length_map; exact Hcs).
  apply map_nth.
Qed.

Lemma map_arrayChildrenOf (cs : list ParamType) :
  map arrayChildrenOf (map Proper (map TArray cs)) = map Proper cs.
Proof.
  induction cs as [|c cs IH]; cbn; [reflexivity|]. rewrite IH. reflexivity.
Qed.

Lemma setOf_repeat (s : string) (n : nat) : setOf (repeat s (S n)) = [s].
Proof.
  induction n as [|n IH]; [reflexivity|].
  change (repeat s (S (S n))) with (s :: repeat s (S n)).
  cbn [setOf]. rewrite IH. cbn. rewrite String.eqb_refl. reflexivity.
Qed.

Lemma decimalAux_nonempty (fuel : nat) (n : Z) (acc : string) :
  acc <> EmptyString -> decimalAux fuel n acc <> EmptyString.
Proof.
  revert n acc. induction fuel as [|fuel IH]; intros n acc H; cbn; [exact H|].
  destruct (n / 10 =? 0); [discriminate|]. apply IH. discriminate.
Qed.

Lemma decimalAux_S_nonempty (fuel : nat) (n : Z) (acc : string) :
  decimalAux (S fuel) n acc <> EmptyString.
Proof.
  cbn [decimalAux]. destruct (n / 10 =? 0); [discriminate|].
  apply decimalAux_nonempty. discriminate.
Qed.

Lemma decimal_nonempty (n : Z) : decimal n <> EmptyString.
Proof. exact (decimalAux_S_nonempty 79 n EmptyString). Qed.

Ltac fold_mergeColumns rest :=
  match goal with
  | |- context [bind (?cols ?cs ?i) _] =>
      lazymatch cols with
      | mergeColumns _ => fail
      | _ =>
          let H := fresh "Hcols" in
          assert (H : forall l n, cols l n = mergeColumns rest l n)
            by (let IH := fresh "IH" in
                let l' := fresh "l" in
                intros l'; induction l' as [|? ? IH]; intros ?;
                [reflexivity | cbn [mergeColumns]; rewrite <- IH; reflexivity]);
          rewrite H; clear H
      end
  end.

(** [mergeFrom] in terms of its named parts. *)
Lemma mergeFrom_unfold (first : ParamType) (rest : list MergeArg) :
  mergeFrom first rest
  = (hasTuple <- findBaseType isTuple (Proper first :: rest) ;;
     if hasTuple then componentsMerge rest first
     else
       hasArray <- findBaseType isArray (Proper first :: rest) ;;
       if hasArray then
         match first with
         | TArray c =>
             child <- mergeFrom c (map arrayChildrenOf rest) ;;
             Ret (TArray child)
         | _ => Throw
         end
       else
         set <- mapM formatOpt (Proper first :: rest) ;;
         Ret (mergeScalars first (fun t => t) set)).
Proof.
  destruct first as [| | | | | n | cs | c]; try reflexivity.
  - destruct cs as [|c cs]; [reflexivity|].
    cbn [mergeFrom findBaseType isTuple bind componentsMerge mergeColumns].
    fold_mergeColumns rest. reflexivity.
  - cbn [mergeFrom findBaseType isTuple].
    destruct (findBaseType isTuple rest) as [[|] | |]; cbn [bind];
      try reflexivity.
    match goal with
    | |- ?inner ?x = _ =>
        assert (Hvia : forall t, inner t = componentsMerge rest t)
    end.
    { induction t as [| | | | | n | cs | t IH]; try reflexivity.
      - destruct cs as [|c' cs]; [reflexivity|].
        cbn [componentsMerge mergeColumns]. simpl.
        fold_mergeColumns rest. reflexivity.
      - exact IH. }
    exact (Hvia (TArray c)).
Qed.

Lemma mergeFrom_tuple (c0 : ParamType) (cs0 : list ParamType)
    (rest : list MergeArg) :
  mergeFrom (TTuple (c0 :: cs0)) rest
  = (componentTypes <- mergeColumns rest (c0 :: cs0) O ;;
     Ret (TTuple componentTypes)).
Proof. rewrite mergeFrom_unfold. reflexivity. Qed.

Lemma mapM_componentAt_unit (n : nat) :
  mapM (componentAt 0) (repeat (Proper (TTuple [])) n)
  = Ret (repeat EmptyType n).
Proof.
  induction n as [|n IH]; cbn [repeat mapM]; [reflexivity|].
  rewrite IH. reflexivity.
Qed.

Lemma findBaseType_empty (base : ParamType -> bool) (n : nat) :
  findBaseType base (repeat EmptyType n) = Ret false.
Proof. induction n as [|n IH]; [reflexivity | exact IH]. Qed.

Lemma mapM_formatOpt_empty (n : nat) :
  mapM formatOpt (repeat EmptyType n) = Ret (repeat EmptyString n).
Proof.
  induction n as [|n IH]; cbn [repeat mapM]; [reflexivity|].
  rewrite IH. reflexivity.
Qed.

(** A list of [()] merges to [()]. *)
Lemma mergeFrom_unit (n : nat) :
  mergeFrom (TTuple []) (repeat (Proper (TTuple [])) n) = Ret (TTuple []).
Proof.
  cbn [mergeFrom findBaseType isTuple bind].
  rewrite mapM_componentAt_unit. cbn [bind]. unfold mergeEmpty.
  change (EmptyType :: repeat EmptyType n) with (repeat EmptyType (S n)).
  rewrite !findBaseType_empty. cbn [bind].
  rewrite mapM_formatOpt_empty. cbn [bind]. unfold mergeScalars, setSize.
  rewrite setOf_repeat. reflexivity.
Qed.

Lemma mapM_componentAt_repeat (i n : nat) (cs : list ParamType) :
  (i < List.length cs)%nat ->
  mapM (componentAt i) (repeat (Proper (TTuple cs)) n)
  = Ret (repeat (Proper (nth i cs TBytes32)) n).
Proof.
  intros Hi.
  replace (repeat (Proper (TTuple cs)) n)
    with (map Proper (map TTuple (repeat cs n)))
    by (induction n; cbn; congruence).
  rewrite mapM_componentAt by (apply Forall_forall; intros x Hx;
                                apply repeat_spec in Hx; subst; exact Hi).
  f_equal. induction n; cbn; congruence.
Qed.

Lemma map_arrayChildrenOf_repeat (n : nat) (c : ParamType) :
  map arrayChildrenOf (repeat (Proper (TArray c)) n) = repeat (Proper c) n.
Proof.
  induction n as [|n IH]; cbn; [reflexivity|]. rewrite IH. reflexivity.
Qed.

Lemma findBaseType_repeat (base : ParamType -> bool) (t : ParamType) (n : nat) :
  findBaseType base (repeat (Proper t) (S n)) = Ret (base t).
Proof.
  induction n as [|n IH].
  - cbn. destruct (base t); reflexivity.
  - change (repeat (Proper t) (S (S n)))
      with (Proper t :: repeat (Proper t) (S n)).
    cbn [findBaseType]. rewrite IH. destruct (base t); reflexivity.
Qed.

Lemma mapM_formatOpt_repeat (t : ParamType) (n : nat) :
  mapM formatOpt (repeat (Proper t) n) = Ret (repeat (format t) n).
Proof.
  induction n as [|n IH]; cbn; [reflexivity|]. rewrite IH. reflexivity.
Qed.

Lemma mergeFrom_scalar_self (t : ParamType) (n : nat) :
  isScalar t = true -> mergeFrom t (repeat (Proper t) n) = Ret t.
Proof.
  intros Hs.
  assert (E : forall base, base t = false ->
                findBaseType base (Proper t :: repeat (Proper t) n)
                = Ret false).
  { intros base Hb. change (Proper t :: repeat (Proper t) n)
      with (repeat (Proper t) (S n)). rewrite findBaseType_repeat, Hb.
    reflexivity. }
  assert (F : mapM formatOpt (Proper t :: repeat (Proper t) n)
              = Ret (repeat (format t) (S n))).
  { change (Proper t :: repeat (Proper t) n) with (repeat (Proper t) (S n)).
    apply mapM_formatOpt_repeat. }
  assert (G : (setSize (repeat (format t) (S n)) =? 1) = true).
  { unfold setSize. rewrite setOf_repeat. reflexivity. }
  destruct t; try discriminate Hs;
    unfold mergeFrom; rewrite (E isTuple eq_refl); cbn [bind];
    rewrite (E isArray eq_refl); cbn [bind]; rewrite F; cbn [bind];
    unfold mergeScalars; rewrite G; reflexivity.
Qed.

Lemma mergeFrom_self (t : ParamType) :
  forall n, mergeFrom t (repeat (Proper t) n) = Ret t.
Proof.
  induction t as [| | | | | k | cs IH | c IH] using ParamType_nested_ind;
    intros n; try (apply mergeFrom_scalar_self; reflexivity).
  - destruct cs as [|c0 cs0] eqn:Ecs; [apply mergeFrom_unit|].
    rewrite <- Ecs in *. assert (Hne : cs <> []) by (rewrite Ecs; discriminate).
    replace (mergeFrom (TTuple cs) (repeat (Proper (TTuple cs)) n))
      with (componentTypes <-
              mergeColumns (repeat (Proper (TTuple cs)) n) cs O ;;
            Ret (TTuple componentTypes))
      by (rewrite Ecs; symmetry; apply mergeFrom_tuple).
    clear Ecs c0 cs0.
    assert (L : forall pre suf, cs = pre ++ suf ->
                  mergeColumns (repeat (Proper (TTuple cs)) n) suf
                    (List.length pre)
                  = Ret suf).
    { intros pre suf. revert pre.
      induction suf as [|c suf IHsuf]; intros pre E; [reflexivity|].
      cbn [mergeColumns].
      rewrite mapM_componentAt_repeat
        by (rewrite E, length_app; cbn [List.length]; lia).
      assert (Hn : nth (List.length pre) cs TBytes32 = c).
      { rewrite E, app_nth2, Nat.sub_diag by lia. reflexivity. }
      rewrite Hn. cbn [bind].
      assert (Hc : List.In c cs) by (rewrite E; apply in_elt).
      rewrite Forall_forall in IH. rewrite (IH c Hc n). cbn [bind].
      specialize (IHsuf (pre ++ [c])).
      rewrite length_app, Nat.add_1_r in IHsuf.
      rewrite IHsuf by (rewrite <- app_assoc; exact E). reflexivity. }
    pose proof (L [] cs eq_refl) as L0. cbn [List.length] in L0.
    rewrite L0. reflexivity.
  - cbn [mergeFrom isTuple isArray findBaseType bind].
    assert (E : findBaseType isTuple (repeat (Proper (TArray c)) n)
                = Ret false).
    { destruct n; [reflexivity|]. apply findBaseType_repeat. }
    rewrite E. cbn [bind]. rewrite map_arrayChildrenOf_repeat, IH. reflexivity.
Qed.

Lemma mergeTypes_tuples (cs0 : list ParamType) (css : list (list ParamType)) :
  Forall (fun cs => List.length cs = List.length cs0) css ->
  mergeTypes (map TTuple (cs0 :: css))
  = (componentTypes <-
       mapM (fun i => mergeTypes (map (fun cs => nth i cs TBytes32) (cs0 :: css)))
            (seq 0 (List.length cs0)) ;;
     Ret (TTuple componentTypes)).
Proof.
  intros Hlen. destruct cs0 as [|c0 cs0'] eqn:Ecs0.
  { assert (E : css = repeat [] (List.length css)).
    { induction Hlen as [|cs css Hcs _ IH]; [reflexivity|].
      cbn [List.length repeat]. rewrite <- IH.
      destruct cs; [reflexivity | discriminate Hcs]. }
    rewrite E. generalize (List.length css). intros n.
    cbn [map mergeTypes List.length seq mapM bind].
    replace (map Proper (map TTuple (repeat [] n)))
      with (repeat (Proper (TTuple [])) n).
    - apply mergeFrom_unit.
    - clear. induction n as [|n IH]; [reflexivity|].
      cbn [repeat map]. f_equal. exact IH. }
  rewrite <- Ecs0 in *. cbn [map mergeTypes].
  replace (mergeFrom (TTuple cs0) (map Proper (map TTuple css)))
    with (componentTypes <-
            mergeColumns (map Proper (map TTuple css)) cs0 O ;;
          Ret (TTuple componentTypes))
    by (rewrite Ecs0; symmetry; apply mergeFrom_tuple).
  clear Ecs0 c0 cs0'. f_equal.
  assert (L : forall suf pre, cs0 = pre ++ suf ->
                mergeColumns (map Proper (map TTuple css)) suf
                  (List.length pre)
                = mapM (fun i => mergeFrom (nth i cs0 TBytes32)
                                   (map Proper
                                      (map (fun cs => nth i cs TBytes32) css)))
                       (seq (List.length pre) (List.length suf))).
  { induction suf as [|c suf IH]; intros pre E; [reflexivity|].
    cbn [mergeColumns List.length seq mapM].
    rewrite mapM_componentAt.
    2:{ apply Forall_forall. intros cs Hin.
        rewrite Forall_forall in Hlen. rewrite (Hlen cs Hin), E, length_app.
        cbn [List.length]. lia. }
    cbn [bind]. rewrite <- map_map.
    assert (Hc : nth (List.length pre) cs0 TBytes32 = c).
    { rewrite E, app_nth2, Nat.sub_diag by lia. reflexivity. }
    rewrite Hc.
    specialize (IH (pre ++ [c])). rewrite length_app, Nat.add_1_r in IH.
    rewrite IH by (rewrite <- app_assoc; exact E). reflexivity. }
  exact (L cs0 [] eq_refl).
Qed.

Lemma mergeTypes_arrays (c0 : ParamType) (cs : list ParamType) :
  mergeTypes (map TArray (c0 :: cs))
  = (child <- mergeTypes (c0 :: cs) ;; Ret (TArray child)).
Proof.
  cbn [map mergeTypes mergeFrom isTuple isArray findBaseType].
  rewrite findBaseType_none.
  - cbn [bind]. rewrite map_arrayChildrenOf. reflexivity.
  - induction cs; [reflexivity | assumption].
Qed.

Lemma setHas_bytes (l : list ParamType) :
  forallb isScalar l = true ->
  (setHas (map format l) "bytes" = true <-> In TBytes l).
Proof.
  unfold setHas. induction l as [|t l IH]; cbn [map existsb forallb In].
  - intros _. split; [discriminate | contradiction].
  - rewrite andb_true_iff, orb_true_iff. intros [Ht Hl].
    rewrite (IH Hl).
    assert (E : String.eqb "bytes" (format t) = true <-> t = TBytes).
    { destruct t; try discriminate Ht; cbn; split; intros H;
        try discriminate; try reflexivity.
      destruct (decimal n) eqn:D; [|discriminate].
      exfalso. exact (decimal_nonempty n D). }
    rewrite E. intuition.
Qed.

Lemma setHas_uint256 (l : list ParamType) :
  forallb isScalar l = true ->
  (setHas (map format l) "uint256" = true <-> In TUint256 l).
Proof.
  unfold setHas. induction l as [|t l IH]; cbn [map existsb forallb In].
  - intros _. split; [discriminate | contradiction].
  - rewrite andb_true_iff, orb_true_iff. intros [Ht Hl].
    rewrite (IH Hl).
    assert (E : String.eqb "uint256" (format t) = true <-> t = TUint256).
    { destruct t; try discriminate Ht; cbn; split; intros H;
        try discriminate; reflexivity. }
    rewrite E. intuition.
Qed.

Lemma mergeTypes_scalars (types : list ParamType) :
  types <> [] ->
  forallb isScalar types = true ->
  mergeTypes types
  = match types with
    | [] => Ret (TTuple [])
    | first :: _ =>
        let set := map format types in
        if setSize set =? 1 then Ret first
        else if setHas set "bytes" then Ret TBytes
        else if setHas set "uint256" then Ret TUint256
        else Ret TBytes32
    end.
Proof.
  destruct types as [|t ts]; [congruence|]. intros _ Hs.
  unfold mergeTypes, mergeFrom.
  assert (E : forall base, (forall p, isScalar p = true -> base p = false) ->
                findBaseType base (Proper t :: map Proper ts) = Ret false).
  { intros base Hb.
    change (Proper t :: map Proper ts) with (map Proper (t :: ts)).
    apply findBaseType_none. rewrite forallb_forall in *.
    intros p Hp. rewrite (Hb p (Hs p Hp)). reflexivity. }
  assert (ET : forall p, isScalar p = true -> isTuple p = false)
    by (intros []; cbn; congruence).
  assert (EA : forall p, isScalar p = true -> isArray p = false)
    by (intros []; cbn; congruence).
  destruct t; try discriminate Hs;
    rewrite (E isTuple ET); cbn [bind]; rewrite (E isArray EA); cbn [bind];
    match goal with
    | |- context [mapM formatOpt (Proper ?t :: map Proper ts)] =>
        change (Proper t :: map Proper ts) with (map Proper (t :: ts))
    end; rewrite mapM_formatOpt; cbn [bind]; unfold mergeScalars; cbv zeta;
    repeat match goal with
           | |- context [if ?c then _ else _] => destruct c
           end; reflexivity.
Qed.

Lemma setOf_In (x : string) (l : list string) : In x (setOf l) <-> In x l.
Proof.
  induction l as [|s l IH]; cbn [setOf In]; [tauto|].
  rewrite filter_In, IH, negb_true_iff, String.eqb_neq.
  destruct (string_dec s x); intuition congruence.
Qed.

Lemma filter_none {A : Type} (f : A -> bool) (l : list A) :
  (forall x, In x l -> f x = false) -> filter f l = [].
Proof.
  induction l as [|a l IH]; intros H; cbn; [reflexivity|].
  rewrite (H a (or_introl eq_refl)). apply IH. intros x Hx. apply H. now right.
Qed.

Lemma setSize_one (s : string) (l : list string) :
  setSize (s :: l) = 1 <-> Forall (fun x => x = s) l.
Proof.
  unfold setSize. cbn [setOf List.length].
  rewrite Forall_forall. split.
  - intros H x Hx.
    destruct (filter (fun t => negb (String.eqb s t)) (setOf l)) as [|y f] eqn:E;
      [|cbn in H; lia].
    destruct (string_dec s x) as [->|Hne]; [reflexivity|].
    assert (Hin : In x (filter (fun t => negb (String.eqb s t)) (setOf l))).
    { apply filter_In. split; [apply setOf_In, Hx|].
      apply negb_true_iff, String.eqb_neq, Hne. }
    rewrite E in Hin. contradiction.
  - intros H.
    rewrite filter_none; [reflexivity|].
    intros x Hx.
    rewrite (H x (proj1 (setOf_In x l) Hx)), String.eqb_refl. reflexivity.
Qed.

Lemma blob_kinds (l : list ParamType) :
  (forall t, In t l -> t = TString \/ t = TBytes) ->
  (In TString l /\ In TBytes l)
  \/ (forall t, In t l -> t = TString)
  \/ (forall t, In t l -> t = TBytes).
Proof.
  induction l as [|a l IH]; intros H.
  - right; left. intros t [].
  - destruct (IH (fun t Ht => H t (or_intror Ht))) as [[Hs Hb] | [Hs | Hb]].
    + left. split; right; assumption.
    + destruct (H a (or_introl eq_refl)) as [-> | ->].
      * right; left. intros t [<- | Ht]; [reflexivity | apply Hs, Ht].
      * destruct l as [|b l].
        -- right; right. intros t [<- | []]. reflexivity.
        -- left. split; [right; left; apply Hs; left; reflexivity
                        | left; reflexivity].
    + destruct (H a (or_introl eq_refl)) as [-> | ->].
      * destruct l as [|b l].
        -- right; left. intros t [<- | []]. reflexivity.
        -- left. split; [left; reflexivity
                        | right; left; apply Hb; left; reflexivity].
      * right; right. intros t [<- | Ht]; [reflexivity | apply Hb, Ht].
Qed.

Lemma refined_scalars (c : ParamType) (types : list ParamType) :
  c = TBytes32 \/ c = TBytes ->
  Forall (refinesStrictly c) types ->
  forallb isScalar types = true
  /\ (c = TBytes32 -> ~ In TBytes types /\ ~ In TString types)
  /\ (c = TBytes -> ~ In TUint256 types
                    /\ forall t, In t types -> t = TString \/ t = TBytes).
Proof.
  intros Hc Hall. rewrite Forall_forall in Hall. split; [|split].
  - apply forallb_forall. intros t Ht. specialize (Hall t Ht).
    destruct Hc as [-> | ->]; cbn [refinesStrictly] in Hall.
    + destruct Hall as [-> | [-> | [-> | [n ->]]]]; reflexivity.
    + destruct Hall as [-> | ->]; reflexivity.
  - intros ->. split; intros Hin; specialize (Hall _ Hin);
      destruct Hall as [E | [E | [E | [n E]]]]; discriminate E.
  - intros ->. split.
    + intros Hin. specialize (Hall _ Hin).
      destruct Hall as [E | E]; discriminate E.
    + intros t Ht. exact (Hall t Ht).
Qed.

(** C7. [mergeTypes] receives the types that the prettifier has made
    of the elements of one array (line 518), and from itself their
    components and children.  Equal types merge to that type; tuples
    merge component by component and arrays on their element type.
    The refinements of one scalar type of the search, [bytes32] or
    [bytes], are scalars of one family, and such are the lists that line
    518 supplies for a scalar element type; when their formatted types
    disagree, a list with [string] and [bytes] merges to [bytes], a
    list with [uint256] merges to [uint256], and every other list merges
    to [bytes32]. *)
Theorem mergeTypes_rules (isUtf8 : bytes -> bool) :
  (forall t n, mergeTypes (repeat t (S n)) = Ret t)
  /\ (forall cs0 css,
        Forall (fun cs => List.length cs = List.length cs0) css ->
        mergeTypes (map TTuple (cs0 :: css))
        = (componentTypes <-
             mapM (fun i => mergeTypes
                              (map (fun cs => nth i cs TBytes32) (cs0 :: css)))
                  (seq 0 (List.length cs0)) ;;
           Ret (TTuple componentTypes)))
  /\ (forall c0 cs,
        mergeTypes (map TArray (c0 :: cs))
        = (child <- mergeTypes (c0 :: cs) ;; Ret (TArray child)))
  /\ (forall c vals types,
        c = TBytes32 \/ c = TBytes ->
        mapM (fun child => prettyType isUtf8 c (Some child)) vals = Ret types ->
        Forall (refinesStrictly c) types)
  /\ (forall c types,
        c = TBytes32 \/ c = TBytes ->
        types <> [] ->
        Forall (refinesStrictly c) types ->
        setSize (map format types) <> 1 ->
        (In TString types -> In TBytes types -> mergeTypes types = Ret TBytes)
        /\ (In TUint256 types -> mergeTypes types = Ret TUint256)
        /\ (~ (In TString types /\ In TBytes types) ->
            ~ In TUint256 types ->
            mergeTypes types = Ret TBytes32)).
Proof.
  split; [|split; [|split; [|split]]].
  - intros t n. cbn [repeat mergeTypes].
    replace (map Proper (repeat t n)) with (repeat (Proper t) n)
      by (induction n; cbn; congruence).
    apply mergeFrom_self.
  - apply mergeTypes_tuples.
  - apply mergeTypes_arrays.
  - intros c vals types Hc. revert types.
    induction vals as [|v vals IH]; intros types; cbn [mapM].
    + intros H. injection H as <-. constructor.
    + destruct (prettyType isUtf8 c (Some v)) as [t | |] eqn:Et; cbn [bind];
        try discriminate.
      destruct (mapM _ vals) as [ts | |]; cbn [bind]; try discriminate.
      intros H. injection H as <-. constructor; [|apply IH; reflexivity].
      destruct Hc as [-> | ->]; cbn [prettyType] in Et;
        cbn [refinesStrictly].
      * destruct v as [w|b|vs]; try discriminate Et. injection Et as <-.
        unfold prettyBytes32.
        destruct (_ && _); [left; reflexivity|].
        destruct (_ >? 16); [right; left; reflexivity|].
        destruct (_ >? 0); [|right; right; left; reflexivity].
        right; right; right. eexists. reflexivity.
      * destruct v as [w|b|vs];
          try (injection Et as <-; right; reflexivity).
        destruct (isUtf8 b); injection Et as <-; [left | right]; reflexivity.
  - intros c types Hc Hne Hall Hsize.
    destruct (refined_scalars c types Hc Hall) as (Hs & Hword & Hblob).
    rewrite (mergeTypes_scalars types Hne Hs).
    destruct types as [|t ts]; [congruence|]. cbv zeta.
    pose proof Hsize as Hsize'.
    apply Z.eqb_neq in Hsize. rewrite Hsize.
    pose proof (setHas_bytes (t :: ts) Hs) as Hb.
    pose proof (setHas_uint256 (t :: ts) Hs) as Hu.
    destruct Hc as [-> | ->].
    + destruct (Hword eq_refl) as [Hnb Hns].
      replace (setHas (map format (t :: ts)) "bytes") with false
        by (destruct (setHas (map format (t :: ts)) "bytes");
            [exfalso; apply Hnb, Hb; reflexivity | reflexivity]).
      destruct (setHas (map format (t :: ts)) "uint256").
      * split; [intros H; contradiction|]. split; [reflexivity|].
        intros _ H. exfalso. apply H, Hu. reflexivity.
      * split; [intros H; contradiction|].
        split; [intros H; apply Hu in H; discriminate H | reflexivity].
    + destruct (Hblob eq_refl) as [Hnu Hkinds].
      assert (Hboth : In TString (t :: ts) /\ In TBytes (t :: ts)).
      { destruct (blob_kinds (t :: ts) Hkinds) as [H | [H | H]];
          [exact H | |]; exfalso; apply Hsize'; cbn [map];
          apply setSize_one; apply Forall_forall; intros x Hx;
          apply in_map_iff in Hx; destruct Hx as (y & <- & Hy);
          rewrite (H y (or_intror Hy)), (H t (or_introl eq_refl));
          reflexivity. }
      destruct Hboth as [Hstring Hbytes].
      replace (setHas (map format (t :: ts)) "bytes") with true
        by (symmetry; apply Hb; exact Hbytes).
      split; [reflexivity|]. split; [intros H; contradiction|].
      intros H. exfalso. apply H. split; assumption.
Qed.

Lemma mergeTypes_rules_witness :
  mergeTypes [TString; TBytes] = Ret TBytes
  /\ mergeTypes [TAddress; TUint256] = Ret TUint256
  /\ mergeTypes [TAddress; TBytesN 4] = Ret TBytes32
  /\ mergeTypes (map TTuple [[TAddress; TString]; [TUint256; TBytes]])
     = Ret (TTuple [TUint256; TBytes]).
Proof.
  pose proof (mergeTypes_rules Ref.validUtf8) as (_ & Htuple & _ & _ & Hscalar).
  split; [|split; [|split]].
  - apply (Hscalar TBytes [TString; TBytes]).
    + right; reflexivity.
    + discriminate.
    + constructor; [left; reflexivity|].
      constructor; [right; reflexivity | constructor].
    + vm_compute. discriminate.
    + left; reflexivity.
    + right; left; reflexivity.
  - apply (Hscalar TBytes32 [TAddress; TUint256]).
    + left; reflexivity.
    + discriminate.
    + constructor; [left; reflexivity|].
      constructor; [right; left; reflexivity | constructor].
    + vm_compute. discriminate.
    + right; left; reflexivity.
  - apply (Hscalar TBytes32 [TAddress; TBytesN 4]).
    + left; reflexivity.
    + discriminate.
    + constructor; [left; reflexivity|].
      constructor; [right; right; right; exists 4; reflexivity | constructor].
    + vm_compute. discriminate.
    + intros [H _]. cbn in H. intuition discriminate.
    + cbn. intuition discriminate.
  - rewrite (Htuple [TAddress; TString] [[TUint256; TBytes]]).
    + reflexivity.
    + repeat constructor.
Defined.


(** ** The mode constraint *)

Section Mode.

Variable abiDecode : list ParamType -> bytes -> option (list Value).
Variable rec : decoder.

(** Under a mode of its own depth a slot has one role, that of the
    pointer that the mode names; the mode goes unchanged to the next
    slot. *)
Lemma classifySlot_pointerOnly (data : bytes) (paramIdx : Z)
    (collectedParams : list DecodedParam) (endOfStaticCalldata : Z)
    (mode : DynamicOnlyParams) :
  classifySlot abiDecode rec (dop_depth mode) data paramIdx collectedParams
    endOfStaticCalldata (Some mode)
  = pointerOnly abiDecode rec (dop_depth mode) data paramIdx collectedParams
      endOfStaticCalldata mode.
Proof.
  unfold classifySlot, pointerOnly, tryNoLength, tryStatic,
    mayAssumeLength, mayAssumeNoLength, mayAssumeStatic.
  rewrite Z.eqb_refl. cbn [andb negb].
  destruct (tryParseOffset data (paramIdx * 32)) as [[offset|] | |];
    cbn [bind]; try reflexivity.
  destruct (tryParseLength data offset) as [[length|] | |];
    cbn [bind]; try reflexivity;
    destruct (assumeLength mode); cbn [negb]; try reflexivity;
    match goal with
    | |- context [rec ?a ?b ?c ?d ?e ?f] =>
        destruct (rec a b c d e f) as [fragment | |]; cbn [bind];
        try reflexivity;
        destruct (testFragment abiDecode data fragment); reflexivity
    end.
Qed.

End Mode.

(** C5 as stated fails at the second slot: under the mode the search
    from there finds nothing, where the search without the mode takes
    the slot for a static word and succeeds. *)
Lemma mode_inert_counterexample :
  refSearch 10 1 pointerThenNumber 1 [Dynamic (mkPlaceholder 64 (Some 0))] 64
    (Some (mkDynamicOnly 1 true)) = Ret None
  /\ refSearch 10 1 pointerThenNumber 1 [Dynamic (mkPlaceholder 64 (Some 0))] 64
       None = Ret (Some (mkFragment "guessed" [TBytes; TBytes32])).
Proof.
  split; vm_compute; reflexivity.
Qed.

(** ** The placeholders of a completed head *)

Lemma tryParseOffset_Some (data : bytes) (pos offset : Z) :
  tryParseOffset data pos = Ret (Some offset) ->
  pos < offset < len data /\ offset mod 32 = 0.
Proof.
  unfold tryParseOffset.
  destruct (bigIntOfBytes (slice data pos (pos + 32))) as [v | |];
    cbn [bind]; try discriminate.
  destruct (isSafeNumber v); cbn [negb]; try discriminate.
  destruct (v <=? pos) eqn:E1; cbn [orb]; try discriminate.
  destruct (v >=? len data) eqn:E2; try discriminate.
  destruct (v mod 32 =? 0) eqn:E3; cbn [negb]; try discriminate.
  intros H. injection H as <-.
  apply Z.leb_gt in E1. apply Z.eqb_eq in E3.
  rewrite Z.geb_leb in E2. apply Z.leb_gt in E2. lia.
Qed.

Section Placeholders.

Variable abiDecode : list ParamType -> bytes -> option (list Value).
Variable depth : Z.
Variable data : bytes.
Variable mode : option DynamicOnlyParams.

Lemma headInvariant_step (paramIdx : Z) (collectedParams : list DecodedParam)
    (endOfStaticCalldata newEnd : Z) (param : DecodedParam) :
  headInvariant data paramIdx collectedParams endOfStaticCalldata ->
  paramIdx * 32 < newEnd <= endOfStaticCalldata ->
  (forall ph, param = Dynamic ph ->
              paramIdx * 32 < ph_offset ph < len data
              /\ ph_offset ph mod 32 = 0 /\ newEnd <= ph_offset ph) ->
  headInvariant data (paramIdx + 1) (collectedParams ++ [param]) newEnd.
Proof.
  intros (Hlen & Hlast & Hall) Hend Hnew.
  split; [rewrite length_app; cbn; lia|]. split; [lia|].
  intros j ph H.
  destruct (Nat.lt_ge_cases j (List.length collectedParams)) as [Hj|Hj].
  - rewrite nth_error_app1 in H by exact Hj.
    destruct (Hall j ph H) as (? & ? & ?). lia.
  - rewrite nth_error_app2 in H by exact Hj.
    destruct (j - List.length collectedParams)%nat as [|m] eqn:Ej.
    + cbn in H. injection H as H.
      destruct (Hnew ph H) as (? & ? & ?). lia.
    + destruct m; discriminate H.
Qed.

Lemma headInvariant_root (endOfStaticCalldata : Z) :
  headInvariant data 0 [] endOfStaticCalldata.
Proof.
  split; [reflexivity|]. split; [lia|].
  intros [|j] ph H; discriminate H.
Qed.

Lemma headInvariant_placeholderOffsets (paramIdx : Z)
    (collectedParams : list DecodedParam) (endOfStaticCalldata : Z) :
  headInvariant data paramIdx collectedParams endOfStaticCalldata ->
  paramIdx * 32 >= endOfStaticCalldata ->
  placeholderOffsets data paramIdx collectedParams.
Proof.
  intros (Hlen & Hlast & Hall) Hend j ph Hj.
  destruct (Hall j ph Hj) as (Hown & Hmod & Hge).
  assert (Hpos : 0 < paramIdx).
  { assert (j < List.length collectedParams)%nat
      by (apply nth_error_Some; congruence). lia. }
  specialize (Hlast Hpos).
  pose proof (Z_div_mod_eq_full (ph_offset ph) 32). lia.
Qed.

End Placeholders.

Lemma bind_congr {A B : Type} (r r' : result A) (k k' : A -> result B) :
  r = r' -> (forall a, k a = k' a) -> bind r k = bind r' k'.
Proof. intros <- H. destruct r as [a | |]; cbn [bind]; auto. Qed.

(** The tails are resolved by searches that start at the slot 0 with no
    collected parameter: two decoders that agree on those calls resolve
    the same tails. *)
Section TailCalls.

Variable abiDecode : list ParamType -> bytes -> option (list Value).
Variables rec rec' : decoder.
Hypothesis rec_root :
  forall depth data endOfStaticCalldata mode,
    rec depth data 0 [] endOfStaticCalldata mode
    = rec' depth data 0 [] endOfStaticCalldata mode.

Lemma root_resolveDynamicElements (depth : Z) (dynamicData : bytes) (k : Z) :
  resolveDynamicElements rec depth dynamicData k
  = resolveDynamicElements rec' depth dynamicData k.
Proof.
  unfold resolveDynamicElements.
  apply bind_congr; [apply rec_root|]. intros a.
  apply bind_congr; [apply rec_root|]. intros b. reflexivity.
Qed.

Lemma root_decodeElements (depth : Z) (dynamicData : bytes)
    (elemSizeWords : Z) (elemIdxs : list Z) :
  decodeElements rec depth dynamicData elemSizeWords elemIdxs
  = decodeElements rec' depth dynamicData elemSizeWords elemIdxs.
Proof.
  induction elemIdxs as [|i l IH]; cbn [decodeElements]; [reflexivity|].
  apply bind_congr; [apply rec_root|]. intros [f|]; [|reflexivity].
  rewrite IH. reflexivity.
Qed.

Lemma root_resolveStaticElements (depth : Z) (dynamicData : bytes) (k : Z)
    (trailing : bool) :
  resolveStaticElements rec depth dynamicData k trailing
  = resolveStaticElements rec' depth dynamicData k trailing.
Proof.
  unfold resolveStaticElements. destruct (_ && _); [reflexivity|].
  cbv zeta. rewrite root_decodeElements. reflexivity.
Qed.

Lemma root_resolveAsTuple (depth : Z) (dynamicData : bytes)
    (k : option Z) :
  resolveAsTuple rec depth dynamicData k
  = resolveAsTuple rec' depth dynamicData k.
Proof. unfold resolveAsTuple. rewrite rec_root. reflexivity. Qed.

Lemma root_resolveDynamicParam (depth : Z) (data : bytes)
    (dynamicParams : list DynamicPlaceholder) (dynamicParamIdx : nat)
    (ph : DynamicPlaceholder) :
  resolveDynamicParam rec depth data dynamicParams dynamicParamIdx ph
  = resolveDynamicParam rec' depth data dynamicParams dynamicParamIdx ph.
Proof.
  unfold resolveDynamicParam. destruct (ph_length ph) as [k|];
    [|apply root_resolveAsTuple].
  destruct (isBytesLike _ _ _); [reflexivity|].
  unfold resolveArray. destruct (_ >? _); [|apply root_resolveAsTuple].
  apply bind_congr; [reflexivity|]. intros offsets.
  destruct (forallb isSome offsets);
    [apply root_resolveDynamicElements | apply root_resolveStaticElements].
Qed.

Lemma root_resolveParams (depth : Z) (data : bytes)
    (dynamicParams : list DynamicPlaceholder)
    (collectedParams : list DecodedParam) :
  forall dynamicParamIdx,
    resolveParams rec depth data dynamicParams dynamicParamIdx collectedParams
    = resolveParams rec' depth data dynamicParams dynamicParamIdx
        collectedParams.
Proof.
  induction collectedParams as [|[p|ph] rest IH]; intros k;
    cbn [resolveParams]; [reflexivity | rewrite IH; reflexivity |].
  rewrite root_resolveDynamicParam.
  apply bind_congr; [reflexivity|]. intros r. rewrite IH. reflexivity.
Qed.

Lemma root_resolveTails (depth : Z) (data : bytes)
    (collectedParams : list DecodedParam) :
  resolveTails abiDecode rec depth data collectedParams
  = resolveTails abiDecode rec' depth data collectedParams.
Proof. unfold resolveTails. rewrite root_resolveParams. reflexivity. Qed.

End TailCalls.

(** A slot passes to the next slot an accumulator that keeps
    [headInvariant]: two decoders that agree on such accumulators give
    the same outcome of the body. *)
Section HeadCalls.

Variable abiDecode : list ParamType -> bytes -> option (list Value).
Variables rec rec' : decoder.
Hypothesis rec_head :
  forall depth data paramIdx collectedParams endOfStaticCalldata mode,
    headInvariant data paramIdx collectedParams endOfStaticCalldata ->
    rec depth data paramIdx collectedParams endOfStaticCalldata mode
    = rec' depth data paramIdx collectedParams endOfStaticCalldata mode.

Lemma head_classifySlot (depth : Z) (data : bytes) (paramIdx : Z)
    (collectedParams : list DecodedParam) (endOfStaticCalldata : Z)
    (mode : option DynamicOnlyParams) :
  headInvariant data paramIdx collectedParams endOfStaticCalldata ->
  paramIdx * 32 < endOfStaticCalldata ->
  classifySlot abiDecode rec depth data paramIdx collectedParams
    endOfStaticCalldata mode
  = classifySlot abiDecode rec' depth data paramIdx collectedParams
      endOfStaticCalldata mode.
Proof.
  intros Hinv Hlt.
  assert (Hstatic :
            tryStatic abiDecode rec depth data paramIdx collectedParams
              endOfStaticCalldata mode
            = tryStatic abiDecode rec' depth data paramIdx collectedParams
                endOfStaticCalldata mode).
  { unfold tryStatic. destruct (negb _); [reflexivity|].
    rewrite rec_head; [reflexivity|].
    apply (headInvariant_step data paramIdx collectedParams
             endOfStaticCalldata _ _ Hinv); [lia|].
    intros ph E. discriminate E. }
  unfold classifySlot. cbv zeta.
  destruct (tryParseOffset data (paramIdx * 32)) as [[offset|] | |] eqn:Eo;
    cbn [bind]; try reflexivity; [|exact Hstatic].
  apply tryParseOffset_Some in Eo.
  assert (Hdyn : forall length,
            headInvariant data (paramIdx + 1)
              (collectedParams ++ [Dynamic (mkPlaceholder offset length)])
              (Z.min endOfStaticCalldata offset)).
  { intros length.
    apply (headInvariant_step data paramIdx collectedParams
             endOfStaticCalldata _ _ Hinv); [lia|].
    intros ph E. injection E as <-. cbn. lia. }
  assert (HnoLength :
            tryNoLength abiDecode rec depth data paramIdx collectedParams
              endOfStaticCalldata mode offset
            = tryNoLength abiDecode rec' depth data paramIdx collectedParams
                endOfStaticCalldata mode offset).
  { unfold tryNoLength. destruct (mayAssumeNoLength depth mode);
      [|exact Hstatic].
    rewrite (rec_head _ _ _ _ _ _ (Hdyn None)), Hstatic. reflexivity. }
  destruct (tryParseLength data offset) as [[length|] | |]; cbn [bind];
    try reflexivity; try exact HnoLength.
  destruct (mayAssumeLength depth mode); [|exact HnoLength].
  rewrite (rec_head _ _ _ _ _ _ (Hdyn (Some length))), HnoLength.
  reflexivity.
Qed.

Lemma head_decodeBody (depth : Z) (data : bytes) (paramIdx : Z)
    (collectedParams : list DecodedParam) (endOfStaticCalldata : Z)
    (mode : option DynamicOnlyParams) :
  headInvariant data paramIdx collectedParams endOfStaticCalldata ->
  decodeBody abiDecode rec depth data paramIdx collectedParams
    endOfStaticCalldata mode
  = decodeBody abiDecode rec' depth data paramIdx collectedParams
      endOfStaticCalldata mode.
Proof.
  intros Hinv. unfold decodeBody. cbv zeta.
  destruct (paramIdx * 32 >=? endOfStaticCalldata) eqn:E.
  - apply root_resolveTails. intros d dd e m.
    apply rec_head. apply headInvariant_root.
  - apply head_classifySlot; [exact Hinv|].
    rewrite Z.geb_leb in E. apply Z.leb_gt in E. exact E.
Qed.

End HeadCalls.

Lemma placeholdersFrom_spec (data : bytes) (paramIdx : Z)
    (collectedParams : list DecodedParam) :
  forall j0 : nat,
    placeholdersFrom data paramIdx j0 collectedParams = true
    <-> forall (j : nat) (ph : DynamicPlaceholder),
          nth_error collectedParams j = Some (Dynamic ph) ->
          32 * Z.of_nat (j0 + j) < ph_offset ph
          /\ 32 * paramIdx <= ph_offset ph < len data
          /\ ph_offset ph mod 32 = 0.
Proof.
  induction collectedParams as [|p C IH]; intros j0;
    cbn [placeholdersFrom].
  - split; [intros _ [|j] ph H; discriminate H | reflexivity].
  - rewrite andb_true_iff, IH. split.
    + intros [Hp HC] [|j] ph H.
      * cbn in H. injection H as ->. cbn [placeholderOk] in Hp.
        rewrite !andb_true_iff in Hp. destruct Hp as [[[H1 H2] H3] H4].
        apply Z.ltb_lt in H1, H3. apply Z.leb_le in H2.
        apply Z.eqb_eq in H4. rewrite Nat.add_0_r. lia.
      * cbn in H. specialize (HC j ph H).
        replace (j0 + S j)%nat with (S j0 + j)%nat by lia. exact HC.
    + intros H. split.
      * destruct p as [t|ph]; [reflexivity|].
        specialize (H 0%nat ph eq_refl). rewrite Nat.add_0_r in H.
        cbn [placeholderOk]. rewrite !andb_true_iff.
        repeat split;
          [apply Z.ltb_lt | apply Z.leb_le | apply Z.ltb_lt | apply Z.eqb_eq];
          lia.
      * intros j ph Hj. specialize (H (S j) ph Hj).
        replace (S j0 + j)%nat with (j0 + S j)%nat by lia. exact H.
Qed.

Lemma placeholdersOk_spec (data : bytes) (paramIdx : Z)
    (collectedParams : list DecodedParam) :
  placeholdersOk data paramIdx collectedParams = true
  <-> placeholderOffsets data paramIdx collectedParams.
Proof. apply (placeholdersFrom_spec data paramIdx collectedParams 0). Qed.

Lemma increasingOffsetsb_spec (dynamicParams : list DynamicPlaceholder) :
  increasingOffsetsb dynamicParams = true <-> increasingOffsets dynamicParams.
Proof.
  unfold increasingOffsets.
  induction dynamicParams as [|p l IH]; cbn [increasingOffsetsb].
  - split; [intros _ [|j] p q H; discriminate H | reflexivity].
  - destruct l as [|q l].
    + split; [|reflexivity]. intros _ [|[|j]] p' q' _ H; discriminate H.
    + rewrite andb_true_iff, IH, Z.ltb_lt. split.
      * intros [Hpq Hl] [|j] p' q' Hp Hq.
        -- cbn in Hp, Hq. injection Hp as <-. injection Hq as <-. exact Hpq.
        -- exact (Hl j p' q' Hp Hq).
      * intros H. split; [exact (H 0%nat p q eq_refl eq_refl)|].
        intros j p' q' Hp Hq. exact (H (S j) p' q' Hp Hq).
Qed.

Lemma assertingSearch_head
    (abiDecode : list ParamType -> bytes -> option (list Value))
    (otherwise : result (option FunctionFragment)) (fuel : nat) :
  forall (depth : Z) (data : bytes) (paramIdx : Z)
         (collectedParams : list DecodedParam) (endOfStaticCalldata : Z)
         (mode : option DynamicOnlyParams),
    headInvariant data paramIdx collectedParams endOfStaticCalldata ->
    assertingSearch abiDecode placeholdersOk otherwise fuel depth data
      paramIdx collectedParams endOfStaticCalldata mode
    = decodeWellFormedTuple abiDecode fuel depth data paramIdx
        collectedParams endOfStaticCalldata mode.
Proof.
  induction fuel as [|fuel IH]; intros depth data i C e mode Hinv;
    [reflexivity|].
  cbn [assertingSearch decodeWellFormedTuple]. unfold assertingBody.
  assert (Hok : (i * 32 >=? e) && negb (placeholdersOk data i C) = false).
  { destruct (i * 32 >=? e) eqn:E; [|reflexivity]. cbn [andb].
    apply negb_false_iff. apply placeholdersOk_spec.
    apply (headInvariant_placeholderOffsets data i C e Hinv).
    rewrite Z.geb_leb in E. apply Z.leb_le in E. lia. }
  rewrite Hok. apply head_decodeBody; [exact IH | exact Hinv].
Qed.

(** C3 (as the program has it). At every entrance of tail resolution
    that a search from the slot 0 reaches, in the search itself and in
    the searches nested in it, every placeholder of the accumulator
    has an offset that is a multiple of 32, lies inside the buffer, is
    strictly greater than the position of its own slot and is not below
    the end of the head (32 times the number of slots).  In the terms
    of the program: the search with the assertion [placeholdersOk] in
    front of tail resolution has the outcome of [decodeWellFormedTuple]
    whatever a failed assertion is made to give, also when it is made
    to raise and when it is made to run out of fuel, which the search
    passes on: the assertion does not fail.  The offsets need not
    increase in the order of discovery. *)
Theorem placeholder_offsets
    (abiDecode : list ParamType -> bytes -> option (list Value)) :
  (forall (otherwise : result (option FunctionFragment)) (fuel : nat)
          (depth : Z) (data : bytes) (endOfStaticCalldata : Z)
          (mode : option DynamicOnlyParams),
      assertingSearch abiDecode placeholdersOk otherwise fuel depth data 0 []
        endOfStaticCalldata mode
      = decodeWellFormedTuple abiDecode fuel depth data 0 []
          endOfStaticCalldata mode)
  /\ (forall (data : bytes) (paramIdx : Z)
             (collectedParams : list DecodedParam),
        placeholdersOk data paramIdx collectedParams = true
        <-> forall (j : nat) (ph : DynamicPlaceholder),
              nth_error collectedParams j = Some (Dynamic ph) ->
              32 * Z.of_nat j < ph_offset ph
              /\ 32 * paramIdx <= ph_offset ph < len data
              /\ ph_offset ph mod 32 = 0).
Proof.
  split.
  - intros otherwise fuel depth data e mode.
    apply assertingSearch_head. apply headInvariant_root.
  - intros data paramIdx collectedParams.
    apply placeholdersOk_spec.
Qed.

(** C3 as stated fails.  The head of [crossedPointers] holds the
    words 96 and 64: the slot 0 gives a placeholder of offset 96, the
    slot 1 one of offset 64, which ends the head at the byte 64, and the
    search enters tail resolution with the offsets 96 and 64 in this
    order.  The search returns a fragment; with the assertion that the
    offsets increase in front of tail resolution, made to raise when it
    fails, it raises. *)
Lemma placeholder_order_counterexample :
  decodeWellFormedTuple Ref.decode 8 0 crossedPointers 0 []
    (len crossedPointers) None
  = Ret (Some (mkFragment "guessed" [TBytes; TTuple [TBytes32; TBytes32]]))
  /\ assertingSearch Ref.decode increasingAtTails Throw 8 0 crossedPointers
       0 [] (len crossedPointers) None
     = Throw
  /\ increasingAtTails crossedPointers 2 crossedPlaceholders = false
  /\ ~ increasingOffsets (dynamicParamsOf crossedPlaceholders).
Proof.
  split; [vm_compute; reflexivity|].
  split; [vm_compute; reflexivity|].
  split; [reflexivity|].
  intros H. specialize (H 0%nat _ _ eq_refl eq_refl). cbn in H. lia.
Qed.

Lemma placeholder_offsets_witness :
  assertingSearch Ref.decode placeholdersOk Throw 8 0 crossedPointers 0 []
    (len crossedPointers) None
  = decodeWellFormedTuple Ref.decode 8 0 crossedPointers 0 []
      (len crossedPointers) None
  /\ (32 * Z.of_nat 1 < 64 /\ 32 * 2 <= 64 < len crossedPointers
      /\ 64 mod 32 = 0).
Proof.
  split.
  - apply (proj1 (placeholder_offsets Ref.decode)).
  - apply (proj1 (proj2 (placeholder_offsets Ref.decode) crossedPointers 2
                    crossedPlaceholders)
             eq_refl 1%nat (mkPlaceholder 64 (Some 0)) eq_refl).
Defined.

(** ** Tail resolution: arrays of dynamic elements *)

Lemma keys_In (k i : Z) : In i (keys k) -> 0 <= i < k.
Proof.
  unfold keys. rewrite in_map_iff. intros (n & <- & Hn).
  apply in_seq in Hn. lia.
Qed.

Lemma mapM_all_offsets (t : bytes) (l : list Z) :
  (forall i, In i l -> exists offset, tryParseOffset t (i * 32) = Ret (Some offset)) ->
  exists offsets,
    mapM (fun paramIdx => tryParseOffset t (paramIdx * 32)) l = Ret offsets
    /\ forallb isSome offsets = true.
Proof.
  induction l as [|i l IH]; intros H.
  - exists []. split; reflexivity.
  - destruct (H i (or_introl eq_refl)) as [offset Hi].
    destruct IH as (offsets & Hm & Hall); [intros; apply H; right; assumption|].
    exists (Some offset :: offsets). cbn [mapM]. rewrite Hi. cbn [bind].
    rewrite Hm. split; [reflexivity | exact Hall].
Qed.

Section DynamicElements.

Variable rec : decoder.

(** C4. A placeholder with length [k > 0] whose tail [t] is not taken
    for [bytes], with more than [k] words in [t] and a valid offset in
    each of the first [k] words: the inferencer recurses on [t] under the
    assume-length and under the no-length mode, uses the first result
    when there is one and the second otherwise, and gives the array [E[]]
    exactly when the result used has [k] inputs that all have the
    formatted type of the first, [E]. *)
Theorem dynamic_element_array_rule (depth : Z) (data : bytes)
    (dynamicParams : list DynamicPlaceholder) (dynamicParamIdx : nat)
    (ph : DynamicPlaceholder) (k : Z)
    (decodedAssumingLength decodedAssumingNoLength : option FunctionFragment) :
  let t := tailOf data dynamicParams dynamicParamIdx ph in
  let trailing := isTrailing dynamicParams dynamicParamIdx in
  let decodedToUse :=
    match decodedAssumingLength with
    | Some _ => decodedAssumingLength
    | None => decodedAssumingNoLength
    end in
  ph_length ph = Some k ->
  0 < k ->
  ~ bytesLikeOfCode k t trailing ->
  len t > 32 * k ->
  (forall i, 0 <= i < k ->
             exists offset, tryParseOffset t (i * 32) = Ret (Some offset)) ->
  rec (depth + 1) t 0 [] (len t) (Some (mkDynamicOnly (depth + 1) true))
  = Ret decodedAssumingLength ->
  rec (depth + 1) t 0 [] (len t) (Some (mkDynamicOnly (depth + 1) false))
  = Ret decodedAssumingNoLength ->
  (exists r, resolveDynamicParam rec depth data dynamicParams dynamicParamIdx ph
             = Ret r)
  /\ forall ty,
       resolveDynamicParam rec depth data dynamicParams dynamicParamIdx ph
       = Ret (Some ty)
       <-> exists f e rest,
             decodedToUse = Some f
             /\ inputs f = e :: rest
             /\ Z.of_nat (List.length (inputs f)) = k
             /\ Forall (fun p => format p = format e) rest
             /\ ty = TArray e.
Proof.
  intros t trailing decodedToUse Hk Hpos Hnb Hlen Hoffs Ha Hb.
  unfold resolveDynamicParam. rewrite Hk. fold t. fold trailing.
  destruct (isBytesLike k t trailing) eqn:Eb;
    [apply isBytesLike_iff in Eb; contradiction|].
  unfold resolveArray.
  replace (len t >? 32 * k) with true by (symmetry; apply Z.gtb_lt; lia).
  destruct (mapM_all_offsets t (keys k)) as (offsets & Hm & Hall);
    [intros i Hi; apply Hoffs, keys_In, Hi|].
  rewrite Hm. cbn [bind]. rewrite Hall.
  unfold resolveDynamicElements. rewrite Ha, Hb. cbn [bind].
  change (orNull decodedAssumingLength decodedAssumingNoLength)
    with decodedToUse.
  destruct decodedToUse as [f|].
  2:{ split; [eexists; reflexivity|]. intros ty. split; [discriminate|].
      intros (f & e & rest & H & _). discriminate H. }
  destruct (Z.of_nat (List.length (inputs f)) =? k) eqn:En; cbn [negb].
  2:{ apply Z.eqb_neq in En.
      split; [eexists; reflexivity|]. intros ty. split; [discriminate|].
      intros (f' & e & rest & H & _ & Hn & _). injection H as <-. lia. }
  apply Z.eqb_eq in En.
  destruct (inputs f) as [|e rest] eqn:Ei; [cbn in En; lia|].
  cbn [map].
  destruct (setSize (format e :: map format rest) =? 1) eqn:Es; cbn [negb].
  - apply Z.eqb_eq, setSize_one in Es.
    split; [eexists; reflexivity|]. intros ty. split.
    + intros H. injection H as <-. exists f, e, rest.
      rewrite Forall_map in Es. rewrite Ei.
      split; [reflexivity|]. split; [reflexivity|]. split; [exact En|].
      split; [exact Es | reflexivity].
    + intros (f' & e' & rest' & H & Hi & _ & _ & ->).
      injection H as <-. rewrite Ei in Hi. injection Hi as <- <-. reflexivity.
  - apply Z.eqb_neq in Es.
    split; [eexists; reflexivity|]. intros ty. split; [discriminate|].
    intros (f' & e' & rest' & H & Hi & _ & Hall' & _).
    injection H as <-. rewrite Ei in Hi. injection Hi as <- <-.
    exfalso. apply Es, setSize_one. rewrite Forall_map. exact Hall'.
Qed.

End DynamicElements.

Lemma dynamic_element_array_rule_witness :
  resolveDynamicParam (refSearch 20) 0 stringArray [mkPlaceholder 32 (Some 2)]
    0 (mkPlaceholder 32 (Some 2)) = Ret (Some (TArray TBytes)).
Proof.
  apply (proj2 (dynamic_element_array_rule (refSearch 20) 0 stringArray
                  [mkPlaceholder 32 (Some 2)] 0%nat (mkPlaceholder 32 (Some 2)) 2
                  (Some (mkFragment "guessed" [TBytes; TBytes]))
                  (Some (mkFragment "guessed"
                           [TTuple [TBytes32; TBytes32];
                            TTuple [TBytes32; TBytes32]]))
                  eq_refl
                  ltac:(lia)
                  ltac:(intros H; apply isBytesLike_iff in H;
                        vm_compute in H; discriminate)
                  ltac:(vm_compute; reflexivity)
                  ltac:(intros i Hi; assert (E : i = 0 \/ i = 1) by lia;
                        destruct E as [-> | ->]; eexists;
                        vm_compute; reflexivity)
                  ltac:(vm_compute; reflexivity)
                  ltac:(vm_compute; reflexivity))).
  exists (mkFragment "guessed" [TBytes; TBytes]), TBytes, [TBytes].
  repeat split. repeat constructor.
Defined.

(** ** Round trip and failure at the boundary *)

Section SearchRules.

Variable abiDecode : list ParamType -> bytes -> option (list Value).

(** The head is complete: the tails are resolved. *)
Lemma decodeWellFormedTuple_tails (fuel : nat) (depth : Z) (data : bytes)
    (paramIdx : Z) (collectedParams : list DecodedParam)
    (endOfStaticCalldata : Z) (mode : option DynamicOnlyParams) :
  paramIdx * 32 >= endOfStaticCalldata ->
  decodeWellFormedTuple abiDecode (S fuel) depth data paramIdx collectedParams
    endOfStaticCalldata mode
  = resolveTails abiDecode (decodeWellFormedTuple abiDecode fuel) depth data
      collectedParams.
Proof.
  intros H. cbn [decodeWellFormedTuple]. unfold decodeBody.
  replace (paramIdx * 32 >=? endOfStaticCalldata) with true; [reflexivity|].
  symmetry. apply Z.geb_le. lia.
Qed.

(** The first role of a slot, pointer with length, gives an accepted
    fragment: the search returns it. *)
Lemma decodeWellFormedTuple_withLength (fuel : nat) (depth : Z) (data : bytes)
    (paramIdx : Z) (collectedParams : list DecodedParam)
    (endOfStaticCalldata : Z) (mode : option DynamicOnlyParams)
    (offset length : Z) (f : FunctionFragment) :
  paramIdx * 32 < endOfStaticCalldata ->
  tryParseOffset data (paramIdx * 32) = Ret (Some offset) ->
  tryParseLength data offset = Ret (Some length) ->
  mayAssumeLength depth mode = true ->
  decodeWellFormedTuple abiDecode fuel depth data (paramIdx + 1)
    (collectedParams ++ [Dynamic (mkPlaceholder offset (Some length))])
    (Z.min endOfStaticCalldata offset) mode = Ret (Some f) ->
  testFragment abiDecode data (Some f) = true ->
  decodeWellFormedTuple abiDecode (S fuel) depth data paramIdx collectedParams
    endOfStaticCalldata mode = Ret (Some f).
Proof.
  intros Hlt Hoff Hlen Hmode Hrec Htest.
  cbn [decodeWellFormedTuple]. unfold decodeBody.
  replace (paramIdx * 32 >=? endOfStaticCalldata) with false
    by (symmetry; rewrite Z.geb_leb; apply Z.leb_gt; lia).
  unfold classifySlot. rewrite Hoff. cbn [bind]. rewrite Hlen. cbn [bind].
  rewrite Hmode, Hrec. cbn [bind]. rewrite Htest. reflexivity.
Qed.

End SearchRules.

(** The round trip on four scenarios of the specification, with the
    reference decoder as the oracle: the guess is shape-equivalent to the
    fragment that was encoded. *)
Example roundTrip_scenarios :
  guessedInputs (selector ++ scenarioUint) = Some [TUint256]
  /\ guessedInputs (selector ++ scenarioBytes32) = Some [TBytes32]
  /\ guessedInputs (selector ++ scenarioTuple)
     = Some [TUint256; TUint256; TBytesN 4]
  /\ guessedInputs (selector ++ scenarioArrayOfTuples)
     = Some [TArray (TTuple [TString; TArray TUint256])]
  /\ compareParams [TArray (TTuple [TString; TArray TUint256])]
       [TArray (TTuple [TString; TArray TUint256])] = true.
Proof. repeat split; vm_compute; reflexivity. Qed.

(** One buffer is the encoding of [uint256[]] at [[2^255]] and of
    [bytes] at [0x80], which is no text: the guess, [bytes], is
    shape-equivalent to the second only. *)
Example roundTrip_single :
  guessedInputs (selector ++ scenarioSingle) = Some [TBytes]
  /\ compareParams [TBytes] [TBytes] = true
  /\ compareParams [TArray TUint256] [TBytes] = false.
Proof. repeat split; vm_compute; reflexivity. Qed.

(** C1 fails at an input of the test suite, [test(bytes32[])] with the
    empty array: the length 0 with an empty tail is taken for [bytes],
    the result is [string] or [bytes], and neither is shape-equivalent to
    [bytes32[]]. *)
Theorem guessFragment_empty_array
    (abiDecode : list ParamType -> bytes -> option (list Value))
    (isUtf8 : bytes -> bool) :
  abiDecode [TBytes] emptyArrayArgs = Some [VBytes []] ->
  exists t,
    guessFragment abiDecode isUtf8 emptyArrayCalldata
    = Ret (Some (mkFragment "guessed_a9059cbb" [t]))
    /\ (t = TString \/ t = TBytes)
    /\ compareParams [TArray TBytes32] [t] = false.
Proof.
  intros H. exists (if isUtf8 [] then TString else TBytes).
  split; [|destruct (isUtf8 []); split; auto].
  assert (Htest : testFragment abiDecode emptyArrayArgs
                    (Some (mkFragment "guessed" [TBytes])) = true)
    by (unfold testFragment; cbn [inputs]; rewrite H; reflexivity).
  assert (Hsearch : decodeWellFormedTuple abiDecode 20 0 emptyArrayArgs 0 []
                      (len emptyArrayArgs) None
                    = Ret (Some (mkFragment "guessed" [TBytes]))).
  { apply (decodeWellFormedTuple_withLength abiDecode 19 0 emptyArrayArgs 0 []
             (len emptyArrayArgs) None 32 0);
      try (vm_compute; reflexivity); [|exact Htest].
    rewrite decodeWellFormedTuple_tails by (vm_compute; discriminate).
    unfold resolveTails.
    replace (resolveParams (decodeWellFormedTuple abiDecode 18) 0 emptyArrayArgs
               (dynamicParamsOf ([] ++ [Dynamic (mkPlaceholder 32 (Some 0))]))
               0 ([] ++ [Dynamic (mkPlaceholder 32 (Some 0))]))
      with (@Ret (list (option ParamType)) [Some TBytes])
      by (vm_compute; reflexivity).
    cbn [bind definedParams flat_map app List.length Nat.eqb negb].
    rewrite Htest. reflexivity. }
  unfold guessFragment.
  replace (len emptyArrayCalldata =? 0) with false by (vm_compute; reflexivity).
  change (skipn 4 emptyArrayCalldata) with emptyArrayArgs.
  change (slice emptyArrayCalldata 0 4) with selector.
  unfold wellFormedParse.
  change (searchFuel emptyArrayArgs) with 20%nat.
  rewrite Hsearch. cbn [bind inputs]. rewrite H.
  unfold prettyTypes. cbn [prettyTypesFrom prettyType nth_error bind].
  destruct (isUtf8 []); reflexivity.
Qed.

Lemma guessFragment_empty_array_witness :
  exists t,
    guessFragment Ref.decode Ref.validUtf8 emptyArrayCalldata
    = Ret (Some (mkFragment "guessed_a9059cbb" [t]))
    /\ (t = TString \/ t = TBytes)
    /\ compareParams [TArray TBytes32] [t] = false.
Proof.
  apply (guessFragment_empty_array Ref.decode Ref.validUtf8). reflexivity.
Defined.

(** C9 fails: on [crossReadCalldata] the inferencer settles on the types
    [(bytes32,bytes32,bytes32)] and [bytes32[][]], the decoder returns
    for the second a non-empty array followed by an empty one, and
    [mergeTypes] reads the components of [uint256], which has none: the
    error leaves [guessFragment]. *)
Theorem guessFragment_raises :
  decodeWellFormedTuple Ref.decode (searchFuel crossReadArgs) 0 crossReadArgs
    0 [] (len crossReadArgs) None
  = Ret (Some (mkFragment "guessed"
                 [TTuple [TBytes32; TBytes32; TBytes32];
                  TArray (TArray TBytes32)]))
  /\ Ref.decode [TTuple [TBytes32; TBytes32; TBytes32];
                 TArray (TArray TBytes32)] crossReadArgs
     = Some [VList [VWord (word 64); VWord (word 160); VWord (word (2 ^ 255))];
             VList [VList [VWord (word 1); VWord (word 0)]; VList []]]
  /\ (forall isUtf8,
        prettyType isUtf8 (TArray (TArray TBytes32))
          (Some (VList [VList [VWord (word 1); VWord (word 0)]; VList []]))
        = Throw)
  /\ mergeTypes [TArray TUint256; TArray (TTuple [])] = Throw
  /\ guessFragment Ref.decode Ref.validUtf8 crossReadCalldata = Throw.
Proof.
  repeat split; vm_compute; reflexivity.
Qed.

(** ** Termination: the fuel of the driver is never exhausted *)

Lemma terminates_bind {A B : Type} (r : result A) (k : A -> result B) :
  terminates r -> (forall a, r = Ret a -> terminates (k a)) ->
  terminates (bind r k).
Proof.
  unfold terminates. destruct r as [a | |]; cbn; intros Hr Hk;
    [apply Hk; reflexivity | discriminate | congruence].
Qed.

Lemma terminates_mapM {A B : Type} (f : A -> result B) (l : list A) :
  (forall a, In a l -> terminates (f a)) -> terminates (mapM f l).
Proof.
  induction l as [|a l IH]; intros H; cbn [mapM]; [discriminate|].
  apply terminates_bind; [apply H; left; reflexivity|]. intros b _.
  apply terminates_bind; [apply IH; intros; apply H; right; assumption|].
  intros bs _. discriminate.
Qed.

Lemma terminates_bigIntOfBytes (bs : bytes) : terminates (bigIntOfBytes bs).
Proof. destruct bs; discriminate. Qed.

Lemma terminates_tryParseOffset (data : bytes) (pos : Z) :
  terminates (tryParseOffset data pos).
Proof.
  unfold tryParseOffset. apply terminates_bind;
    [apply terminates_bigIntOfBytes|]. intros v _.
  destruct (negb (isSafeNumber v)); [discriminate|].
  destruct ((v <=? pos) || (v >=? len data)); [discriminate|].
  destruct (negb (v mod 32 =? 0)); discriminate.
Qed.

Lemma terminates_tryParseLength (data : bytes) (offset : Z) :
  terminates (tryParseLength data offset).
Proof.
  unfold tryParseLength. apply terminates_bind;
    [apply terminates_bigIntOfBytes|]. intros v _.
  destruct (negb (isSafeNumber v)); [discriminate|].
  destruct (offset + 32 + v >? len data); discriminate.
Qed.

Lemma len_nonneg (d : bytes) : 0 <= len d.
Proof. unfold len. lia. Qed.

Lemma len_slice_le (d : bytes) (s e : Z) : len (slice d s e) <= len d.
Proof.
  unfold slice, len. rewrite length_firstn, length_skipn. lia.
Qed.

Lemma len_slice_from (d : bytes) (s e : Z) :
  0 <= s -> len (slice d s e) <= Z.max 0 (len d - s).
Proof.
  intros Hs. unfold slice, len. rewrite length_firstn, length_skipn. lia.
Qed.

Lemma len_tailOf (data : bytes) (dynamicParams : list DynamicPlaceholder)
    (dynamicParamIdx : nat) (ph : DynamicPlaceholder) :
  32 <= ph_offset ph ->
  len (tailOf data dynamicParams dynamicParamIdx ph)
  <= Z.max 0 (len data - 32).
Proof.
  intros H. unfold tailOf.
  match goal with
  | |- len (slice data ?s ?e) <= _ =>
      pose proof (len_slice_from data s e) as Hl
  end.
  destruct (ph_length ph); lia.
Qed.

Section TailsTerminate.

Variable abiDecode : list ParamType -> bytes -> option (list Value).
Variable rec : decoder.
Variable bound : Z.

Hypothesis bound_nonneg : 0 <= bound.

Hypothesis rec_terminates :
  forall depth data endOfStaticCalldata mode,
    len data <= bound -> endOfStaticCalldata <= bound ->
    terminates (rec depth data 0 [] endOfStaticCalldata mode).

Lemma terminates_resolveDynamicElements (depth : Z) (dynamicData : bytes)
    (k : Z) :
  len dynamicData <= bound ->
  terminates (resolveDynamicElements rec depth dynamicData k).
Proof.
  intros H. unfold resolveDynamicElements.
  apply terminates_bind; [apply rec_terminates; lia|]. intros a _.
  apply terminates_bind; [apply rec_terminates; lia|]. intros b _.
  destruct (orNull a b) as [f|]; [|discriminate].
  destruct (negb (Z.of_nat (List.length (inputs f)) =? k)); [discriminate|].
  destruct (negb (setSize (map format (inputs f)) =? 1)); [discriminate|].
  destruct (inputs f); discriminate.
Qed.

Lemma terminates_decodeElements (depth : Z) (dynamicData : bytes)
    (elemSizeWords : Z) (elemIdxs : list Z) :
  len dynamicData <= bound -> elemSizeWords * 32 <= bound ->
  terminates (decodeElements rec depth dynamicData elemSizeWords elemIdxs).
Proof.
  intros Hd He. induction elemIdxs as [|i rest IH]; cbn [decodeElements];
    [discriminate|].
  apply terminates_bind.
  - apply rec_terminates; [|exact He].
    pose proof (len_slice_le dynamicData (i * elemSizeWords * 32)
                  ((i + 1) * elemSizeWords * 32)). lia.
  - intros [f|] _; [|discriminate].
    apply terminates_bind; [exact IH|]. intros [l|] _; discriminate.
Qed.

Lemma elemSize_le (n k : Z) : 0 <= n -> n / (32 * k) * 32 <= n.
Proof.
  intros Hn. destruct (Z_lt_le_dec 0 k) as [Hk|Hk].
  - pose proof (Z.mul_div_le n (32 * k) ltac:(lia)).
    pose proof (Z.div_pos n (32 * k) Hn ltac:(lia)). nia.
  - destruct (Z.eq_dec k 0) as [->|Hk0].
    + rewrite Z.mul_0_r, Z.div_0_r. lia.
    + pose proof (Z.div_mod n (32 * k) ltac:(lia)).
      pose proof (Z.mod_neg_bound n (32 * k) ltac:(lia)). nia.
Qed.

Lemma terminates_resolveStaticElements (depth : Z) (dynamicData : bytes)
    (k : Z) (trailing : bool) :
  len dynamicData <= bound ->
  terminates (resolveStaticElements rec depth dynamicData k trailing).
Proof.
  intros H. unfold resolveStaticElements.
  destruct (negb (len dynamicData mod (32 * k) =? 0) && negb trailing);
    [discriminate|].
  match goal with
  | |- context [decodeElements rec depth ?d ?w ?l] =>
      assert (Hd : len d <= len dynamicData);
      [|apply terminates_bind;
        [apply (terminates_decodeElements depth d w l);
         [lia | pose proof (elemSize_le (len d) k (len_nonneg d)); lia]|]]
  end.
  - destruct (negb (len dynamicData mod (32 * k) =? 0));
      [apply len_slice_le | lia].
  - intros [elems|] _; [|discriminate].
    destruct (setSize (map (fun ins => format (TTuple ins)) elems) >? 1);
      [discriminate|].
    destruct elems; discriminate.
Qed.

Lemma terminates_resolveAsTuple (depth : Z) (dynamicData : bytes)
    (maybeLength : option Z) :
  len dynamicData <= bound ->
  terminates (resolveAsTuple rec depth dynamicData maybeLength).
Proof.
  intros H. unfold resolveAsTuple.
  apply terminates_bind; [apply rec_terminates; lia|].
  intros [f|] _; [|discriminate].
  destruct maybeLength as [k|]; [|discriminate].
  destruct ((k =? 0) || negb (Z.of_nat (List.length (inputs f)) mod k =? 0));
    [discriminate|].
  match goal with
  | |- context [if ?c then _ else _] => destruct c; [discriminate|]
  end.
  match goal with
  | |- context [match ?chunks with [] => _ | _ => _ end] =>
      destruct chunks as [|[|[] [|]] ?]; discriminate
  end.
Qed.

Lemma terminates_resolveArray (depth : Z) (dynamicData : bytes) (k : Z)
    (trailing : bool) :
  len dynamicData <= bound ->
  terminates (resolveArray rec depth dynamicData k trailing).
Proof.
  intros H. unfold resolveArray.
  destruct (len dynamicData >? 32 * k);
    [|apply terminates_resolveAsTuple; exact H].
  apply terminates_bind.
  - apply terminates_mapM. intros i _. apply terminates_tryParseOffset.
  - intros offsets _. destruct (forallb isSome offsets).
    + apply terminates_resolveDynamicElements; exact H.
    + apply terminates_resolveStaticElements; exact H.
Qed.

Lemma terminates_resolveDynamicParam (depth : Z) (data : bytes)
    (dynamicParams : list DynamicPlaceholder) (dynamicParamIdx : nat)
    (ph : DynamicPlaceholder) :
  len (tailOf data dynamicParams dynamicParamIdx ph) <= bound ->
  terminates (resolveDynamicParam rec depth data dynamicParams
                dynamicParamIdx ph).
Proof.
  intros H. unfold resolveDynamicParam.
  destruct (ph_length ph) as [k|].
  - destruct (isBytesLike k _ _); [discriminate|].
    apply terminates_resolveArray; exact H.
  - apply terminates_resolveAsTuple; exact H.
Qed.

Lemma terminates_resolveParams (depth : Z) (data : bytes)
    (dynamicParams : list DynamicPlaceholder)
    (collectedParams : list DecodedParam) :
  Z.max 0 (len data - 32) <= bound ->
  placeholdersBehind collectedParams ->
  forall dynamicParamIdx,
    terminates (resolveParams rec depth data dynamicParams dynamicParamIdx
                  collectedParams).
Proof.
  intros Hb. induction 1 as [|v rest Hv _ IH]; intros idx;
    cbn [resolveParams]; [discriminate|].
  destruct v as [p|ph].
  - apply terminates_bind; [apply IH|]. intros more _. discriminate.
  - apply terminates_bind.
    + apply terminates_resolveDynamicParam.
      pose proof (len_tailOf data dynamicParams idx ph Hv). lia.
    + intros r _. apply terminates_bind; [apply IH|].
      intros more _. discriminate.
Qed.

Lemma terminates_resolveTails (depth : Z) (data : bytes)
    (collectedParams : list DecodedParam) :
  Z.max 0 (len data - 32) <= bound ->
  placeholdersBehind collectedParams ->
  terminates (resolveTails abiDecode rec depth data collectedParams).
Proof.
  intros Hb Hc. unfold resolveTails.
  apply terminates_bind; [apply terminates_resolveParams; assumption|].
  intros finalParams _.
  destruct (negb _); [discriminate|].
  destruct (testFragment _ _ _); discriminate.
Qed.

End TailsTerminate.

Section SlotTerminates.

Variable abiDecode : list ParamType -> bytes -> option (list Value).
Variable rec : decoder.
Variable depth : Z.
Variable data : bytes.
Variable paramIdx : Z.
Variable collectedParams : list DecodedParam.
Variable endOfStaticCalldata : Z.
Variable mode : option DynamicOnlyParams.

Hypothesis paramIdx_nonneg : 0 <= paramIdx.

Hypothesis next_terminates :
  forall (param : DecodedParam) (newEnd : Z),
    newEnd <= endOfStaticCalldata ->
    placeholdersBehind [param] ->
    terminates (rec depth data (paramIdx + 1) (collectedParams ++ [param])
                  newEnd mode).

Lemma terminates_tryStatic :
  terminates (tryStatic abiDecode rec depth data paramIdx collectedParams
                endOfStaticCalldata mode).
Proof.
  unfold tryStatic. destruct (negb _); [discriminate|].
  apply terminates_bind.
  - apply next_terminates; [lia | repeat constructor].
  - intros fragment _. destruct (testFragment _ _ _); discriminate.
Qed.

Lemma terminates_tryNoLength (offset : Z) :
  32 <= offset ->
  terminates (tryNoLength abiDecode rec depth data paramIdx collectedParams
                endOfStaticCalldata mode offset).
Proof.
  intros Ho. unfold tryNoLength.
  destruct (mayAssumeNoLength depth mode); [|apply terminates_tryStatic].
  apply terminates_bind.
  - apply next_terminates; [lia | repeat constructor; exact Ho].
  - intros fragment _. destruct (testFragment _ _ _);
      [discriminate | apply terminates_tryStatic].
Qed.

Lemma terminates_classifySlot :
  terminates (classifySlot abiDecode rec depth data paramIdx collectedParams
                endOfStaticCalldata mode).
Proof.
  unfold classifySlot.
  apply terminates_bind; [apply terminates_tryParseOffset|].
  intros [offset|] Hoff; [|apply terminates_tryStatic].
  apply tryParseOffset_Some in Hoff.
  assert (Ho : 32 <= offset).
  { pose proof (Z_div_mod_eq_full offset 32). lia. }
  apply terminates_bind; [apply terminates_tryParseLength|].
  intros [length|] _; [|apply terminates_tryNoLength; exact Ho].
  destruct (mayAssumeLength depth mode);
    [|apply terminates_tryNoLength; exact Ho].
  apply terminates_bind.
  - apply next_terminates; [lia | repeat constructor; exact Ho].
  - intros fragment _. destruct (testFragment _ _ _);
      [discriminate | apply terminates_tryNoLength; exact Ho].
Qed.

End SlotTerminates.

Lemma placeholdersBehind_app (l l' : list DecodedParam) :
  placeholdersBehind l -> placeholdersBehind l' -> placeholdersBehind (l ++ l').
Proof. unfold placeholdersBehind. intros. apply Forall_app. split; assumption. Qed.

Section SearchTerminates.

Variable abiDecode : list ParamType -> bytes -> option (list Value).

(** On the empty buffer one unit of fuel is enough. *)
Lemma decodeWellFormedTuple_nil (fuel : nat) (depth : Z) (data : bytes)
    (endOfStaticCalldata : Z) (mode : option DynamicOnlyParams) :
  endOfStaticCalldata <= 0 ->
  terminates (decodeWellFormedTuple abiDecode (S fuel) depth data 0 []
                endOfStaticCalldata mode).
Proof.
  intros He. rewrite decodeWellFormedTuple_tails by lia.
  unfold resolveTails. cbn [resolveParams bind].
  destruct (negb _); [discriminate|].
  destruct (testFragment _ _ _); discriminate.
Qed.

(** With [n] slots left in the head of a buffer of at most [w] whole
    words, [n + tailFuel w] units of fuel are enough. *)
Lemma decodeWellFormedTuple_terminates (w : nat) :
  forall (n fuel : nat) (depth : Z) (data : bytes) (paramIdx : Z)
         (collectedParams : list DecodedParam) (endOfStaticCalldata : Z)
         (mode : option DynamicOnlyParams),
    len data < 32 * (Z.of_nat w + 1) ->
    endOfStaticCalldata < 32 * (Z.of_nat w + 1) ->
    0 <= paramIdx ->
    placeholdersBehind collectedParams ->
    (endOfStaticCalldata + 31) / 32 - paramIdx <= Z.of_nat n ->
    (n + tailFuel w <= fuel)%nat ->
    terminates (decodeWellFormedTuple abiDecode fuel depth data paramIdx
                  collectedParams endOfStaticCalldata mode).
Proof.
  assert (Hslots : forall e i, i * 32 < e -> (e + 31) / 32 - i <= 0 -> False).
  { intros e i Hlt Hn.
    pose proof (Z.mod_pos_bound (e + 31) 32 ltac:(lia)).
    pose proof (Z.div_mod (e + 31) 32 ltac:(lia)). lia. }
  assert (Hstep : forall e e' i n, e' <= e ->
                    (e + 31) / 32 - i <= Z.of_nat (S n) ->
                    (e' + 31) / 32 - (i + 1) <= Z.of_nat n).
  { intros e e' i n Hle Hn.
    pose proof (Z.div_le_mono (e' + 31) (e + 31) 32 ltac:(lia) ltac:(lia)).
    lia. }
  assert (Hhead : forall w' n,
            (forall fuel depth data i C e mode,
               len data < 32 * (Z.of_nat w' + 1) ->
               e < 32 * (Z.of_nat w' + 1) -> 0 <= i ->
               placeholdersBehind C ->
               (e + 31) / 32 - i <= Z.of_nat n ->
               (n + tailFuel w' <= fuel)%nat ->
               terminates (decodeWellFormedTuple abiDecode fuel depth data i
                             C e mode)) ->
            forall fuel depth data i C e mode,
              len data < 32 * (Z.of_nat w' + 1) ->
              e < 32 * (Z.of_nat w' + 1) -> 0 <= i ->
              placeholdersBehind C ->
              (e + 31) / 32 - i <= Z.of_nat (S n) ->
              (S n + tailFuel w' <= S fuel)%nat ->
              i * 32 < e ->
              terminates (decodeWellFormedTuple abiDecode (S fuel) depth data
                            i C e mode)).
  { intros w' n IHn fuel depth data i C e mode Hd He Hi HC Hn Hfuel Hlt.
    cbn [decodeWellFormedTuple]. unfold decodeBody.
    replace (i * 32 >=? e) with false
      by (symmetry; rewrite Z.geb_leb; apply Z.leb_gt; lia).
    apply terminates_classifySlot; [exact Hi|].
    intros param newEnd Hnew Hparam.
    apply IHn; [exact Hd | lia | lia | | | lia].
    - apply placeholdersBehind_app; assumption.
    - apply (Hstep e); assumption. }
  induction w as [|w IHw].
  - assert (Htail : forall fuel depth data i C e mode,
              len data < 32 -> placeholdersBehind C -> e <= i * 32 ->
              (2 <= S fuel)%nat ->
              terminates (decodeWellFormedTuple abiDecode (S fuel) depth data
                            i C e mode)).
    { intros fuel depth data i C e mode Hd HC Hge Hfuel.
      rewrite decodeWellFormedTuple_tails by lia.
      apply (terminates_resolveTails abiDecode _ 0); [lia| |lia|exact HC].
      intros depth' data' e' mode' Hd' He'.
      destruct fuel as [|fuel]; [lia|].
      apply decodeWellFormedTuple_nil. exact He'. }
    induction n as [|n IHn];
      intros fuel depth data i C e mode Hd He Hi HC Hn Hfuel;
      (destruct fuel as [|fuel]; [cbn in Hfuel; lia|]);
      destruct (Z_lt_le_dec (i * 32) e) as [Hlt|Hge].
    + exfalso. exact (Hslots e i Hlt Hn).
    + apply Htail; [cbn in Hd; lia | exact HC | exact Hge |].
      cbn in Hfuel. lia.
    + apply (Hhead 0%nat n IHn); assumption.
    + apply Htail; [cbn in Hd; lia | exact HC | exact Hge |].
      cbn in Hfuel. lia.
  - assert (Htail : forall fuel depth data i C e mode,
              len data < 32 * (Z.of_nat (S w) + 1) ->
              placeholdersBehind C -> e <= i * 32 ->
              (tailFuel (S w) <= S fuel)%nat ->
              terminates (decodeWellFormedTuple abiDecode (S fuel) depth data
                            i C e mode)).
    { intros fuel depth data i C e mode Hd HC Hge Hfuel.
      rewrite decodeWellFormedTuple_tails by lia.
      apply (terminates_resolveTails abiDecode _ (Z.max 0 (len data - 32)));
        [lia| |lia|exact HC].
      intros depth' data' e' mode' Hd' He'.
      apply (IHw (S w)); try lia.
      - constructor.
      - pose proof (Z.div_lt_upper_bound (e' + 31) 32 (Z.of_nat (S w) + 1)
                      ltac:(lia) ltac:(lia)). lia.
      - cbn [tailFuel] in Hfuel. lia. }
    induction n as [|n IHn];
      intros fuel depth data i C e mode Hd He Hi HC Hn Hfuel;
      (destruct fuel as [|fuel]; [cbn in Hfuel; lia|]);
      destruct (Z_lt_le_dec (i * 32) e) as [Hlt|Hge].
    + exfalso. exact (Hslots e i Hlt Hn).
    + apply Htail; [exact Hd | exact HC | exact Hge | lia].
    + apply (Hhead (S w) n IHn); assumption.
    + apply Htail; [exact Hd | exact HC | exact Hge | lia].
Qed.

End SearchTerminates.

Lemma tailFuel_le (w : nat) : (tailFuel w <= (w + 1) * (w + 2))%nat.
Proof. induction w as [|w IH]; cbn [tailFuel]; [cbn; lia | nia]. Qed.

(** The fuel of the driver is enough for the search on any buffer. *)
Lemma decodeWellFormedTuple_fuel
    (abiDecode : list ParamType -> bytes -> option (list Value))
    (data : bytes) :
  terminates (decodeWellFormedTuple abiDecode (searchFuel data) 0 data 0 []
                (len data) None).
Proof.
  pose proof (len_nonneg data) as Hl.
  pose proof (Z.div_pos (len data) 32 Hl ltac:(lia)) as Hw.
  pose proof (Z.mod_pos_bound (len data) 32 ltac:(lia)) as Hm.
  pose proof (Z.div_mod (len data) 32 ltac:(lia)) as Hd.
  apply (decodeWellFormedTuple_terminates abiDecode
           (Z.to_nat (len data / 32)) (S (Z.to_nat (len data / 32))));
    try lia; try constructor.
  - pose proof (Z.div_lt_upper_bound (len data + 31) 32 (len data / 32 + 2)
                  ltac:(lia) ltac:(lia)). lia.
  - unfold searchFuel.
    pose proof (tailFuel_le (Z.to_nat (len data / 32))). nia.
Qed.

Lemma terminates_findBaseType (base : ParamType -> bool)
    (types : list MergeArg) : terminates (findBaseType base types).
Proof.
  induction types as [|[| |t] rest IH]; cbn [findBaseType];
    try discriminate; [exact IH|].
  destruct (base t); [discriminate | exact IH].
Qed.

Lemma terminates_componentAt (i : nat) (rest : list MergeArg) :
  terminates (mapM (componentAt i) rest).
Proof.
  apply terminates_mapM. intros [| |p] _; try discriminate.
  unfold componentAt. destruct (components p); discriminate.
Qed.

Lemma terminates_formatOpt (types : list MergeArg) :
  terminates (mapM formatOpt types).
Proof. apply terminates_mapM. intros [| |p] _; discriminate. Qed.

Lemma terminates_mergeEmpty (rest : list MergeArg) :
  terminates (mergeEmpty rest).
Proof.
  unfold mergeEmpty.
  apply terminates_bind; [apply terminates_findBaseType|].
  intros [|] _; [discriminate|].
  apply terminates_bind; [apply terminates_findBaseType|].
  intros [|] _; [discriminate|].
  apply terminates_bind; [apply terminates_formatOpt | discriminate].
Qed.

Lemma terminates_merge (first : ParamType) :
  (forall rest, terminates (mergeFrom first rest))
  /\ (forall rest, terminates (componentsMerge rest first)).
Proof.
  assert (Hfrom : forall first,
            (forall rest, terminates (componentsMerge rest first)) ->
            (forall c, first = TArray c ->
                       forall rest, terminates (mergeFrom c rest)) ->
            forall rest, terminates (mergeFrom first rest)).
  { intros t Hvia Harr rest. rewrite mergeFrom_unfold.
    apply terminates_bind; [apply terminates_findBaseType|].
    intros [|] _; [apply Hvia|].
    apply terminates_bind; [apply terminates_findBaseType|].
    intros [|] _.
    - destruct t; try discriminate.
      apply terminates_bind; [apply (Harr _ eq_refl) | discriminate].
    - apply terminates_bind; [apply terminates_formatOpt | discriminate]. }
  induction first as [| | | | | k | cs IH | c IH] using ParamType_nested_ind.
  1, 2, 3, 4, 5, 6:
    (split; [apply Hfrom; [intros rest | ]; discriminate
            | intros rest; discriminate]).
  - assert (Hvia : forall rest, terminates (componentsMerge rest (TTuple cs))).
    { intros rest. destruct cs as [|c0 cs0].
      - cbn [componentsMerge].
        apply terminates_bind; [apply terminates_componentAt|]. intros col _.
        apply terminates_bind; [apply terminates_mergeEmpty|].
        intros [m|] _; discriminate.
      - cbn [componentsMerge]. apply terminates_bind; [|discriminate].
        generalize O. induction IH as [|c cs [Hc _] _ IHcs]; intros i;
          cbn [mergeColumns]; [discriminate|].
        apply terminates_bind; [apply terminates_componentAt|].
        intros column _. apply terminates_bind; [apply Hc|]. intros m _.
        apply terminates_bind; [apply IHcs|]. intros ms _. discriminate. }
    split; [apply Hfrom; [exact Hvia | discriminate] | exact Hvia].
  - destruct IH as [IHfrom IHvia].
    assert (Hvia : forall rest, terminates (componentsMerge rest (TArray c)))
      by (intros rest; apply IHvia).
    split; [apply Hfrom; [exact Hvia|] | exact Hvia].
    intros c' E. injection E as <-. exact IHfrom.
Qed.

Lemma terminates_mergeFrom (first : ParamType) :
  forall rest, terminates (mergeFrom first rest).
Proof. apply terminates_merge. Qed.

Lemma terminates_mergeTypes (types : list ParamType) :
  terminates (mergeTypes types).
Proof.
  destruct types; [discriminate | apply terminates_mergeFrom].
Qed.

Lemma terminates_prettyType (isUtf8 : bytes -> bool) (param : ParamType) :
  forall val, terminates (prettyType isUtf8 param val).
Proof.
  induction param as [| | | | | k | cs IH | c IH] using ParamType_nested_ind;
    intros val; cbn [prettyType]; try discriminate.
  - destruct val as [[]|]; discriminate.
  - destruct val as [[w|b|vs]|]; try discriminate.
    destruct (isUtf8 b); discriminate.
  - destruct cs as [|c0 cs0]; [discriminate|].
    destruct val as [[w|b|vs]|]; try discriminate.
    apply terminates_bind; [|discriminate].
    inversion IH as [|c cs' Hc Hcs]; subst. clear IH.
    apply terminates_bind; [apply Hc|]. intros t _.
    apply terminates_bind; [|discriminate].
    generalize 1%nat. induction Hcs as [|c cs' Hc' _ IHcs]; intros i;
      [discriminate|].
    apply terminates_bind; [apply Hc'|]. intros t' _.
    apply terminates_bind; [apply IHcs|]. intros ts _. discriminate.
  - destruct val as [[w|b|vs]|]; try discriminate.
    apply terminates_bind.
    + apply terminates_mapM. intros child _. apply IH.
    + intros childrenTypes _.
      apply terminates_bind; [apply terminates_mergeTypes | discriminate].
Qed.

(** The driver never runs out of fuel: its outcome is a fragment, none,
    or an exception. *)
Lemma guessFragment_terminates
    (abiDecode : list ParamType -> bytes -> option (list Value))
    (isUtf8 : bytes -> bool) (calldata : bytes) :
  terminates (guessFragment abiDecode isUtf8 calldata).
Proof.
  unfold guessFragment. destruct (len calldata =? 0); [discriminate|].
  unfold wellFormedParse.
  apply terminates_bind; [apply decodeWellFormedTuple_fuel|].
  intros [f|] _; [|discriminate].
  destruct (abiDecode (inputs f) (skipn 4 calldata)) as [vals|];
    [|discriminate].
  apply terminates_bind; [|discriminate].
  unfold prettyTypes. generalize O.
  induction (inputs f) as [|p ps IH]; intros i; cbn [prettyTypesFrom];
    [discriminate|].
  apply terminates_bind; [apply terminates_prettyType|]. intros t _.
  apply terminates_bind; [apply IH | discriminate].
Qed.

(** ** The inferencer raises no exception *)

Lemma noThrow_bind {A B : Type} (r : result A) (k : A -> result B) :
  noThrow r -> (forall a, r = Ret a -> noThrow (k a)) -> noThrow (bind r k).
Proof.
  unfold noThrow. destruct r as [a | |]; cbn; intros Hr Hk;
    [apply Hk; reflexivity | congruence | discriminate].
Qed.

Lemma noThrow_mapM {A B : Type} (f : A -> result B) (l : list A) :
  (forall a, In a l -> noThrow (f a)) -> noThrow (mapM f l).
Proof.
  induction l as [|a l IH]; intros H; cbn [mapM]; [discriminate|].
  apply noThrow_bind; [apply H; left; reflexivity|]. intros b _.
  apply noThrow_bind; [apply IH; intros; apply H; right; assumption|].
  intros bs _. discriminate.
Qed.

Lemma slice_nonempty (d : bytes) (pos : Z) :
  0 <= pos < len d -> slice d pos (pos + 32) <> [].
Proof.
  intros H E. apply (f_equal (@List.length byte)) in E.
  unfold slice, len in *. rewrite length_firstn, length_skipn in E.
  cbn in E. lia.
Qed.

Lemma beValue_nonneg (bs : bytes) : 0 <= beValue bs.
Proof.
  assert (H : forall acc, 0 <= acc ->
                0 <= fold_left (fun a b => a * 256 + byteVal b) bs acc).
  { induction bs as [|b bs IH]; intros acc Ha; cbn [fold_left]; [exact Ha|].
    apply IH. unfold byteVal. lia. }
  apply H. lia.
Qed.

Lemma noThrow_tryParseOffset (data : bytes) (pos : Z) :
  0 <= pos < len data -> noThrow (tryParseOffset data pos).
Proof.
  intros H. unfold tryParseOffset, bigIntOfBytes.
  pose proof (slice_nonempty data pos H) as Hs.
  destruct (slice data pos (pos + 32)) as [|b bs]; [congruence|].
  cbn [bind].
  destruct (negb _); [discriminate|].
  destruct (_ || _); [discriminate|].
  destruct (negb _); discriminate.
Qed.

Lemma noThrow_tryParseLength (data : bytes) (offset : Z) :
  0 <= offset < len data -> noThrow (tryParseLength data offset).
Proof.
  intros H. unfold tryParseLength, bigIntOfBytes.
  pose proof (slice_nonempty data offset H) as Hs.
  destruct (slice data offset (offset + 32)) as [|b bs]; [congruence|].
  cbn [bind].
  destruct (negb _); [discriminate|].
  destruct (_ >? _); discriminate.
Qed.

Lemma tryParseLength_Some (data : bytes) (offset length : Z) :
  tryParseLength data offset = Ret (Some length) -> 0 <= length.
Proof.
  unfold tryParseLength, bigIntOfBytes.
  destruct (slice data offset (offset + 32)) as [|b bs] eqn:E;
    cbn [bind]; [discriminate|].
  destruct (negb _); [discriminate|].
  destruct (_ >? _); [discriminate|].
  intros H. injection H as <-. apply beValue_nonneg.
Qed.

Lemma keys_nil (k : Z) : keys k = [] -> k <= 0.
Proof.
  unfold keys. destruct (Z.to_nat k) eqn:E; [lia | discriminate].
Qed.

Lemma mapM_length {A B : Type} (f : A -> result B) (l : list A) (bs : list B) :
  mapM f l = Ret bs -> List.length bs = List.length l.
Proof.
  revert bs. induction l as [|a l IH]; intros bs; cbn [mapM].
  - intros H. injection H as <-. reflexivity.
  - destruct (f a) as [b | |]; cbn [bind]; try discriminate.
    destruct (mapM f l) as [bs' | |]; cbn [bind]; try discriminate.
    intros H. injection H as <-. cbn. rewrite (IH bs' eq_refl). reflexivity.
Qed.

Lemma len_slice_exact (d : bytes) (s e : Z) :
  0 <= s -> s <= e -> e <= len d -> len (slice d s e) = e - s.
Proof.
  intros Hs Hse He. unfold slice, len in *.
  rewrite length_firstn, length_skipn. lia.
Qed.

Section TailsSafe.

Variable rec : decoder.

Hypothesis rec_safe :
  forall depth data endOfStaticCalldata mode,
    endOfStaticCalldata <= len data ->
    noThrow (rec depth data 0 [] endOfStaticCalldata mode).

Lemma noThrow_resolveDynamicElements (depth : Z) (dynamicData : bytes)
    (k : Z) : noThrow (resolveDynamicElements rec depth dynamicData k).
Proof.
  unfold resolveDynamicElements.
  apply noThrow_bind; [apply rec_safe; lia|]. intros a _.
  apply noThrow_bind; [apply rec_safe; lia|]. intros b _.
  destruct (orNull a b) as [f|]; [|discriminate].
  destruct (negb (Z.of_nat (List.length (inputs f)) =? k)); [discriminate|].
  destruct (inputs f) as [|e rest]; [discriminate|].
  destruct (negb _); discriminate.
Qed.

Lemma decodeElements_length (depth : Z) (dynamicData : bytes)
    (elemSizeWords : Z) (elemIdxs : list Z) (elems : list (list ParamType)) :
  decodeElements rec depth dynamicData elemSizeWords elemIdxs
  = Ret (Some elems) ->
  List.length elems = List.length elemIdxs.
Proof.
  revert elems. induction elemIdxs as [|i rest IH]; intros elems;
    cbn [decodeElements].
  - intros H. injection H as <-. reflexivity.
  - destruct (rec _ _ _ _ _ _) as [[f|] | |]; cbn [bind]; try discriminate.
    destruct (decodeElements rec depth dynamicData elemSizeWords rest)
      as [[l|] | |]; cbn [bind]; try discriminate.
    intros H. injection H as <-. cbn. rewrite (IH l eq_refl). reflexivity.
Qed.

Lemma noThrow_decodeElements (depth : Z) (dynamicData : bytes)
    (elemSizeWords : Z) (elemIdxs : list Z) :
  (forall i, In i elemIdxs ->
             elemSizeWords * 32
             <= len (slice dynamicData (i * elemSizeWords * 32)
                       ((i + 1) * elemSizeWords * 32))) ->
  noThrow (decodeElements rec depth dynamicData elemSizeWords elemIdxs).
Proof.
  induction elemIdxs as [|i rest IH]; intros H; cbn [decodeElements];
    [discriminate|].
  apply noThrow_bind; [apply rec_safe, H; left; reflexivity|].
  intros [f|] _; [|discriminate].
  apply noThrow_bind; [apply IH; intros; apply H; right; assumption|].
  intros [l|] _; discriminate.
Qed.

Lemma noThrow_resolveStaticElements (depth : Z) (dynamicData : bytes)
    (k : Z) (trailing : bool) :
  1 <= k ->
  noThrow (resolveStaticElements rec depth dynamicData k trailing).
Proof.
  intros Hk. unfold resolveStaticElements.
  destruct (negb (len dynamicData mod (32 * k) =? 0) && negb trailing);
    [discriminate|].
  cbv zeta.
  match goal with
  | |- context [decodeElements rec depth ?d _ _] => set (dd := d)
  end.
  set (esw := len dd / (32 * k)).
  assert (Hfull : len dd = esw * (32 * k)).
  { subst esw dd.
    destruct (len dynamicData mod (32 * k) =? 0) eqn:E; cbn [negb].
    - apply Z.eqb_eq in E.
      pose proof (Z.div_mod (len dynamicData) (32 * k) ltac:(lia)). lia.
    - pose proof (len_nonneg dynamicData).
      pose proof (Z.div_pos (len dynamicData) (32 * k) ltac:(lia) ltac:(lia)).
      pose proof (Z.mul_div_le (len dynamicData) (32 * k) ltac:(lia)).
      rewrite len_slice_exact by nia.
      replace (len dynamicData / (32 * k) * k * 32 - 0)
        with (len dynamicData / (32 * k) * (32 * k)) by lia.
      rewrite Z.div_mul by lia. reflexivity. }
  assert (Hesw : 0 <= esw).
  { pose proof (len_nonneg dd). nia. }
  apply noThrow_bind.
  - apply noThrow_decodeElements. intros i Hi. apply keys_In in Hi.
    assert (0 <= i * esw) by nia.
    assert ((i + 1) * esw <= k * esw) by nia.
    rewrite len_slice_exact; lia.
  - intros [elems|] Hdec; [|discriminate].
    destruct (_ >? 1); [discriminate|].
    apply decodeElements_length in Hdec.
    destruct elems as [|ins elems]; [|discriminate].
    exfalso. cbn in Hdec. symmetry in Hdec.
    apply length_zero_iff_nil, keys_nil in Hdec. lia.
Qed.

Lemma noThrow_resolveAsTuple (depth : Z) (dynamicData : bytes)
    (maybeLength : option Z) :
  (forall k, maybeLength = Some k -> 0 <= k) ->
  noThrow (resolveAsTuple rec depth dynamicData maybeLength).
Proof.
  intros Hk. unfold resolveAsTuple.
  apply noThrow_bind; [apply rec_safe; lia|].
  intros [f|] _; [|discriminate].
  destruct maybeLength as [k|]; [|discriminate].
  specialize (Hk k eq_refl).
  destruct (k =? 0) eqn:E0; cbn [orb]; [discriminate|].
  destruct (negb _); [discriminate|].
  destruct (negb _); [discriminate|].
  destruct (keys k) as [|i rest] eqn:Ekeys.
  - apply keys_nil in Ekeys. apply Z.eqb_neq in E0. lia.
  - cbn [map].
    repeat match goal with
           | |- noThrow (match ?c with _ => _ end) => destruct c
           end; discriminate.
Qed.

Lemma noThrow_resolveArray (depth : Z) (dynamicData : bytes) (k : Z)
    (trailing : bool) :
  0 <= k -> noThrow (resolveArray rec depth dynamicData k trailing).
Proof.
  intros Hk. unfold resolveArray.
  destruct (len dynamicData >? 32 * k) eqn:E.
  2:{ apply noThrow_resolveAsTuple. intros k' H. injection H as <-. exact Hk. }
  apply Z.gtb_lt in E.
  apply noThrow_bind.
  - apply noThrow_mapM. intros i Hi. apply keys_In in Hi.
    apply noThrow_tryParseOffset. lia.
  - intros offsets Hm. destruct (forallb isSome offsets) eqn:Eall.
    + apply noThrow_resolveDynamicElements.
    + apply noThrow_resolveStaticElements.
      apply mapM_length in Hm.
      destruct (keys k) as [|i rest] eqn:Ekeys.
      * destruct offsets; [discriminate Eall | discriminate Hm].
      * assert (Hi : In i (keys k)) by (rewrite Ekeys; now left).
        apply keys_In in Hi. lia.
Qed.

Lemma noThrow_resolveDynamicParam (depth : Z) (data : bytes)
    (dynamicParams : list DynamicPlaceholder) (dynamicParamIdx : nat)
    (ph : DynamicPlaceholder) :
  (forall k, ph_length ph = Some k -> 0 <= k) ->
  noThrow (resolveDynamicParam rec depth data dynamicParams dynamicParamIdx ph).
Proof.
  intros Hk. unfold resolveDynamicParam.
  destruct (ph_length ph) as [k|].
  - destruct (isBytesLike k _ _); [discriminate|].
    apply noThrow_resolveArray, Hk. reflexivity.
  - apply noThrow_resolveAsTuple. discriminate.
Qed.

Lemma noThrow_resolveParams (depth : Z) (data : bytes)
    (dynamicParams : list DynamicPlaceholder)
    (collectedParams : list DecodedParam) :
  lengthsNonneg collectedParams ->
  forall dynamicParamIdx,
    noThrow (resolveParams rec depth data dynamicParams dynamicParamIdx
               collectedParams).
Proof.
  induction 1 as [|v rest Hv _ IH]; intros idx; cbn [resolveParams];
    [discriminate|].
  destruct v as [p|ph].
  - apply noThrow_bind; [apply IH|]. intros more _. discriminate.
  - apply noThrow_bind.
    + apply noThrow_resolveDynamicParam. intros k Hk.
      destruct ph as [o l]. cbn in Hk. subst l. exact Hv.
    + intros r _. apply noThrow_bind; [apply IH|].
      intros more _. discriminate.
Qed.

Lemma noThrow_resolveTails
    (abiDecode : list ParamType -> bytes -> option (list Value))
    (depth : Z) (data : bytes) (collectedParams : list DecodedParam) :
  lengthsNonneg collectedParams ->
  noThrow (resolveTails abiDecode rec depth data collectedParams).
Proof.
  intros Hc. unfold resolveTails.
  apply noThrow_bind; [apply noThrow_resolveParams; assumption|].
  intros finalParams _.
  destruct (negb _); [discriminate|].
  destruct (testFragment _ _ _); discriminate.
Qed.

End TailsSafe.

Section SlotSafe.

Variable abiDecode : list ParamType -> bytes -> option (list Value).
Variable rec : decoder.
Variable depth : Z.
Variable data : bytes.
Variable paramIdx : Z.
Variable collectedParams : list DecodedParam.
Variable endOfStaticCalldata : Z.
Variable mode : option DynamicOnlyParams.

Hypothesis paramIdx_nonneg : 0 <= paramIdx.
Hypothesis inside_head : paramIdx * 32 < endOfStaticCalldata.
Hypothesis head_inside : endOfStaticCalldata <= len data.

Hypothesis next_safe :
  forall (param : DecodedParam) (newEnd : Z),
    newEnd <= endOfStaticCalldata ->
    lengthsNonneg [param] ->
    noThrow (rec depth data (paramIdx + 1) (collectedParams ++ [param])
               newEnd mode).

Lemma noThrow_tryStatic :
  noThrow (tryStatic abiDecode rec depth data paramIdx collectedParams
             endOfStaticCalldata mode).
Proof.
  unfold tryStatic. destruct (negb _); [discriminate|].
  apply noThrow_bind.
  - apply next_safe; [lia | repeat constructor].
  - intros fragment _. destruct (testFragment _ _ _); discriminate.
Qed.

Lemma noThrow_tryNoLength (offset : Z) :
  noThrow (tryNoLength abiDecode rec depth data paramIdx collectedParams
             endOfStaticCalldata mode offset).
Proof.
  unfold tryNoLength.
  destruct (mayAssumeNoLength depth mode); [|apply noThrow_tryStatic].
  apply noThrow_bind.
  - apply next_safe; [lia | repeat constructor].
  - intros fragment _. destruct (testFragment _ _ _);
      [discriminate | apply noThrow_tryStatic].
Qed.

Lemma noThrow_classifySlot :
  noThrow (classifySlot abiDecode rec depth data paramIdx collectedParams
             endOfStaticCalldata mode).
Proof.
  unfold classifySlot.
  apply noThrow_bind; [apply noThrow_tryParseOffset; lia|].
  intros [offset|] Hoff; [|apply noThrow_tryStatic].
  apply tryParseOffset_Some in Hoff.
  apply noThrow_bind; [apply noThrow_tryParseLength; lia|].
  intros [length|] Hlen; [|apply noThrow_tryNoLength].
  apply tryParseLength_Some in Hlen.
  destruct (mayAssumeLength depth mode); [|apply noThrow_tryNoLength].
  apply noThrow_bind.
  - apply next_safe; [lia | repeat constructor; exact Hlen].
  - intros fragment _. destruct (testFragment _ _ _);
      [discriminate | apply noThrow_tryNoLength].
Qed.

End SlotSafe.

(** The inferencer raises no exception of its own: from a head that
    lies inside the buffer, whatever the oracle answers, it returns a
    fragment or none (or, in the model, runs out of fuel). *)
Lemma decodeWellFormedTuple_noThrow
    (abiDecode : list ParamType -> bytes -> option (list Value))
    (fuel : nat) :
  forall (depth : Z) (data : bytes) (paramIdx : Z)
         (collectedParams : list DecodedParam) (endOfStaticCalldata : Z)
         (mode : option DynamicOnlyParams),
    0 <= paramIdx ->
    endOfStaticCalldata <= len data ->
    lengthsNonneg collectedParams ->
    noThrow (decodeWellFormedTuple abiDecode fuel depth data paramIdx
               collectedParams endOfStaticCalldata mode).
Proof.
  induction fuel as [|fuel IH]; intros depth data i C e mode Hi He HC;
    [discriminate|].
  destruct (Z_lt_le_dec (i * 32) e) as [Hlt|Hge].
  - cbn [decodeWellFormedTuple]. unfold decodeBody.
    replace (i * 32 >=? e) with false
      by (symmetry; rewrite Z.geb_leb; apply Z.leb_gt; lia).
    apply noThrow_classifySlot; try assumption.
    intros param newEnd Hnew Hparam. apply IH; [lia | lia |].
    apply Forall_app. split; assumption.
  - rewrite decodeWellFormedTuple_tails by lia.
    apply noThrow_resolveTails; [|exact HC].
    intros depth' data' e' mode' He'. apply IH; [lia | exact He' | constructor].
Qed.

(** The search of the driver returns: a fragment that the oracle
    accepts, or none. *)
Lemma decodeWellFormedTuple_returns
    (abiDecode : list ParamType -> bytes -> option (list Value))
    (data : bytes) :
  exists r,
    decodeWellFormedTuple abiDecode (searchFuel data) 0 data 0 []
      (len data) None = Ret r.
Proof.
  pose proof (decodeWellFormedTuple_fuel abiDecode data) as Ht.
  pose proof (decodeWellFormedTuple_noThrow abiDecode (searchFuel data) 0 data
                0 [] (len data) None ltac:(lia) ltac:(lia) ltac:(constructor))
    as Hn.
  destruct (decodeWellFormedTuple _ _ _ _ _ _ _ _) as [r | |];
    [exists r; reflexivity | contradiction Hn | contradiction Ht];
    reflexivity.
Qed.

(** A fragment that the search returns has passed the oracle on the
    buffer of the search. *)
Lemma decodeWellFormedTuple_accepted
    (abiDecode : list ParamType -> bytes -> option (list Value))
    (fuel : nat) :
  forall (depth : Z) (data : bytes) (paramIdx : Z)
         (collectedParams : list DecodedParam) (endOfStaticCalldata : Z)
         (mode : option DynamicOnlyParams) (f : FunctionFragment),
    decodeWellFormedTuple abiDecode fuel depth data paramIdx collectedParams
      endOfStaticCalldata mode = Ret (Some f) ->
    testFragment abiDecode data (Some f) = true.
Proof.
  destruct fuel as [|fuel]; intros depth data i C e mode f; [discriminate|].
  cbn [decodeWellFormedTuple]. unfold decodeBody.
  set (rec := decodeWellFormedTuple abiDecode fuel).
  assert (Hstatic : tryStatic abiDecode rec depth data i C e mode
                    = Ret (Some f) ->
                    testFragment abiDecode data (Some f) = true).
  { unfold tryStatic. destruct (negb _); [discriminate|].
    destruct (rec _ _ _ _ _ _) as [fragment | |]; cbn [bind];
      try discriminate.
    destruct (testFragment abiDecode data fragment) eqn:E; [|discriminate].
    intros H. injection H as ->. exact E. }
  assert (HnoLength : forall offset,
            tryNoLength abiDecode rec depth data i C e mode offset
            = Ret (Some f) ->
            testFragment abiDecode data (Some f) = true).
  { intros offset. unfold tryNoLength.
    destruct (mayAssumeNoLength depth mode); [|exact Hstatic].
    destruct (rec _ _ _ _ _ _) as [fragment | |]; cbn [bind];
      try discriminate.
    destruct (testFragment abiDecode data fragment) eqn:E; [|exact Hstatic].
    intros H. injection H as ->. exact E. }
  destruct (i * 32 >=? e).
  - unfold resolveTails.
    destruct (resolveParams _ _ _ _ _ _) as [finalParams | |]; cbn [bind];
      try discriminate.
    destruct (negb _); [discriminate|]. cbv zeta. intros H.
    match type of H with
    | (if ?c then _ else _) = _ => destruct c eqn:E; [|discriminate H]
    end.
    injection H as <-. exact E.
  - unfold classifySlot.
    destruct (tryParseOffset data (i * 32)) as [[offset|] | |]; cbn [bind];
      try discriminate; [|exact Hstatic].
    destruct (tryParseLength data offset) as [[length|] | |]; cbn [bind];
      try discriminate; [|apply HnoLength].
    destruct (mayAssumeLength depth mode); [|apply HnoLength].
    destruct (rec _ _ _ _ _ _) as [fragment | |]; cbn [bind];
      try discriminate.
    destruct (testFragment abiDecode data fragment) eqn:E; [|apply HnoLength].
    intros H. injection H as ->. exact E.
Qed.

(** An exception leaves [guessFragment] exactly when the prettifier
    raises one on the fragment of the search and the values of the
    decoder. *)
Lemma guessFragment_throw_iff
    (abiDecode : list ParamType -> bytes -> option (list Value))
    (isUtf8 : bytes -> bool) (calldata : bytes) :
  guessFragment abiDecode isUtf8 calldata = Throw
  <-> exists f vals,
        calldata <> []
        /\ decodeWellFormedTuple abiDecode (searchFuel (skipn 4 calldata)) 0
             (skipn 4 calldata) 0 [] (len (skipn 4 calldata)) None
           = Ret (Some f)
        /\ abiDecode (inputs f) (skipn 4 calldata) = Some vals
        /\ prettyTypes isUtf8 (inputs f) vals = Throw.
Proof.
  unfold guessFragment, wellFormedParse.
  destruct (decodeWellFormedTuple_returns abiDecode (skipn 4 calldata))
    as [r Hr].
  rewrite Hr. cbn [bind]. split.
  - destruct (len calldata =? 0) eqn:E; [discriminate|].
    destruct r as [f|]; [|discriminate].
    pose proof (decodeWellFormedTuple_accepted _ _ _ _ _ _ _ _ _ Hr) as Hacc.
    unfold testFragment in Hacc.
    destruct (abiDecode (inputs f) (skipn 4 calldata)) as [vals|] eqn:Ed;
      [|discriminate].
    intros H. exists f, vals.
    split; [intros ->; discriminate|]. split; [reflexivity|].
    split; [exact Ed|].
    destruct (prettyTypes isUtf8 (inputs f) vals); try discriminate.
    reflexivity.
  - intros (f & vals & Hne & Hf & Hd & Hp). injection Hf as ->.
    replace (len calldata =? 0) with false.
    + rewrite Hd, Hp. reflexivity.
    + symmetry. apply Z.eqb_neq. rewrite len_nil_iff. exact Hne.
Qed.

(* ================================================================== *)
(** * Further properties of the code *)

(** ** The probes *)

(** X1. [tryParseOffset] returns an offset exactly when the word at
    [pos] is a safe number, strictly greater than [pos], smaller than the
    length of the buffer and a multiple of 32; the offset is the
    big-endian value of the word. *)
Theorem tryParseOffset_spec (data : bytes) (pos offset : Z) :
  0 <= pos < len data ->
  (tryParseOffset data pos = Ret (Some offset)
   <-> offset = beValue (slice data pos (pos + 32))
       /\ offset < MAX_SAFE_INTEGER
       /\ pos < offset < len data
       /\ offset mod 32 = 0).
Proof.
  intros Hpos. unfold tryParseOffset, bigIntOfBytes.
  pose proof (slice_nonempty data pos Hpos) as Hs.
  destruct (slice data pos (pos + 32)) as [|b bs] eqn:E; [congruence|].
  cbn [bind]. set (v := beValue (b :: bs)). unfold isSafeNumber.
  destruct (v <? MAX_SAFE_INTEGER) eqn:E0; cbn [negb].
  2:{ apply Z.ltb_ge in E0. split; [discriminate | intros (-> & ? & _); lia]. }
  apply Z.ltb_lt in E0.
  destruct (v <=? pos) eqn:E1; cbn [orb].
  { apply Z.leb_le in E1. split; [discriminate | intros (-> & _ & ? & _); lia]. }
  apply Z.leb_gt in E1.
  destruct (v >=? len data) eqn:E2.
  { rewrite Z.geb_leb in E2. apply Z.leb_le in E2.
    split; [discriminate | intros (-> & _ & ? & _); lia]. }
  rewrite Z.geb_leb in E2. apply Z.leb_gt in E2.
  destruct (v mod 32 =? 0) eqn:E3; cbn [negb].
  - apply Z.eqb_eq in E3. split.
    + intros H. injection H as <-. repeat split; assumption.
    + intros (-> & _). reflexivity.
  - apply Z.eqb_neq in E3.
    split; [discriminate | intros (-> & _ & _ & ?); contradiction].
Qed.

Lemma tryParseOffset_spec_witness :
  tryParseOffset crossedPointers 32 = Ret (Some 64).
Proof.
  apply (proj2 (tryParseOffset_spec crossedPointers 32 64
                  ltac:(vm_compute; split; [discriminate | reflexivity]))).
  vm_compute. repeat split; discriminate.
Defined.

(** X2. [tryParseLength] returns a length exactly when the word at
    [offset] is a safe number and that many bytes after the word lie
    inside the buffer; the length is the value of the word and is not
    negative. *)
Theorem tryParseLength_spec (data : bytes) (offset length : Z) :
  0 <= offset < len data ->
  (tryParseLength data offset = Ret (Some length)
   <-> length = beValue (slice data offset (offset + 32))
       /\ 0 <= length < MAX_SAFE_INTEGER
       /\ offset + 32 + length <= len data).
Proof.
  intros Hpos. unfold tryParseLength, bigIntOfBytes.
  pose proof (slice_nonempty data offset Hpos) as Hs.
  pose proof (beValue_nonneg (slice data offset (offset + 32))) as Hv.
  destruct (slice data offset (offset + 32)) as [|b bs] eqn:E; [congruence|].
  cbn [bind]. set (v := beValue (b :: bs)) in *. unfold isSafeNumber.
  destruct (v <? MAX_SAFE_INTEGER) eqn:E0; cbn [negb].
  2:{ apply Z.ltb_ge in E0. split; [discriminate | intros (-> & ? & _); lia]. }
  apply Z.ltb_lt in E0.
  destruct (offset + 32 + v >? len data) eqn:E1.
  - apply Z.gtb_lt in E1. split; [discriminate | intros (-> & _ & ?); lia].
  - rewrite Z.gtb_ltb in E1. apply Z.ltb_ge in E1. split.
    + intros H. injection H as <-. repeat split; try assumption; lia.
    + intros (-> & _). reflexivity.
Qed.

Lemma tryParseLength_spec_witness :
  tryParseLength stringArray 32 = Ret (Some 2).
Proof.
  apply (proj2 (tryParseLength_spec stringArray 32 2
                  ltac:(vm_compute; split; [discriminate | reflexivity]))).
  vm_compute. repeat split; discriminate.
Defined.

(** ** Counting zero bytes *)

Lemma slice_cons_0 (b : byte) (arr : bytes) (m : Z) :
  0 <= m -> slice (b :: arr) 0 (1 + m) = b :: slice arr 0 m.
Proof.
  intros Hm. unfold slice. rewrite !Z.sub_0_r.
  replace (Z.to_nat (1 + m)) with (S (Z.to_nat m)) by lia.
  reflexivity.
Qed.

Lemma countLeadingZeros_iff (arr : bytes) (n : Z) :
  countLeadingZeros arr = n
  <-> 0 <= n <= len arr
      /\ Forall (fun b => byteVal b = 0) (slice arr 0 n)
      /\ (forall b, nth_error arr (Z.to_nat n) = Some b -> byteVal b <> 0).
Proof.
  revert n. induction arr as [|b arr IH]; intros n.
  - cbn [countLeadingZeros]. unfold len. cbn [List.length]. split.
    + intros <-. split; [lia|]. split; [constructor|].
      intros b H. discriminate H.
    + intros (H & _). lia.
  - cbn [countLeadingZeros].
    assert (Hlen : len (b :: arr) = 1 + len arr).
    { unfold len. cbn [List.length]. lia. }
    pose proof (len_nonneg arr) as Hpos.
    rewrite Hlen. destruct (byteVal b =? 0) eqn:E.
    + apply Z.eqb_eq in E. split.
      * intros <-.
        destruct (proj1 (IH _) eq_refl) as (Hb & Hz & Hnz).
        split; [lia|]. split.
        -- rewrite slice_cons_0 by lia. constructor; assumption.
        -- intros c. replace (Z.to_nat (1 + countLeadingZeros arr))
             with (S (Z.to_nat (countLeadingZeros arr))) by lia.
           cbn [nth_error]. apply Hnz.
      * intros (Hb & Hz & Hnz).
        assert (Hn : n <> 0).
        { intros ->. apply (Hnz b); [reflexivity | exact E]. }
        replace n with (1 + (n - 1)) in * by lia.
        f_equal. apply IH. split; [lia|].
        rewrite slice_cons_0 in Hz by lia. inversion Hz; subst.
        split; [assumption|].
        intros c Hc. apply (Hnz c).
        replace (Z.to_nat (1 + (n - 1))) with (S (Z.to_nat (n - 1))) by lia.
        exact Hc.
    + apply Z.eqb_neq in E. split.
      * intros <-. split; [lia|]. split; [constructor|].
        intros c Hc. cbn in Hc. injection Hc as <-. exact E.
      * intros (Hb & Hz & _).
        destruct (Z.eq_dec n 0) as [->|Hn]; [reflexivity|].
        replace n with (1 + (n - 1)) in Hz by lia.
        rewrite slice_cons_0 in Hz by lia. inversion Hz; subst.
        contradiction.
Qed.

Lemma Forall_rev_iff {A : Type} (P : A -> Prop) (l : list A) :
  Forall P (rev l) <-> Forall P l.
Proof.
  rewrite !Forall_forall. split; intros H x Hx; apply H.
  - apply in_rev in Hx. exact Hx.
  - apply in_rev. exact Hx.
Qed.

Lemma countTrailingZeros_iff (arr : bytes) (n : Z) :
  countTrailingZeros arr = n
  <-> 0 <= n <= len arr
      /\ Forall (fun b => byteVal b = 0) (slice arr (len arr - n) (len arr))
      /\ (forall b, n < len arr ->
            nth_error arr (Z.to_nat (len arr - 1 - n)) = Some b ->
            byteVal b <> 0).
Proof.
  unfold countTrailingZeros. rewrite countLeadingZeros_iff.
  assert (Hlen : len (rev arr) = len arr).
  { unfold len. rewrite length_rev. reflexivity. }
  rewrite Hlen.
  assert (Hs : 0 <= n <= len arr ->
               slice (rev arr) 0 n = rev (slice arr (len arr - n) (len arr))).
  { intros Hn. unfold slice. rewrite Z.sub_0_r. cbn [Z.to_nat skipn].
    rewrite firstn_rev. f_equal.
    replace (Z.to_nat (len arr - (len arr - n))) with (Z.to_nat n) by lia.
    replace (List.length arr - Z.to_nat n)%nat
      with (Z.to_nat (len arr - n)) by (unfold len in *; lia).
    symmetry. apply firstn_all2. rewrite length_skipn.
    unfold len in *. lia. }
  assert (Hn : forall b, 0 <= n <= len arr ->
               nth_error (rev arr) (Z.to_nat n) = Some b
               <-> n < len arr
                   /\ nth_error arr (Z.to_nat (len arr - 1 - n)) = Some b).
  { intros b Hb. rewrite nth_error_rev.
    destruct (Z.to_nat n <? List.length arr)%nat eqn:E.
    - apply Nat.ltb_lt in E.
      replace (List.length arr - S (Z.to_nat n))%nat
        with (Z.to_nat (len arr - 1 - n)) by (unfold len in *; lia).
      split; [intros H; split; [unfold len; lia | exact H] | intros [_ H]; exact H].
    - apply Nat.ltb_ge in E. split; [discriminate|].
      intros [H _]. unfold len in *. lia. }
  split; intros (Hb & Hz & Hnz); (split; [exact Hb|]); split.
  - rewrite Hs in Hz by exact Hb. exact (proj1 (Forall_rev_iff _ _) Hz).
  - intros b Hlt Hb'. apply (Hnz b). apply Hn; [exact Hb | split; assumption].
  - rewrite Hs by exact Hb. exact (proj2 (Forall_rev_iff _ _) Hz).
  - intros b Hb'. apply Hn in Hb'; [|exact Hb]. destruct Hb' as [Hlt Hb'].
    apply (Hnz b Hlt Hb').
Qed.

(** X3. [countLeadingZeros] is the length of the longest prefix of zero
    bytes: it returns [n] exactly when [n] is between 0 and the length
    of the array, the first [n] bytes are zero and the byte at index
    [n], if there is one, is not zero. *)
Theorem countLeadingZeros_spec (arr : bytes) (n : Z) :
  countLeadingZeros arr = n
  <-> 0 <= n <= len arr
      /\ Forall (fun b => byteVal b = 0) (slice arr 0 n)
      /\ (forall b, nth_error arr (Z.to_nat n) = Some b -> byteVal b <> 0).
Proof. exact (countLeadingZeros_iff arr n). Qed.

(** X4. [countTrailingZeros] is the length of the longest suffix of zero
    bytes: it returns [n] exactly when [n] is between 0 and the length
    of the array, the last [n] bytes are zero and the byte before them,
    if there is one, is not zero. *)
Theorem countTrailingZeros_spec (arr : bytes) (n : Z) :
  countTrailingZeros arr = n
  <-> 0 <= n <= len arr
      /\ Forall (fun b => byteVal b = 0) (slice arr (len arr - n) (len arr))
      /\ (forall b, n < len arr ->
            nth_error arr (Z.to_nat (len arr - 1 - n)) = Some b ->
            byteVal b <> 0).
Proof. exact (countTrailingZeros_iff arr n). Qed.

(** ** The refinement of a word *)

Lemma byteVal_range (b : byte) : 0 <= byteVal b < 256.
Proof.
  unfold byteVal. pose proof (Byte.to_N_bounded b) as H. lia.
Qed.

Lemma fold_beValue (l : bytes) (a : Z) :
  fold_left (fun acc b => acc * 256 + byteVal b) l a
  = a * 256 ^ len l + beValue l.
Proof.
  unfold beValue. revert a. induction l as [|b l IH]; intros a.
  - cbn. lia.
  - cbn [fold_left]. rewrite IH. rewrite (IH (0 * 256 + byteVal b)).
    replace (len (b :: l)) with (len l + 1)
      by (unfold len; cbn [List.length]; lia).
    rewrite Z.pow_add_r by (pose proof (len_nonneg l); lia).
    ring.
Qed.

Lemma beValue_cons (b : byte) (l : bytes) :
  beValue (b :: l) = byteVal b * 256 ^ len l + beValue l.
Proof.
  unfold beValue at 1. cbn [fold_left]. rewrite fold_beValue. ring.
Qed.

Lemma beValue_bound (l : bytes) : 0 <= beValue l < 256 ^ len l.
Proof.
  induction l as [|b l IH].
  - cbn. lia.
  - rewrite beValue_cons.
    replace (len (b :: l)) with (len l + 1)
      by (unfold len; cbn [List.length]; lia).
    rewrite Z.pow_add_r by (pose proof (len_nonneg l); lia).
    pose proof (byteVal_range b). nia.
Qed.

(** At least [k] leading zero bytes: the value fits the other bytes. *)
Lemma countLeadingZeros_ge (l : bytes) (k : Z) :
  0 <= k <= len l ->
  (k <= countLeadingZeros l <-> beValue l < 256 ^ (len l - k)).
Proof.
  revert k. induction l as [|b l IH]; intros k Hk.
  - unfold len in *. cbn in *. assert (k = 0) as -> by lia. cbn. lia.
  - assert (Hlen : len (b :: l) = len l + 1)
      by (unfold len; cbn [List.length]; lia).
    pose proof (len_nonneg l) as Hl. pose proof (beValue_bound l) as Hv.
    pose proof (byteVal_range b) as Hbv.
    rewrite Hlen in *. rewrite beValue_cons. cbn [countLeadingZeros].
    assert (Hclz : 0 <= countLeadingZeros l)
      by (apply (proj1 (countLeadingZeros_iff l _) eq_refl)).
    destruct (byteVal b =? 0) eqn:E.
    + apply Z.eqb_eq in E. rewrite E, Z.mul_0_l, Z.add_0_l.
      destruct (Z.eq_dec k 0) as [->|Hk0].
      * rewrite Z.sub_0_r, Z.pow_add_r by lia. split; intros _; lia.
      * replace (len l + 1 - k) with (len l - (k - 1)) by lia.
        rewrite <- (IH (k - 1)) by lia. lia.
    + apply Z.eqb_neq in E.
      destruct (Z.eq_dec k 0) as [->|Hk0].
      * rewrite Z.sub_0_r, Z.pow_add_r by lia. split; intros _; [nia | lia].
      * split; [lia|]. intros H. exfalso.
        assert (256 ^ (len l + 1 - k) <= 256 ^ len l)
          by (apply Z.pow_le_mono_r; lia).
        nia.
Qed.

(** X5. A 32-byte word is refined by its value: [uint256] exactly when
    the value is below 2^112 (at least 18 leading zero bytes), [address]
    exactly when it is at least 2^112 and below 2^160 (12 to 17 leading
    zero bytes). *)
Theorem prettyBytes32_by_value (val : bytes) :
  len val = 32 ->
  (prettyBytes32 val = TUint256 <-> beValue val < 2 ^ 112)
  /\ (prettyBytes32 val = TAddress <-> 2 ^ 112 <= beValue val < 2 ^ 160).
Proof.
  intros Hlen.
  pose proof (countLeadingZeros_ge val 12 ltac:(lia)) as H12.
  pose proof (countLeadingZeros_ge val 18 ltac:(lia)) as H18.
  rewrite Hlen in H12, H18.
  change (256 ^ (32 - 12)) with (2 ^ 160) in H12.
  change (256 ^ (32 - 18)) with (2 ^ 112) in H18.
  unfold prettyBytes32.
  set (lz := countLeadingZeros val) in *.
  set (tz := countTrailingZeros val).
  destruct (lz >=? 12) eqn:E12; rewrite Z.geb_leb in E12;
    [apply Z.leb_le in E12 | apply Z.leb_gt in E12];
  (destruct (lz <=? 17) eqn:E17;
    [apply Z.leb_le in E17 | apply Z.leb_gt in E17]);
  cbn [andb];
  (destruct (lz >? 16) eqn:E16; rewrite Z.gtb_ltb in E16;
    [apply Z.ltb_lt in E16 | apply Z.ltb_ge in E16]);
  try (destruct (tz >? 0));
  (split; split; try discriminate; try (intros _; reflexivity);
   try (intros _; lia); try lia).
Qed.

Lemma prettyBytes32_by_value_witness :
  prettyBytes32 (word (2 ^ 150)) = TAddress.
Proof.
  apply (proj2 (proj2 (prettyBytes32_by_value (word (2 ^ 150)) eq_refl))).
  vm_compute. split; [discriminate | reflexivity].
Defined.

(** X6. When a 32-byte word is refined to [bytesN], [N] is between 1 and
    31, the bytes from index [N] on are zero and the byte at index
    [N - 1] is not: [N] is the least number of bytes that hold the word
    left-aligned. *)
Theorem prettyBytes32_bytesN (val : bytes) (n : Z) :
  len val = 32 ->
  prettyBytes32 val = TBytesN n ->
  1 <= n <= 31
  /\ Forall (fun b => byteVal b = 0) (slice val n 32)
  /\ exists b, nth_error val (Z.to_nat (n - 1)) = Some b /\ byteVal b <> 0.
Proof.
  intros Hlen. unfold prettyBytes32.
  destruct (proj1 (countLeadingZeros_iff val _) eq_refl) as (Hlb & Hlz & _).
  destruct (proj1 (countTrailingZeros_iff val _) eq_refl) as (Htb & Htz & Htn).
  set (lz := countLeadingZeros val) in *.
  set (tz := countTrailingZeros val) in *.
  destruct ((lz >=? 12) && (lz <=? 17)) eqn:Ea; [discriminate|].
  destruct (lz >? 16) eqn:Eu; [discriminate|].
  destruct (tz >? 0) eqn:Et; [|discriminate].
  intros H.
  apply (f_equal (fun t => match t with TBytesN m => m | _ => 0 end)) in H.
  cbv beta iota in H. subst n.
  rewrite Z.gtb_ltb in Eu, Et. apply Z.ltb_ge in Eu. apply Z.ltb_lt in Et.
  rewrite Hlen in *.
  assert (Htz32 : tz <> 32).
  { intros E32. rewrite E32 in Htz.
    assert (Hall : countLeadingZeros val = 32).
    { apply countLeadingZeros_iff. rewrite Hlen. split; [lia|]. split.
      - exact Htz.
      - intros b Hb. exfalso.
        assert (nth_error val (Z.to_nat 32) = None) as Hnone
          by (apply nth_error_None; unfold len in Hlen; lia).
        congruence. }
    fold lz in Hall. lia. }
  split; [lia|]. split.
  - exact Htz.
  - destruct (nth_error val (Z.to_nat (32 - tz - 1))) as [b|] eqn:Eb.
    + exists b. split; [reflexivity|]. apply Htn; [lia|].
      replace (32 - 1 - tz) with (32 - tz - 1) by lia. exact Eb.
    + apply nth_error_None in Eb. unfold len in Hlen. lia.
Qed.

Lemma prettyBytes32_bytesN_witness :
  1 <= 4 <= 31
  /\ Forall (fun b => byteVal b = 0) (slice (word (2 ^ 255 + 2 ^ 224)) 4 32)
  /\ exists b, nth_error (word (2 ^ 255 + 2 ^ 224)) (Z.to_nat (4 - 1)) = Some b
               /\ byteVal b <> 0.
Proof.
  apply (prettyBytes32_bytesN (word (2 ^ 255 + 2 ^ 224)) 4); reflexivity.
Defined.

(** ** The search as a whole *)

(** X7. The search that the driver starts returns for every buffer and
    every answer of the decoder: it neither raises an exception nor
    recurses without end, and [(w + 2) * (w + 3)] nested calls are
    enough for a buffer of [w] whole words. *)
Theorem search_returns
    (abiDecode : list ParamType -> bytes -> option (list Value))
    (data : bytes) :
  exists r,
    decodeWellFormedTuple abiDecode (searchFuel data) 0 data 0 []
      (len data) None = Ret r.
Proof. exact (decodeWellFormedTuple_returns abiDecode data). Qed.

(** X8. A call of [decodeWellFormedTuple] whose slot index is not
    negative, whose head ends inside the buffer and whose placeholders
    have lengths that are not negative raises no exception, whatever
    the decoder answers. *)
Theorem search_raises_nothing
    (abiDecode : list ParamType -> bytes -> option (list Value))
    (fuel : nat) (depth : Z) (data : bytes) (paramIdx : Z)
    (collectedParams : list DecodedParam) (endOfStaticCalldata : Z)
    (mode : option DynamicOnlyParams) :
  0 <= paramIdx ->
  endOfStaticCalldata <= len data ->
  lengthsNonneg collectedParams ->
  decodeWellFormedTuple abiDecode fuel depth data paramIdx collectedParams
    endOfStaticCalldata mode <> Throw.
Proof.
  intros Hi He HC.
  exact (decodeWellFormedTuple_noThrow abiDecode fuel depth data paramIdx
           collectedParams endOfStaticCalldata mode Hi He HC).
Qed.

Lemma search_raises_nothing_witness :
  decodeWellFormedTuple Ref.decode 6 0 crossedPointers 2 crossedPlaceholders
    64 None <> Throw.
Proof.
  apply (search_raises_nothing Ref.decode 6 0 crossedPointers 2
           crossedPlaceholders 64 None).
  - lia.
  - vm_compute. discriminate.
  - unfold lengthsNonneg, crossedPlaceholders.
    constructor; [lia|]. constructor; [lia|]. constructor.
Defined.

(** X9. Every fragment that [decodeWellFormedTuple] returns, from any
    call, is one whose parameter types the decoder accepts on the
    buffer of that call. *)
Theorem search_result_accepted
    (abiDecode : list ParamType -> bytes -> option (list Value))
    (fuel : nat) (depth : Z) (data : bytes) (paramIdx : Z)
    (collectedParams : list DecodedParam) (endOfStaticCalldata : Z)
    (mode : option DynamicOnlyParams) (f : FunctionFragment) :
  decodeWellFormedTuple abiDecode fuel depth data paramIdx collectedParams
    endOfStaticCalldata mode = Ret (Some f) ->
  exists vals, abiDecode (inputs f) data = Some vals.
Proof.
  intros H.
  pose proof (decodeWellFormedTuple_accepted abiDecode fuel depth data
                paramIdx collectedParams endOfStaticCalldata mode f H) as Hacc.
  unfold testFragment in Hacc.
  destruct (abiDecode (inputs f) data) as [vals|]; [|discriminate].
  exists vals. reflexivity.
Qed.

Lemma search_result_accepted_witness :
  exists vals,
    Ref.decode (inputs (mkFragment "guessed" [TArray TBytes])) stringArray
    = Some vals.
Proof.
  apply (search_result_accepted Ref.decode 20 0 stringArray 0 []
           (len stringArray) None (mkFragment "guessed" [TArray TBytes])).
  vm_compute. reflexivity.
Defined.

(** X10. [guessFragment] ends on every calldata, whatever the decoder
    and the UTF-8 check answer: its outcome is a fragment, none, or an
    exception. *)
Theorem guessFragment_ends
    (abiDecode : list ParamType -> bytes -> option (list Value))
    (isUtf8 : bytes -> bool) (calldata : bytes) :
  guessFragment abiDecode isUtf8 calldata <> OutOfFuel.
Proof. exact (guessFragment_terminates abiDecode isUtf8 calldata). Qed.

(** X11. An exception leaves [guessFragment] only from the prettifier:
    the call raises exactly when the calldata is not empty, the search
    on the arguments returns a fragment, and [prettyTypes] raises on the
    inputs of that fragment and the values that the decoder gives for
    them. *)
Theorem guessFragment_throws_only_in_prettyTypes
    (abiDecode : list ParamType -> bytes -> option (list Value))
    (isUtf8 : bytes -> bool) (calldata : bytes) :
  guessFragment abiDecode isUtf8 calldata = Throw
  <-> exists f vals,
        calldata <> []
        /\ decodeWellFormedTuple abiDecode (searchFuel (skipn 4 calldata)) 0
             (skipn 4 calldata) 0 [] (len (skipn 4 calldata)) None
           = Ret (Some f)
        /\ abiDecode (inputs f) (skipn 4 calldata) = Some vals
        /\ prettyTypes isUtf8 (inputs f) vals = Throw.
Proof. exact (guessFragment_throw_iff abiDecode isUtf8 calldata). Qed.

(** ** The kinds of the resolved tails *)

Section TailKinds.

Variable rec : decoder.

Lemma resolveDynamicParam_kind (depth : Z) (data : bytes)
    (dynamicParams : list DynamicPlaceholder) (dynamicParamIdx : nat)
    (ph : DynamicPlaceholder) (t : ParamType) :
  resolveDynamicParam rec depth data dynamicParams dynamicParamIdx ph
  = Ret (Some t) ->
  match ph_length ph with
  | Some _ => t = TBytes \/ exists c, t = TArray c
  | None => exists cs, t = TTuple cs
  end.
Proof.
  unfold resolveDynamicParam.
  set (dd := tailOf data dynamicParams dynamicParamIdx ph).
  set (trailing := isTrailing dynamicParams dynamicParamIdx).
  destruct (ph_length ph) as [k|].
  - destruct (isBytesLike k dd trailing).
    { intros H. injection H as <-. left. reflexivity. }
    unfold resolveArray. destruct (len dd >? 32 * k).
    + destruct (mapM _ _) as [offsets | |]; cbn [bind]; try discriminate.
      destruct (forallb isSome offsets).
      * unfold resolveDynamicElements.
        destruct (rec _ _ _ _ _ _) as [a | |]; cbn [bind]; try discriminate.
        destruct (rec _ _ _ _ _ _) as [b | |]; cbn [bind]; try discriminate.
        destruct (orNull a b) as [g|]; [|discriminate].
        destruct (negb _); [discriminate|].
        destruct (negb _); [discriminate|].
        destruct (inputs g) as [|e es]; [discriminate|].
        intros H. injection H as <-. right. eexists. reflexivity.
      * unfold resolveStaticElements.
        destruct (_ && _); [discriminate|]. cbv zeta.
        destruct (decodeElements _ _ _ _ _) as [[elems|] | |]; cbn [bind];
          try discriminate.
        destruct (setSize _ >? 1); [discriminate|].
        destruct elems as [|ins elems]; [discriminate|].
        intros H. injection H as <-. right. eexists. reflexivity.
    + unfold resolveAsTuple.
      destruct (rec _ _ _ _ _ _) as [[g|] | |]; cbn [bind]; try discriminate.
      cbv zeta. destruct (_ || _); [discriminate|].
      destruct (negb _); [discriminate|].
      destruct (map _ (keys k)) as [|chunk chunks]; [discriminate|].
      destruct chunk as [|c [|c' cs]]; try destruct c;
        intros H; injection H as <-;
        first [left; reflexivity | right; eexists; reflexivity].
  - unfold resolveAsTuple.
    destruct (rec _ _ _ _ _ _) as [[g|] | |]; cbn [bind]; try discriminate.
    intros H. injection H as <-. eexists. reflexivity.
Qed.

(** X12. A placeholder that resolves gives a type of a fixed kind: with
    a length, [bytes] or an array; without a length, a tuple. *)
Theorem resolveDynamicParam_kinds (depth : Z) (data : bytes)
    (dynamicParams : list DynamicPlaceholder) (dynamicParamIdx : nat)
    (ph : DynamicPlaceholder) (t : ParamType) :
  resolveDynamicParam rec depth data dynamicParams dynamicParamIdx ph
  = Ret (Some t) ->
  match ph_length ph with
  | Some _ => t = TBytes \/ exists c, t = TArray c
  | None => exists cs, t = TTuple cs
  end.
Proof.
  exact (resolveDynamicParam_kind depth data dynamicParams dynamicParamIdx
           ph t).
Qed.

End TailKinds.

Lemma resolveDynamicParam_kinds_witness :
  TArray TBytes = TBytes \/ exists c, TArray TBytes = TArray c.
Proof.
  apply (resolveDynamicParam_kinds (refSearch 20) 0 stringArray
           [mkPlaceholder 32 (Some 2)] 0%nat (mkPlaceholder 32 (Some 2))
           (TArray TBytes)).
  vm_compute. reflexivity.
Defined.

(** ** The types of the search *)

Section TailsRaw.

Variable rec : decoder.

Hypothesis rec_raw :
  forall depth data endOfStaticCalldata mode f,
    rec depth data 0 [] endOfStaticCalldata mode = Ret (Some f) ->
    forallb rawType (inputs f) = true.

Lemma raw_decodeElements (depth : Z) (dynamicData : bytes)
    (elemSizeWords : Z) (elemIdxs : list Z) (elems : list (list ParamType)) :
  decodeElements rec depth dynamicData elemSizeWords elemIdxs
  = Ret (Some elems) ->
  Forall (fun ins => forallb rawType ins = true) elems.
Proof.
  revert elems. induction elemIdxs as [|i l IH]; intros elems;
    cbn [decodeElements].
  - intros H. injection H as <-. constructor.
  - destruct (rec _ _ _ _ _ _) as [[g|] | |] eqn:Eg; cbn [bind];
      try discriminate.
    destruct (decodeElements _ _ _ _ _) as [[more|] | |]; cbn [bind];
      try discriminate.
    intros H. injection H as <-. constructor.
    + exact (rec_raw _ _ _ _ _ Eg).
    + apply IH. reflexivity.
Qed.

Lemma forallb_firstn_skipn {A : Type} (f : A -> bool) (l : list A) (n m : nat) :
  forallb f l = true -> forallb f (firstn n (skipn m l)) = true.
Proof.
  intros H.
  assert (Hs : forallb f (skipn m l) = true).
  { revert l H. induction m as [|m IH]; intros [|a l] H; cbn [skipn];
      try exact H; try reflexivity.
    cbn [forallb] in H. apply andb_true_iff in H. apply IH, H. }
  revert Hs. generalize (skipn m l). clear H. intros l'. revert l'.
  induction n as [|n IH]; intros [|a l'] H; cbn [firstn forallb];
    try reflexivity.
  cbn [forallb] in H. apply andb_true_iff in H. destruct H as [Ha H].
  rewrite Ha. cbn [andb]. apply IH, H.
Qed.

Lemma raw_resolveDynamicParam (depth : Z) (data : bytes)
    (dynamicParams : list DynamicPlaceholder) (dynamicParamIdx : nat)
    (ph : DynamicPlaceholder) (t : ParamType) :
  resolveDynamicParam rec depth data dynamicParams dynamicParamIdx ph
  = Ret (Some t) ->
  rawType t = true.
Proof.
  unfold resolveDynamicParam.
  set (dd := tailOf data dynamicParams dynamicParamIdx ph).
  set (trailing := isTrailing dynamicParams dynamicParamIdx).
  assert (Htuple : forall k, resolveAsTuple rec depth dd k = Ret (Some t) ->
                             rawType t = true).
  { intros k. unfold resolveAsTuple.
    destruct (rec _ _ _ _ _ _) as [[g|] | |] eqn:Eg; cbn [bind];
      try discriminate.
    pose proof (rec_raw _ _ _ _ _ Eg) as Hg. cbv zeta.
    destruct k as [k|].
    - destruct (_ || _); [discriminate|].
      destruct (negb _); [discriminate|].
      remember (Z.to_nat (Z.of_nat (List.length (inputs g)) / k)) as per.
      assert (Hchunks :
        Forall (fun c => forallb rawType c = true)
          (map (fun i => firstn per
                           (skipn (Z.to_nat
                                     (i * (Z.of_nat (List.length (inputs g)) / k)))
                              (inputs g))) (keys k))).
      { apply Forall_forall. intros c Hc. apply in_map_iff in Hc.
        destruct Hc as (i & <- & _). apply forallb_firstn_skipn. exact Hg. }
      destruct (map _ (keys k)) as [|chunk chunks]; [discriminate|].
      inversion Hchunks as [|? ? Hchunk _]; subst.
      destruct chunk as [|c [|c' cs]]; try destruct c;
        intros H; injection H as <-; cbn [rawType];
        try reflexivity; try exact Hchunk;
        cbn [forallb] in Hchunk; try discriminate Hchunk;
        rewrite ?andb_true_r in Hchunk; exact Hchunk.
    - intros H. injection H as <-. exact Hg. }
  destruct (ph_length ph) as [k|]; [|apply Htuple].
  destruct (isBytesLike k dd trailing).
  { intros H. injection H as <-. reflexivity. }
  unfold resolveArray. destruct (len dd >? 32 * k); [|apply Htuple].
  destruct (mapM _ _) as [offsets | |]; cbn [bind]; try discriminate.
  destruct (forallb isSome offsets).
  - unfold resolveDynamicElements.
    destruct (rec _ _ _ _ _ _) as [a | |] eqn:Ea; cbn [bind];
      try discriminate.
    destruct (rec _ _ _ _ _ (Some (mkDynamicOnly (depth + 1) false)))
      as [b | |] eqn:Eb; cbn [bind]; try discriminate.
    assert (Hg : forall g, orNull a b = Some g ->
                           forallb rawType (inputs g) = true).
    { intros g. destruct a as [fa|]; cbn [orNull]; intros H.
      - injection H as <-. exact (rec_raw _ _ _ _ _ Ea).
      - subst b. exact (rec_raw _ _ _ _ _ Eb). }
    destruct (orNull a b) as [g|]; [|discriminate].
    specialize (Hg g eq_refl).
    destruct (negb _); [discriminate|].
    destruct (negb _); [discriminate|].
    destruct (inputs g) as [|e es]; [discriminate|].
    intros H. injection H as <-. cbn [rawType].
    cbn [forallb] in Hg. apply andb_true_iff in Hg. apply Hg.
  - unfold resolveStaticElements.
    destruct (_ && _); [discriminate|]. cbv zeta.
    destruct (decodeElements _ _ _ _ _) as [[elems|] | |] eqn:Ee; cbn [bind];
      try discriminate.
    apply raw_decodeElements in Ee.
    destruct (setSize _ >? 1); [discriminate|].
    destruct elems as [|ins elems]; [discriminate|].
    intros H. injection H as <-. cbn [rawType].
    inversion Ee; assumption.
Qed.

Lemma raw_resolveParams (depth : Z) (data : bytes)
    (dynamicParams : list DynamicPlaceholder)
    (collectedParams : list DecodedParam) :
  rawParams collectedParams ->
  forall (dynamicParamIdx : nat) (finalParams : list (option ParamType)),
    resolveParams rec depth data dynamicParams dynamicParamIdx collectedParams
    = Ret finalParams ->
    forallb rawType (definedParams finalParams) = true.
Proof.
  intros HC. induction HC as [|v C Hv HC IH]; intros idx final;
    cbn [resolveParams].
  - intros H. injection H as <-. reflexivity.
  - destruct v as [p|ph].
    + destruct (resolveParams _ _ _ _ _ _) as [more | |] eqn:Em; cbn [bind];
        try discriminate.
      intros H. injection H as <-. unfold definedParams. cbn [flat_map app].
      cbn [forallb]. rewrite Hv. exact (IH _ _ Em).
    + destruct (resolveDynamicParam _ _ _ _ _ _) as [r | |] eqn:Er;
        cbn [bind]; try discriminate.
      destruct (resolveParams _ _ _ _ _ _) as [more | |] eqn:Em; cbn [bind];
        try discriminate.
      intros H. injection H as <-. unfold definedParams. cbn [flat_map].
      destruct r as [t|]; cbn [app forallb].
      * rewrite (raw_resolveDynamicParam _ _ _ _ _ _ Er). exact (IH _ _ Em).
      * exact (IH _ _ Em).
Qed.

End TailsRaw.

Lemma rawParams_app (l l' : list DecodedParam) :
  rawParams l -> rawParams l' -> rawParams (l ++ l').
Proof. unfold rawParams. intros. apply Forall_app. split; assumption. Qed.

Lemma decodeWellFormedTuple_raw
    (abiDecode : list ParamType -> bytes -> option (list Value))
    (fuel : nat) :
  forall (depth : Z) (data : bytes) (paramIdx : Z)
         (collectedParams : list DecodedParam) (endOfStaticCalldata : Z)
         (mode : option DynamicOnlyParams) (f : FunctionFragment),
    rawParams collectedParams ->
    decodeWellFormedTuple abiDecode fuel depth data paramIdx collectedParams
      endOfStaticCalldata mode = Ret (Some f) ->
    forallb rawType (inputs f) = true.
Proof.
  induction fuel as [|fuel IH]; intros depth data i C e mode f HC;
    [discriminate|].
  cbn [decodeWellFormedTuple]. unfold decodeBody.
  set (rec := decodeWellFormedTuple abiDecode fuel) in *.
  assert (Hnext : forall param newEnd g,
            rawParams [param] ->
            rec depth data (i + 1) (C ++ [param]) newEnd mode = Ret g ->
            testFragment abiDecode data g = true ->
            Ret g = Ret (Some f) -> forallb rawType (inputs f) = true).
  { intros param newEnd g Hp Hg _ H. injection H as ->.
    apply (IH _ _ _ _ _ _ _ (rawParams_app _ _ HC Hp) Hg). }
  assert (Hstatic : tryStatic abiDecode rec depth data i C e mode
                    = Ret (Some f) -> forallb rawType (inputs f) = true).
  { unfold tryStatic. destruct (negb _); [discriminate|].
    destruct (rec _ _ _ _ _ _) as [fragment | |] eqn:Eg; cbn [bind];
      try discriminate.
    destruct (testFragment abiDecode data fragment) eqn:E; [|discriminate].
    eapply Hnext; [|exact Eg|exact E]; repeat constructor. }
  assert (HnoLength : forall offset,
            tryNoLength abiDecode rec depth data i C e mode offset
            = Ret (Some f) -> forallb rawType (inputs f) = true).
  { intros offset. unfold tryNoLength.
    destruct (mayAssumeNoLength depth mode); [|exact Hstatic].
    destruct (rec _ _ _ _ _ _) as [fragment | |] eqn:Eg; cbn [bind];
      try discriminate.
    destruct (testFragment abiDecode data fragment) eqn:E; [|exact Hstatic].
    eapply Hnext; [|exact Eg|exact E]; repeat constructor. }
  destruct (i * 32 >=? e).
  - unfold resolveTails.
    destruct (resolveParams _ _ _ _ _ _) as [finalParams | |] eqn:Er;
      cbn [bind]; try discriminate.
    destruct (negb _); [discriminate|]. cbv zeta. intros H.
    match type of H with
    | (if ?c then _ else _) = _ => destruct c; [|discriminate H]
    end.
    injection H as <-. cbn [inputs].
    apply (raw_resolveParams rec) in Er; [exact Er | | exact HC].
    intros depth' data' e' mode' g Hg.
    apply (IH _ _ _ _ _ _ _ ltac:(constructor) Hg).
  - unfold classifySlot.
    destruct (tryParseOffset data (i * 32)) as [[offset|] | |]; cbn [bind];
      try discriminate; [|exact Hstatic].
    destruct (tryParseLength data offset) as [[length|] | |]; cbn [bind];
      try discriminate; [|apply HnoLength].
    destruct (mayAssumeLength depth mode); [|apply HnoLength].
    destruct (rec _ _ _ _ _ _) as [fragment | |] eqn:Eg; cbn [bind];
      try discriminate.
    destruct (testFragment abiDecode data fragment) eqn:E; [|apply HnoLength].
    eapply Hnext; [|exact Eg|exact E]; repeat constructor.
Qed.

(** X13. The search builds its parameter types from [bytes32], [bytes],
    tuples and arrays alone: a fragment that it returns, from a call
    whose resolved parameters are such types, holds no [uint256],
    [address], [string] or [bytesN] at any level; these names come from
    the prettifier only. *)
Theorem search_types_raw
    (abiDecode : list ParamType -> bytes -> option (list Value))
    (fuel : nat) (depth : Z) (data : bytes) (paramIdx : Z)
    (collectedParams : list DecodedParam) (endOfStaticCalldata : Z)
    (mode : option DynamicOnlyParams) (f : FunctionFragment) :
  rawParams collectedParams ->
  decodeWellFormedTuple abiDecode fuel depth data paramIdx collectedParams
    endOfStaticCalldata mode = Ret (Some f) ->
  forallb rawType (inputs f) = true.
Proof.
  intros HC H.
  exact (decodeWellFormedTuple_raw abiDecode fuel depth data paramIdx
           collectedParams endOfStaticCalldata mode f HC H).
Qed.

Lemma search_types_raw_witness :
  forallb rawType
    (inputs (mkFragment "guessed"
               [TArray (TTuple [TBytes; TArray TBytes32])])) = true.
Proof.
  apply (search_types_raw Ref.decode
           (searchFuel scenarioArrayOfTuples) 0 scenarioArrayOfTuples 0 []
           (len scenarioArrayOfTuples) None).
  - constructor.
  - vm_compute. reflexivity.
Defined.

(** ** The number of parameters *)

Lemma resolveParams_length (rec : decoder) (depth : Z) (data : bytes)
    (dynamicParams : list DynamicPlaceholder)
    (collectedParams : list DecodedParam) :
  forall (dynamicParamIdx : nat) (finalParams : list (option ParamType)),
    resolveParams rec depth data dynamicParams dynamicParamIdx collectedParams
    = Ret finalParams ->
    List.length finalParams = List.length collectedParams.
Proof.
  induction collectedParams as [|v C IH]; intros idx final;
    cbn [resolveParams].
  - intros H. injection H as <-. reflexivity.
  - destruct v as [p|ph].
    + destruct (resolveParams _ _ _ _ _ _) as [more | |] eqn:Em; cbn [bind];
        try discriminate.
      intros H. injection H as <-. cbn [List.length]. f_equal.
      exact (IH _ _ Em).
    + destruct (resolveDynamicParam _ _ _ _ _ _) as [r | |]; cbn [bind];
        try discriminate.
      destruct (resolveParams _ _ _ _ _ _) as [more | |] eqn:Em; cbn [bind];
        try discriminate.
      intros H. injection H as <-. cbn [List.length]. f_equal.
      exact (IH _ _ Em).
Qed.

(** ** The mode constraint over a head *)

Lemma definedParams_length (finalParams : list (option ParamType)) :
  (List.length (definedParams finalParams) <= List.length finalParams)%nat.
Proof.
  unfold definedParams.
  induction finalParams as [|[p|] l IH]; cbn [flat_map app List.length]; lia.
Qed.

Lemma definedParams_all (finalParams : list (option ParamType)) :
  List.length (definedParams finalParams) = List.length finalParams ->
  finalParams = map Some (definedParams finalParams).
Proof.
  induction finalParams as [|[p|] l IH]; intros H; [reflexivity | |].
  - change (definedParams (Some p :: l)) with (p :: definedParams l) in *.
    cbn [List.length map] in *. f_equal. apply IH. lia.
  - change (definedParams (None :: l)) with (definedParams l) in H.
    pose proof (definedParams_length l). cbn [List.length] in H. lia.
Qed.

(** A fragment that tail resolution returns has one input for every
    parameter of the accumulator. *)
Lemma resolveTails_inputs
    (abiDecode : list ParamType -> bytes -> option (list Value))
    (rec : decoder) (depth : Z) (data : bytes)
    (collectedParams : list DecodedParam) (f : FunctionFragment) :
  resolveTails abiDecode rec depth data collectedParams = Ret (Some f) ->
  resolveParams rec depth data (dynamicParamsOf collectedParams) 0
    collectedParams
  = Ret (map Some (inputs f)).
Proof.
  unfold resolveTails.
  destruct (resolveParams rec depth data _ 0 collectedParams)
    as [finalParams | |]; cbn [bind]; try discriminate.
  cbv zeta.
  destruct (Nat.eqb _ _) eqn:E; cbn [negb]; [|discriminate].
  apply Nat.eqb_eq in E.
  destruct (testFragment _ _ _); [|discriminate].
  intros H. injection H as <-. cbn [inputs].
  rewrite <- definedParams_all; [reflexivity | symmetry; exact E].
Qed.

Lemma resolveParams_nth (rec : decoder) (depth : Z) (data : bytes)
    (dynamicParams : list DynamicPlaceholder)
    (collectedParams : list DecodedParam) :
  forall (dynamicParamIdx : nat) (finalParams : list (option ParamType)),
    resolveParams rec depth data dynamicParams dynamicParamIdx collectedParams
    = Ret finalParams ->
    forall (j : nat) (ph : DynamicPlaceholder),
      nth_error collectedParams j = Some (Dynamic ph) ->
      exists k r,
        resolveDynamicParam rec depth data dynamicParams k ph = Ret r
        /\ nth_error finalParams j = Some r.
Proof.
  induction collectedParams as [|[p|ph0] C IH]; intros k fin H j ph Hj.
  - destruct j; discriminate Hj.
  - cbn [resolveParams] in H.
    destruct (resolveParams rec depth data dynamicParams k C)
      as [more | |] eqn:E; cbn [bind] in H; try discriminate H.
    injection H as <-. destruct j as [|j]; [discriminate Hj|].
    cbn in Hj. destruct (IH k more E j ph Hj) as (k' & r & Hr & Hn).
    exists k', r. split; [exact Hr | exact Hn].
  - cbn [resolveParams] in H.
    destruct (resolveDynamicParam rec depth data dynamicParams k ph0)
      as [r0 | |] eqn:Er; cbn [bind] in H; try discriminate H.
    destruct (resolveParams rec depth data dynamicParams (S k) C)
      as [more | |] eqn:E; cbn [bind] in H; try discriminate H.
    injection H as <-. destruct j as [|j].
    + cbn in Hj. injection Hj as <-. exists k, r0.
      split; [exact Er | reflexivity].
    + cbn in Hj. destruct (IH (S k) more E j ph Hj) as (k' & r & Hr & Hn).
      exists k', r. split; [exact Hr | exact Hn].
Qed.

(** A search under a mode of its own depth that returns a fragment has
    walked a head of pointer slots: the fragment comes from the tails
    of an accumulator that the slots from the current one on have
    extended by placeholders of the kind that the mode names. *)
Lemma decodeWellFormedTuple_mode
    (abiDecode : list ParamType -> bytes -> option (list Value))
    (data : bytes) (mode : DynamicOnlyParams) (fuel : nat) :
  forall (paramIdx : Z) (collectedParams : list DecodedParam)
         (endOfStaticCalldata : Z) (f : FunctionFragment),
    Z.of_nat (List.length collectedParams) = paramIdx ->
    decodeWellFormedTuple abiDecode fuel (dop_depth mode) data paramIdx
      collectedParams endOfStaticCalldata (Some mode) = Ret (Some f) ->
    exists (rest : list DecodedParam) (fuel' : nat),
      resolveTails abiDecode (decodeWellFormedTuple abiDecode fuel')
        (dop_depth mode) data (collectedParams ++ rest) = Ret (Some f)
      /\ forall (k : nat) (p : DecodedParam),
           nth_error rest k = Some p ->
           pointerSlot data (assumeLength mode)
             (List.length collectedParams + k) p.
Proof.
  induction fuel as [|fuel IH]; intros i C e f <- H; [discriminate H|].
  cbn [decodeWellFormedTuple] in H. unfold decodeBody in H. cbv zeta in H.
  destruct (Z.of_nat (List.length C) * 32 >=? e).
  { exists [], fuel. rewrite app_nil_r. split; [exact H|].
    intros [|k] p Hk; discriminate Hk. }
  rewrite classifySlot_pointerOnly in H. unfold pointerOnly in H.
  destruct (tryParseOffset data (Z.of_nat (List.length C) * 32))
    as [[offset|] | |] eqn:Eo; cbn [bind] in H; try discriminate H.
  destruct (tryParseLength data offset) as [maybeLength | |] eqn:El;
    cbn [bind] in H; try discriminate H.
  cbv zeta in H.
  assert (Hstep :
            forall length,
              (fragment <-
                 decodeWellFormedTuple abiDecode fuel (dop_depth mode) data
                   (Z.of_nat (List.length C) + 1)
                   (C ++ [Dynamic (mkPlaceholder offset length)])
                   (Z.min e offset) (Some mode) ;;
               if testFragment abiDecode data fragment then Ret fragment
               else Ret None) = Ret (Some f) ->
              pointerSlot data (assumeLength mode) (List.length C)
                (Dynamic (mkPlaceholder offset length)) ->
              exists (rest : list DecodedParam) (fuel' : nat),
                resolveTails abiDecode (decodeWellFormedTuple abiDecode fuel')
                  (dop_depth mode) data (C ++ rest) = Ret (Some f)
                /\ forall (k : nat) (p : DecodedParam),
                     nth_error rest k = Some p ->
                     pointerSlot data (assumeLength mode)
                       (List.length C + k) p).
  { intros length Hcall Hslot.
    match type of Hcall with
    | bind ?r _ = _ => destruct r as [fragment | |] eqn:Er
    end; cbn [bind] in Hcall; try discriminate Hcall.
    destruct (testFragment abiDecode data fragment); [|discriminate Hcall].
    injection Hcall as ->.
    apply IH in Er; [|rewrite length_app; cbn [List.length]; lia].
    destruct Er as (rest & fuel' & Hres & Hrest).
    exists (Dynamic (mkPlaceholder offset length) :: rest), fuel'.
    rewrite <- app_assoc in Hres. split; [exact Hres|].
    intros [|k] p Hk.
    - cbn in Hk. injection Hk as <-. rewrite Nat.add_0_r. exact Hslot.
    - cbn in Hk. specialize (Hrest k p Hk).
      rewrite length_app in Hrest. cbn [List.length] in Hrest.
      replace (List.length C + S k)%nat
        with (List.length C + 1 + k)%nat by lia.
      exact Hrest. }
  destruct (assumeLength mode).
  - destruct maybeLength as [length|]; [|discriminate H].
    apply (Hstep (Some length) H). exists offset.
    split; [exact Eo|]. exists length. split; [exact El | reflexivity].
  - apply (Hstep None H). exists offset. split; [exact Eo | reflexivity].
Qed.

(** C5 (as the program has it). Under the mode [{depth d, assume_length
    b}] the restriction holds at every slot of a head decoded at depth
    [d], not at the first one alone.  At whatever slot a call of
    [decodeWellFormedTuple] at depth [d] stands, it has the one role of
    the pointer that the mode names to try, never the static one, and
    it passes the mode unchanged to the next slot.  So a search at
    depth [d] under the mode that returns a fragment has taken every
    slot from its current one on for such a pointer: the word of each
    of these slots is a valid offset; when [b] holds a valid length
    stands behind the offset and the parameter of the slot is [bytes] or
    an array, the types of a placeholder with a length; when [b] does
    not hold the parameter is a tuple, the type of a placeholder
    without a length. *)
Theorem mode_constraint_scope
    (abiDecode : list ParamType -> bytes -> option (list Value))
    (data : bytes) (mode : DynamicOnlyParams) :
  (forall (fuel : nat) (paramIdx : Z) (collectedParams : list DecodedParam)
          (endOfStaticCalldata : Z),
      decodeWellFormedTuple abiDecode (S fuel) (dop_depth mode) data paramIdx
        collectedParams endOfStaticCalldata (Some mode)
      = if paramIdx * 32 >=? endOfStaticCalldata
        then resolveTails abiDecode (decodeWellFormedTuple abiDecode fuel)
               (dop_depth mode) data collectedParams
        else pointerOnly abiDecode (decodeWellFormedTuple abiDecode fuel)
               (dop_depth mode) data paramIdx collectedParams
               endOfStaticCalldata mode)
  /\ (forall (fuel : nat) (paramIdx : Z)
             (collectedParams : list DecodedParam)
             (endOfStaticCalldata : Z) (f : FunctionFragment),
        Z.of_nat (List.length collectedParams) = paramIdx ->
        decodeWellFormedTuple abiDecode fuel (dop_depth mode) data paramIdx
          collectedParams endOfStaticCalldata (Some mode) = Ret (Some f) ->
        forall j : nat,
          (List.length collectedParams <= j < List.length (inputs f))%nat ->
          exists offset,
            tryParseOffset data (Z.of_nat j * 32) = Ret (Some offset)
            /\ if assumeLength mode
               then (exists length,
                        tryParseLength data offset = Ret (Some length))
                    /\ (nth j (inputs f) TBytes32 = TBytes
                        \/ exists c, nth j (inputs f) TBytes32 = TArray c)
               else exists cs, nth j (inputs f) TBytes32 = TTuple cs).
Proof.
  split.
  { intros fuel paramIdx collectedParams endOfStaticCalldata.
    cbn [decodeWellFormedTuple]. unfold decodeBody. cbv zeta.
    destruct (paramIdx * 32 >=? endOfStaticCalldata); [reflexivity|].
    apply classifySlot_pointerOnly. }
  intros fuel paramIdx collectedParams endOfStaticCalldata f Hlen H j Hj.
  destruct (decodeWellFormedTuple_mode abiDecode data mode fuel paramIdx
              collectedParams endOfStaticCalldata f Hlen H)
    as (rest & fuel' & Hres & Hrest).
  apply resolveTails_inputs in Hres.
  pose proof (resolveParams_length _ _ _ _ _ _ _ Hres) as Hl.
  rewrite length_map, length_app in Hl.
  destruct (nth_error rest (j - List.length collectedParams)) as [p|] eqn:En;
    [|apply nth_error_None in En; lia].
  destruct (Hrest _ _ En) as (offset & Hoff & Hrole).
  replace (List.length collectedParams + (j - List.length collectedParams))%nat
    with j in Hoff by lia.
  exists offset. split; [exact Hoff|].
  assert (HnthC : nth_error (collectedParams ++ rest) j = Some p)
    by (rewrite nth_error_app2 by lia; exact En).
  assert (Hkind : forall ph, p = Dynamic ph ->
            match ph_length ph with
            | Some _ => nth j (inputs f) TBytes32 = TBytes
                        \/ exists c, nth j (inputs f) TBytes32 = TArray c
            | None => exists cs, nth j (inputs f) TBytes32 = TTuple cs
            end).
  { intros ph E. rewrite E in HnthC.
    destruct (resolveParams_nth _ _ _ _ _ _ _ Hres j ph HnthC)
      as (k & r & Hr & Hn).
    rewrite nth_error_map in Hn.
    destruct (nth_error (inputs f) j) as [t|] eqn:Et; [|discriminate Hn].
    cbn in Hn. injection Hn as <-.
    rewrite (nth_error_nth _ _ _ Et).
    exact (resolveDynamicParam_kind _ _ _ _ _ _ _ Hr). }
  destruct (assumeLength mode).
  - destruct Hrole as (length & Hlength & E).
    split; [exists length; exact Hlength|]. exact (Hkind _ E).
  - exact (Hkind _ Hrole).
Qed.

Lemma mode_constraint_scope_witness :
  exists offset,
    tryParseOffset twoStrings (Z.of_nat 1 * 32) = Ret (Some offset)
    /\ ((exists length, tryParseLength twoStrings offset = Ret (Some length))
        /\ (nth 1 [TBytes; TBytes] TBytes32 = TBytes
            \/ exists c, nth 1 [TBytes; TBytes] TBytes32 = TArray c)).
Proof.
  apply (proj2 (mode_constraint_scope Ref.decode twoStrings
                  (mkDynamicOnly 1 true))
           10%nat 0 [] (len twoStrings)
           (mkFragment "guessed" [TBytes; TBytes]) eq_refl).
  - vm_compute. reflexivity.
  - cbn. lia.
Defined.

(** The slots of a head: a fragment has one input for each slot that
    the search has walked, and the last slot starts inside the buffer. *)
Lemma decodeWellFormedTuple_slots
    (abiDecode : list ParamType -> bytes -> option (list Value))
    (fuel : nat) :
  forall (depth : Z) (data : bytes) (paramIdx : Z)
         (collectedParams : list DecodedParam) (endOfStaticCalldata : Z)
         (mode : option DynamicOnlyParams) (f : FunctionFragment),
    Z.of_nat (List.length collectedParams) = paramIdx ->
    endOfStaticCalldata <= len data ->
    (0 < len data -> 0 < endOfStaticCalldata) ->
    (paramIdx = 0 \/ 32 * (paramIdx - 1) < len data) ->
    decodeWellFormedTuple abiDecode fuel depth data paramIdx collectedParams
      endOfStaticCalldata mode = Ret (Some f) ->
    let n := Z.of_nat (List.length (inputs f)) in
    (n = 0 \/ 32 * (n - 1) < len data) /\ (0 < len data -> 1 <= n).
Proof.
  induction fuel as [|fuel IH]; intros depth data i C e mode f Hi He Hpos Hlast;
    [discriminate|].
  cbn [decodeWellFormedTuple]. unfold decodeBody.
  set (rec := decodeWellFormedTuple abiDecode fuel) in *.
  destruct (i * 32 >=? e) eqn:Eend.
  - rewrite Z.geb_leb in Eend. apply Z.leb_le in Eend.
    unfold resolveTails.
    destruct (resolveParams _ _ _ _ _ _) as [finalParams | |] eqn:Er;
      cbn [bind]; try discriminate.
    apply resolveParams_length in Er.
    destruct (Nat.eqb _ _) eqn:El; cbn [negb]; [|discriminate].
    apply Nat.eqb_eq in El. cbv zeta. intros H.
    match type of H with
    | (if ?c then _ else _) = _ => destruct c; [|discriminate H]
    end.
    injection H as <-. cbn [inputs]. rewrite <- El, Er, Hi.
    split; [exact Hlast | intros Hd; specialize (Hpos Hd); lia].
  - rewrite Z.geb_leb in Eend. apply Z.leb_gt in Eend.
    assert (Hnext : forall param newEnd g,
              newEnd <= len data -> 0 < newEnd ->
              rec depth data (i + 1) (C ++ [param]) newEnd mode = Ret g ->
              Ret g = Ret (Some f) ->
              let n := Z.of_nat (List.length (inputs f)) in
              (n = 0 \/ 32 * (n - 1) < len data) /\ (0 < len data -> 1 <= n)).
    { intros param newEnd g Hle Hgt Hg H. injection H as ->.
      apply (IH depth data (i + 1) (C ++ [param]) newEnd mode f);
        [rewrite length_app; cbn [List.length]; lia | exact Hle
        | intros _; exact Hgt | right; lia | exact Hg]. }
    assert (Hi0 : 0 <= i) by lia.
    assert (Hstatic : tryStatic abiDecode rec depth data i C e mode
                      = Ret (Some f) ->
                      let n := Z.of_nat (List.length (inputs f)) in
                      (n = 0 \/ 32 * (n - 1) < len data)
                      /\ (0 < len data -> 1 <= n)).
    { unfold tryStatic. destruct (negb _); [discriminate|].
      destruct (rec _ _ _ _ _ _) as [fragment | |] eqn:Eg; cbn [bind];
        try discriminate.
      destruct (testFragment abiDecode data fragment); [|discriminate].
      eapply Hnext; [| |exact Eg]; lia. }
    assert (HnoLength : forall offset,
              i * 32 < offset < len data ->
              tryNoLength abiDecode rec depth data i C e mode offset
              = Ret (Some f) ->
              let n := Z.of_nat (List.length (inputs f)) in
              (n = 0 \/ 32 * (n - 1) < len data)
              /\ (0 < len data -> 1 <= n)).
    { intros offset Ho. unfold tryNoLength.
      destruct (mayAssumeNoLength depth mode); [|exact Hstatic].
      destruct (rec _ _ _ _ _ _) as [fragment | |] eqn:Eg; cbn [bind];
        try discriminate.
      destruct (testFragment abiDecode data fragment); [|exact Hstatic].
      eapply Hnext; [| |exact Eg]; lia. }
    unfold classifySlot.
    destruct (tryParseOffset data (i * 32)) as [[offset|] | |] eqn:Eo;
      cbn [bind]; try discriminate; [|exact Hstatic].
    apply tryParseOffset_Some in Eo. destruct Eo as [Ho _].
    destruct (tryParseLength data offset) as [[length|] | |]; cbn [bind];
      try discriminate; [|apply HnoLength; exact Ho].
    destruct (mayAssumeLength depth mode); [|apply HnoLength; exact Ho].
    destruct (rec _ _ _ _ _ _) as [fragment | |] eqn:Eg; cbn [bind];
      try discriminate.
    destruct (testFragment abiDecode data fragment);
      [|apply HnoLength; exact Ho].
    eapply Hnext; [| |exact Eg]; lia.
Qed.

(** X14. The number of parameters of a fragment that a search from the
    first slot returns is bounded by the buffer: none when the buffer is
    empty; otherwise at least one and at most one for each word of the
    buffer, the last word counted when it is partial. *)
Theorem search_arity
    (abiDecode : list ParamType -> bytes -> option (list Value))
    (fuel : nat) (depth : Z) (data : bytes)
    (mode : option DynamicOnlyParams) (f : FunctionFragment) :
  decodeWellFormedTuple abiDecode fuel depth data 0 [] (len data) mode
  = Ret (Some f) ->
  let n := Z.of_nat (List.length (inputs f)) in
  (len data = 0 -> n = 0)
  /\ (0 < len data -> 1 <= n /\ 32 * (n - 1) < len data).
Proof.
  intros H n.
  pose proof (decodeWellFormedTuple_slots abiDecode fuel depth data 0 []
                (len data) mode f eq_refl ltac:(lia) ltac:(lia)
                ltac:(left; reflexivity) H) as [Hlast Hfirst].
  fold n in Hlast, Hfirst. split.
  - intros Hd. destruct Hlast as [Hn|Hn]; [exact Hn|]. lia.
  - intros Hd. specialize (Hfirst Hd). split; [exact Hfirst | lia].
Qed.

Lemma search_arity_witness :
  let n := Z.of_nat (List.length
                       (inputs (mkFragment "guessed"
                                  [TBytes32; TBytes32; TBytes32]))) in
  (len scenarioTuple = 0 -> n = 0)
  /\ (0 < len scenarioTuple -> 1 <= n /\ 32 * (n - 1) < len scenarioTuple).
Proof.
  apply (search_arity Ref.decode (searchFuel scenarioTuple) 0 scenarioTuple
           None).
  vm_compute. reflexivity.
Defined.

(** ** What the prettifier changes *)

Lemma prettyBytes32_names (w : bytes) :
  refinementOf TBytes32 (prettyBytes32 w).
Proof.
  cbn [refinementOf]. unfold prettyBytes32.
  destruct (_ && _); [left; reflexivity|].
  destruct (_ >? 16); [right; left; reflexivity|].
  destruct (_ >? 0); [|right; right; left; reflexivity].
  right; right; right. eexists. reflexivity.
Qed.

(** The components of a tuple are refined by the loop of [prettyTypes]. *)
Lemma prettyType_tuple (isUtf8 : bytes -> bool) (c : ParamType)
    (cs : list ParamType) (vs : list Value) :
  prettyType isUtf8 (TTuple (c :: cs)) (Some (VList vs))
  = (pretty <- prettyTypesFrom isUtf8 O (c :: cs) vs ;; Ret (TTuple pretty)).
Proof.
  generalize (c :: cs) (@nil_cons _ c cs). intros params Hne.
  cbn [prettyType].
  match goal with
  | |- context [bind (?go params O)] =>
      assert (Hgo : forall ps idx,
                go ps idx = prettyTypesFrom isUtf8 idx ps vs)
  end.
  { induction ps as [|p ps IHp]; intros idx; [reflexivity|].
    cbn [prettyTypesFrom]. rewrite <- IHp. reflexivity. }
  rewrite Hgo. destruct params; [congruence | reflexivity].
Qed.

Lemma prettyTypesFrom_each (isUtf8 : bytes -> bool) (vals : list Value)
    (params : list ParamType) :
  Forall (fun p => forall val t,
            prettyType isUtf8 p val = Ret t -> refinementOf p t) params ->
  forall idx ts,
    prettyTypesFrom isUtf8 idx params vals = Ret ts ->
    Forall2 refinementOf params ts.
Proof.
  intros Hps. induction Hps as [|p ps Hp _ IH]; intros idx ts;
    cbn [prettyTypesFrom].
  - intros H. injection H as <-. constructor.
  - destruct (prettyType isUtf8 p (nth_error vals idx)) as [t | |] eqn:Et;
      cbn [bind]; try discriminate.
    destruct (prettyTypesFrom isUtf8 (S idx) ps vals) as [more | |] eqn:Em;
      cbn [bind]; try discriminate.
    intros H. injection H as <-. constructor.
    + exact (Hp _ _ Et).
    + exact (IH _ _ Em).
Qed.

Lemma refinementOf_tuple (cs ts : list ParamType) :
  Forall2 refinementOf cs ts -> refinementOf (TTuple cs) (TTuple ts).
Proof.
  intros H. cbn [refinementOf].
  induction H as [|c t cs ts Hc _ IH]; [exact I | split; assumption].
Qed.

Lemma prettyType_refines (isUtf8 : bytes -> bool) (param : ParamType) :
  forall val t,
    prettyType isUtf8 param val = Ret t -> refinementOf param t.
Proof.
  induction param as [| | | | | k | cs IH | c IH] using ParamType_nested_ind;
    intros val t.
  1, 4, 5, 6: cbn [prettyType]; intros H; injection H as <-; reflexivity.
  - cbn [prettyType]. destruct val as [[w|b|vs]|]; try discriminate.
    intros H. injection H as <-. apply prettyBytes32_names.
  - cbn [prettyType]. destruct val as [[w|b|vs]|];
      try (intros H; injection H as <-; right; reflexivity).
    destruct (isUtf8 b); intros H; injection H as <-;
      [left | right]; reflexivity.
  - destruct cs as [|c0 cs0].
    { cbn [prettyType]. intros H. injection H as <-. exact I. }
    destruct val as [[w|b|vs]|]; try (cbn [prettyType]; discriminate).
    rewrite prettyType_tuple.
    destruct (prettyTypesFrom isUtf8 0 (c0 :: cs0) vs) as [pretty | |] eqn:Ep;
      cbn [bind]; try discriminate.
    intros H. injection H as <-. apply refinementOf_tuple.
    exact (prettyTypesFrom_each isUtf8 vs _ IH _ _ Ep).
  - cbn [prettyType]. destruct val as [[w|b|vs]|]; try discriminate.
    destruct (mapM _ vs) as [childrenTypes | |]; cbn [bind];
      try discriminate.
    destruct (mergeTypes childrenTypes) as [merged | |]; cbn [bind];
      try discriminate.
    intros H. injection H as <-. reflexivity.
Qed.

Lemma prettyTypesFrom_refines (isUtf8 : bytes -> bool) (vals : list Value)
    (params : list ParamType) :
  forall idx ts,
    prettyTypesFrom isUtf8 idx params vals = Ret ts ->
    Forall2 refinementOf params ts.
Proof.
  apply prettyTypesFrom_each. apply Forall_forall. intros p _.
  apply prettyType_refines.
Qed.

(** X15. The prettifier keeps the shape of the types of the search: the
    list it returns has one type for each parameter, in order; a
    [bytes32] has become [address], [uint256], [bytes32] or a [bytesN],
    a [bytes] has become [string] or stayed, a tuple has kept the number
    and the order of its components, each refined by the same rule, and
    an array has stayed an array. *)
Theorem prettyTypes_refines (isUtf8 : bytes -> bool)
    (params : list ParamType) (vals : list Value) (ts : list ParamType) :
  prettyTypes isUtf8 params vals = Ret ts ->
  Forall2 refinementOf params ts.
Proof.
  intros H. exact (prettyTypesFrom_refines isUtf8 vals params O ts H).
Qed.

Lemma prettyTypes_refines_witness :
  Forall2 refinementOf
    [TBytes32; TBytes32; TBytes32] [TUint256; TUint256; TBytesN 4].
Proof.
  apply (prettyTypes_refines Ref.validUtf8 [TBytes32; TBytes32; TBytes32]
           (map VWord [word 10; word 20; word (0x69696969 * 2 ^ 224)])).
  vm_compute. reflexivity.
Defined.

(** X16. What [guessFragment] returns is the fragment of the search,
    renamed and refined: its name is [guessed_] followed by the two hex
    digits of each of the first four bytes of the calldata, and its
    inputs refine, one by one, the inputs of a fragment that the search
    has returned on the bytes after the fourth, that are built from
    [bytes32], [bytes], tuples and arrays alone, and that the decoder
    accepts on those bytes. *)
Theorem guessFragment_result
    (abiDecode : list ParamType -> bytes -> option (list Value))
    (isUtf8 : bytes -> bool) (calldata : bytes) (f : FunctionFragment) :
  guessFragment abiDecode isUtf8 calldata = Ret (Some f) ->
  name f = ("guessed_" ++ hexOf (slice calldata 0 4))%string
  /\ exists raw vals,
       decodeWellFormedTuple abiDecode (searchFuel (skipn 4 calldata)) 0
         (skipn 4 calldata) 0 [] (len (skipn 4 calldata)) None
       = Ret (Some raw)
       /\ forallb rawType (inputs raw) = true
       /\ abiDecode (inputs raw) (skipn 4 calldata) = Some vals
       /\ Forall2 refinementOf (inputs raw) (inputs f).
Proof.
  unfold guessFragment, wellFormedParse.
  destruct (len calldata =? 0); [discriminate|].
  destruct (decodeWellFormedTuple _ _ _ _ _ _ _ _) as [[raw|] | |] eqn:Er;
    cbn [bind]; try discriminate.
  destruct (abiDecode (inputs raw) (skipn 4 calldata)) as [vals|] eqn:Ed;
    [|discriminate].
  destruct (prettyTypes isUtf8 (inputs raw) vals) as [pretty | |] eqn:Ep;
    cbn [bind]; try discriminate.
  intros H. injection H as <-. cbn [name inputs].
  split; [reflexivity|]. exists raw, vals.
  split; [reflexivity|]. split.
  - apply (decodeWellFormedTuple_raw abiDecode _ _ _ _ _ _ _ raw
             ltac:(constructor) Er).
  - split; [exact Ed|].
    exact (prettyTypesFrom_refines isUtf8 vals (inputs raw) O pretty Ep).
Qed.

Lemma guessFragment_result_witness :
  name (mkFragment "guessed_a9059cbb" [TUint256; TUint256; TBytesN 4])
  = ("guessed_" ++ hexOf (slice (calldataOf [10; 20; 0x69696969 * 2 ^ 224]) 0 4))%string
  /\ exists raw vals,
       decodeWellFormedTuple Ref.decode
         (searchFuel (skipn 4 (calldataOf [10; 20; 0x69696969 * 2 ^ 224]))) 0
         (skipn 4 (calldataOf [10; 20; 0x69696969 * 2 ^ 224])) 0 []
         (len (skipn 4 (calldataOf [10; 20; 0x69696969 * 2 ^ 224]))) None
       = Ret (Some raw)
       /\ forallb rawType (inputs raw) = true
       /\ Ref.decode (inputs raw) (skipn 4 (calldataOf [10; 20; 0x69696969 * 2 ^ 224]))
          = Some vals
       /\ Forall2 refinementOf (inputs raw)
            (inputs (mkFragment "guessed_a9059cbb"
                       [TUint256; TUint256; TBytesN 4])).
Proof.
  apply (guessFragment_result Ref.decode Ref.validUtf8
           (calldataOf [10; 20; 0x69696969 * 2 ^ 224])).
  vm_compute. reflexivity.
Defined.

(** ** Buffers without pointers *)

Lemma resolveParams_resolved (rec : decoder) (depth : Z) (data : bytes)
    (dynamicParams : list DynamicPlaceholder) (ps : list ParamType) :
  forall dynamicParamIdx,
    resolveParams rec depth data dynamicParams dynamicParamIdx
      (map Resolved ps) = Ret (map Some ps).
Proof.
  induction ps as [|p ps IH]; intros idx; cbn [map resolveParams];
    [reflexivity|].
  rewrite IH. reflexivity.
Qed.

Lemma definedParams_Some (ps : list ParamType) :
  definedParams (map Some ps) = ps.
Proof.
  unfold definedParams. induction ps as [|p ps IH]; cbn [map flat_map app];
    [reflexivity|].
  f_equal. exact IH.
Qed.

(** The fragment of [n] static words, when the decoder accepts it. *)
Lemma decodeWellFormedTuple_words
    (abiDecode : list ParamType -> bytes -> option (list Value))
    (data : bytes) :
  (forall i, 0 <= i -> i * 32 < len data ->
             tryParseOffset data (i * 32) = Ret None) ->
  forall (k fuel : nat) (depth i : Z),
    0 <= i ->
    i + Z.of_nat k = (len data + 31) / 32 ->
    (k < fuel)%nat ->
    decodeWellFormedTuple abiDecode fuel depth data i
      (map Resolved (repeat TBytes32 (Z.to_nat i))) (len data) None
    = Ret (let fragment :=
             Some (mkFragment "guessed"
                     (repeat TBytes32 (Z.to_nat ((len data + 31) / 32)))) in
           if testFragment abiDecode data fragment then fragment else None).
Proof.
  intros Hnone.
  pose proof (len_nonneg data) as Hl.
  pose proof (Z.div_mod (len data + 31) 32 ltac:(lia)) as Hd.
  pose proof (Z.mod_pos_bound (len data + 31) 32 ltac:(lia)) as Hm.
  induction k as [|k IH]; intros fuel depth i Hi Hn Hfuel;
    (destruct fuel as [|fuel]; [lia|]).
  - rewrite decodeWellFormedTuple_tails by lia.
    unfold resolveTails. rewrite resolveParams_resolved. cbn [bind].
    rewrite definedParams_Some, !length_map, Nat.eqb_refl. cbn [negb].
    replace ((len data + 31) / 32) with i by lia.
    cbv zeta. destruct (testFragment _ _ _); reflexivity.
  - cbn [decodeWellFormedTuple]. unfold decodeBody.
    replace (i * 32 >=? len data) with false
      by (symmetry; rewrite Z.geb_leb; apply Z.leb_gt; lia).
    unfold classifySlot. rewrite (Hnone i Hi ltac:(lia)). cbn [bind].
    unfold tryStatic. cbn [mayAssumeStatic negb].
    replace (map Resolved (repeat TBytes32 (Z.to_nat i)) ++ [Resolved TBytes32])
      with (map Resolved (repeat TBytes32 (Z.to_nat (i + 1)))).
    + rewrite (IH fuel depth (i + 1)) by lia. cbn [bind]. cbv zeta.
      destruct (testFragment abiDecode data
                  (Some (mkFragment "guessed"
                           (repeat TBytes32
                              (Z.to_nat ((len data + 31) / 32)))))) eqn:E.
      * rewrite E. reflexivity.
      * reflexivity.
    + replace (Z.to_nat (i + 1)) with (S (Z.to_nat i)) by lia.
      cbn [repeat]. rewrite repeat_cons, map_app. reflexivity.
Qed.

(** X17. A buffer none of whose head words reads as an offset is taken
    for a list of static words: with no mode, the search from the first
    slot returns the fragment of [ceil (length / 32)] parameters
    [bytes32] when the decoder accepts it, and none otherwise. *)
Theorem search_static_words
    (abiDecode : list ParamType -> bytes -> option (list Value))
    (fuel : nat) (depth : Z) (data : bytes) :
  (forall i, 0 <= i -> i * 32 < len data ->
             tryParseOffset data (i * 32) = Ret None) ->
  (Z.to_nat ((len data + 31) / 32) < fuel)%nat ->
  decodeWellFormedTuple abiDecode fuel depth data 0 [] (len data) None
  = Ret (let fragment :=
           Some (mkFragment "guessed"
                   (repeat TBytes32 (Z.to_nat ((len data + 31) / 32)))) in
         if testFragment abiDecode data fragment then fragment else None).
Proof.
  intros Hnone Hfuel.
  pose proof (len_nonneg data) as Hl.
  pose proof (Z.div_pos (len data + 31) 32 ltac:(lia) ltac:(lia)) as Hn.
  exact (decodeWellFormedTuple_words abiDecode data Hnone
           (Z.to_nat ((len data + 31) / 32)) fuel depth 0 ltac:(lia)
           ltac:(lia) Hfuel).
Qed.

Lemma search_static_words_witness :
  decodeWellFormedTuple Ref.decode 4 0 scenarioTuple 0 [] (len scenarioTuple)
    None
  = Ret (Some (mkFragment "guessed" [TBytes32; TBytes32; TBytes32])).
Proof.
  apply (search_static_words Ref.decode 4 0 scenarioTuple).
  - change (len scenarioTuple) with 96. intros i Hi Hlt.
    assert (E : i = 0 \/ i = 1 \/ i = 2) by lia.
    destruct E as [-> | [-> | ->]]; vm_compute; reflexivity.
  - vm_compute. lia.
Defined.

Lemma tryParseOffset_first_word (data : bytes) :
  0 < len data <= 32 -> tryParseOffset data 0 = Ret None.
Proof.
  intros Hlen.
  pose proof (noThrow_tryParseOffset data 0 ltac:(lia)) as Hn.
  pose proof (terminates_tryParseOffset data 0) as Ht.
  destruct (tryParseOffset data 0) as [[offset|] | |] eqn:E;
    [|reflexivity | contradiction Hn | contradiction Ht]; try reflexivity.
  apply tryParseOffset_Some in E. destruct E as [Ho Hm].
  exfalso. pose proof (Z.div_mod offset 32 ltac:(lia)). lia.
Qed.

(** X18. Calldata with a selector and 1 to 32 bytes of arguments has one
    candidate only, a single static word: [guessFragment] returns none
    when the decoder refuses the type [bytes32] on the arguments, and,
    when the decoder gives the word [w] for it, the fragment named after
    the selector whose one input refines [bytes32] by the zero bytes of
    [w]. *)
Theorem guessFragment_one_word
    (abiDecode : list ParamType -> bytes -> option (list Value))
    (isUtf8 : bytes -> bool) (calldata : bytes) :
  4 < len calldata <= 36 ->
  (abiDecode [TBytes32] (skipn 4 calldata) = None ->
   guessFragment abiDecode isUtf8 calldata = Ret None)
  /\ (forall w rest,
        abiDecode [TBytes32] (skipn 4 calldata) = Some (VWord w :: rest) ->
        guessFragment abiDecode isUtf8 calldata
        = Ret (Some (mkFragment ("guessed_" ++ hexOf (slice calldata 0 4))
                       [prettyBytes32 w]))).
Proof.
  intros Hlen. unfold guessFragment, wellFormedParse.
  replace (len calldata =? 0) with false by (symmetry; apply Z.eqb_neq; lia).
  set (data := skipn 4 calldata).
  assert (Hd : len data = len calldata - 4).
  { unfold data, len in *. rewrite length_skipn. lia. }
  assert (Hn : (len data + 31) / 32 = 1).
  { symmetry. apply (Z.div_unique (len data + 31) 32 1 (len data - 1)); lia. }
  assert (Hsearch :
    decodeWellFormedTuple abiDecode (searchFuel data) 0 data 0 [] (len data)
      None
    = Ret (let fragment := Some (mkFragment "guessed" [TBytes32]) in
           if testFragment abiDecode data fragment then fragment else None)).
  { pose proof (decodeWellFormedTuple_words abiDecode data) as H.
    rewrite Hn in H. apply (H ltac:(intros i Hi Hlt;
                                     assert (i = 0) as -> by lia;
                                     apply tryParseOffset_first_word; lia)
                              1%nat (searchFuel data) 0 0); try lia.
    unfold searchFuel.
    pose proof (Z.div_pos (len data) 32 ltac:(lia) ltac:(lia)). nia. }
  rewrite Hsearch. cbv zeta. unfold testFragment. cbn [inputs].
  split.
  - intros Hnone. rewrite Hnone. reflexivity.
  - intros w rest Hsome. rewrite Hsome. cbn [isSome bind inputs].
    rewrite Hsome. reflexivity.
Qed.

Lemma guessFragment_one_word_witness :
  guessFragment Ref.decode Ref.validUtf8 (calldataOf [123])
  = Ret (Some (mkFragment ("guessed_" ++ hexOf (slice (calldataOf [123]) 0 4))
                 [prettyBytes32 (word 123)])).
Proof.
  apply (proj2 (guessFragment_one_word Ref.decode Ref.validUtf8
                  (calldataOf [123])
                  ltac:(vm_compute; split; [reflexivity | discriminate]))
           (word 123) []).
  vm_compute. reflexivity.
Defined.

(** ** The tail of an encoded [bytes] *)

Lemma countLeadingZeros_zeros (m : nat) (l : bytes) :
  countLeadingZeros (repeat x00 m ++ l) = Z.of_nat m + countLeadingZeros l.
Proof.
  induction m as [|m IH]; [reflexivity|].
  cbn [repeat app countLeadingZeros].
  change (byteVal x00 =? 0) with true. cbv iota. rewrite IH. lia.
Qed.

Lemma countTrailingZeros_zeros (m : nat) (l : bytes) :
  Z.of_nat m <= countTrailingZeros (l ++ repeat x00 m).
Proof.
  unfold countTrailingZeros.
  rewrite rev_app_distr, rev_repeat, countLeadingZeros_zeros.
  pose proof (proj1 (countLeadingZeros_iff (rev l) _) eq_refl) as [H _].
  lia.
Qed.

(** X19. The tail of a canonically encoded [bytes], its content followed
    by the zero bytes that fill the last word, is always taken for
    [bytes], trailing or not, empty or not. *)
Theorem isBytesLike_canonical (content : bytes) (trailing : bool) :
  isBytesLike (len content)
    (content ++ repeat x00 (Z.to_nat ((32 - len content mod 32) mod 32)))
    trailing = true.
Proof.
  pose proof (len_nonneg content) as Hk.
  set (k := len content) in *.
  pose proof (Z.mod_pos_bound k 32 ltac:(lia)) as Hr.
  pose proof (Z.div_mod k 32 ltac:(lia)) as Hd.
  unfold isBytesLike. cbv zeta.
  destruct (Z.eq_dec k 0) as [E0|E0].
  - assert (content = []) as -> by (apply len_nil_iff; exact E0).
    rewrite E0. reflexivity.
  - replace (k =? 0) with false by (symmetry; apply Z.eqb_neq; lia).
    replace (k >? 0) with true by (symmetry; apply Z.gtb_lt; lia).
    cbn [andb orb].
    destruct (Z.eq_dec (k mod 32) 0) as [Er|Er].
    + rewrite Er. change ((32 - 0) mod 32) with 0.
      cbn [Z.to_nat repeat]. rewrite app_nil_r. fold k.
      rewrite !Z.eqb_refl, orb_true_r. reflexivity.
    + replace (k mod 32 =? 0) with false by (symmetry; apply Z.eqb_neq; lia).
      cbn [andb orb].
      rewrite (Z.mod_small (32 - k mod 32) 32) by lia.
      set (pad := Z.to_nat (32 - k mod 32)).
      assert (Hs : slice (content ++ repeat x00 pad) (k / 32 * 32)
                     (k / 32 * 32 + 32)
                   = skipn (Z.to_nat (k / 32 * 32)) content ++ repeat x00 pad).
      { unfold slice.
        replace (Z.to_nat (k / 32 * 32 + 32 - k / 32 * 32)) with 32%nat by lia.
        rewrite skipn_app.
        replace (Z.to_nat (k / 32 * 32) - List.length content)%nat with O
          by (unfold k, len in *; lia).
        cbn [skipn]. apply firstn_all2.
        rewrite length_app, length_skipn, repeat_length.
        unfold pad, k, len in *. lia. }
      rewrite Hs. rewrite Z.geb_leb. apply Z.leb_le.
      pose proof (countTrailingZeros_zeros pad
                    (skipn (Z.to_nat (k / 32 * 32)) content)) as H.
      unfold pad in *. lia.
Qed.

(** ** Chunks of a string *)

Lemma substring_empty (a m : nat) : substring a m EmptyString = EmptyString.
Proof. destruct a, m; reflexivity. Qed.

Lemma substring_length (s : string) :
  forall a m,
    String.length (substring a m s) = Nat.min m (String.length s - a).
Proof.
  induction s as [|c s IH]; intros a m.
  - rewrite substring_empty. cbn. lia.
  - destruct a as [|a].
    + destruct m as [|m]; [reflexivity|].
      cbn [substring String.length]. rewrite IH. lia.
    + cbn [substring String.length]. rewrite IH. lia.
Qed.

Lemma substring_all (s : string) (m : nat) :
  (String.length s <= m)%nat -> substring 0 m s = s.
Proof.
  revert m. induction s as [|c s IH]; intros m Hm.
  - apply substring_empty.
  - destruct m as [|m]; [cbn in Hm; lia|].
    cbn [substring]. f_equal. apply IH. cbn in Hm. lia.
Qed.

(** The string without its first [n] characters. *)
Lemma substring_shift (s : string) :
  forall n a m,
    substring (a + n) m s
    = substring a m (substring n (String.length s - n) s).
Proof.
  induction s as [|c s IH]; intros n a m.
  - rewrite !substring_empty. reflexivity.
  - destruct n as [|n].
    + rewrite Nat.add_0_r, Nat.sub_0_r, substring_all by lia. reflexivity.
    + rewrite Nat.add_succ_r. cbn [substring String.length Nat.sub].
      apply IH.
Qed.

Lemma substring_split (s : string) :
  forall n,
    (substring 0 n s ++ substring n (String.length s - n) s)%string = s.
Proof.
  induction s as [|c s IH]; intros n.
  - rewrite !substring_empty. reflexivity.
  - destruct n as [|n].
    + rewrite Nat.sub_0_r, (substring_all (String c s) (String.length (String c s)))
        by lia.
      reflexivity.
    + cbn [substring String.length Nat.sub String.append]. f_equal. apply IH.
Qed.

Lemma join_empty_cons (x : string) (xs : list string) :
  join "" (x :: xs) = (x ++ join "" xs)%string.
Proof.
  destruct xs as [|y ys]; cbn [join]; [|reflexivity].
  induction x as [|c x IH]; [reflexivity|].
  cbn [String.append]. f_equal. exact IH.
Qed.

Lemma join_chunks (n : nat) :
  forall (sz : nat) (s : string),
    (String.length s <= sz * n)%nat ->
    join "" (map (fun i => substring (i * n) n s) (seq 0 sz)) = s.
Proof.
  induction sz as [|sz IH]; intros s Hs.
  - destruct s; [reflexivity | cbn in Hs; lia].
  - cbn [seq map]. rewrite join_empty_cons, <- seq_shift, map_map.
    rewrite (map_ext _ (fun i => substring (i * n) n
                                   (substring n (String.length s - n) s))).
    + rewrite IH; [apply substring_split|].
      rewrite substring_length. lia.
    + intros i. replace (S i * n)%nat with (i * n + n)%nat by lia.
      apply substring_shift.
Qed.

(** X20. For a chunk length [len > 0], [chunkString] cuts the string
    into [ceil (length / len)] chunks that give the string back when
    they are joined; the chunk number [i] has [len] characters, or what
    is left of the string after [i * len] characters when that is
    less: every chunk but the last is full and none is empty. *)
Theorem chunkString_spec (str : string) (len : Z) :
  0 < len ->
  exists chunks,
    chunkString str len = Ret chunks
    /\ join "" chunks = str
    /\ Z.of_nat (List.length chunks)
       = (Z.of_nat (String.length str) + len - 1) / len
    /\ forall i c,
         nth_error chunks i = Some c ->
         Z.of_nat (String.length c)
         = Z.min len (Z.of_nat (String.length str) - Z.of_nat i * len)
         /\ (0 < String.length c)%nat.
Proof.
  intros Hlen. unfold chunkString.
  replace (len =? 0) with false by (symmetry; apply Z.eqb_neq; lia).
  cbv zeta. set (L := Z.of_nat (String.length str)).
  set (n := Z.to_nat len).
  assert (Hsize : - (- L / len) = (L + len - 1) / len).
  { pose proof (Z.div_mod (- L) len ltac:(lia)) as H1.
    pose proof (Z.mod_pos_bound (- L) len Hlen) as H2.
    apply (Z.div_unique (L + len - 1) len _ (len - 1 - (- L) mod len)); lia. }
  rewrite Hsize. set (sz := Z.to_nat ((L + len - 1) / len)).
  assert (Hsz : Z.of_nat sz = (L + len - 1) / len).
  { unfold sz. apply Z2Nat.id. apply Z.div_pos; unfold L; lia. }
  pose proof (Z.div_mod (L + len - 1) len ltac:(lia)) as Hd.
  pose proof (Z.mod_pos_bound (L + len - 1) len Hlen) as Hm.
  rewrite map_map.
  rewrite (map_ext _ (fun i => substring (i * n) n str)).
  2:{ intros i. f_equal. unfold n. nia. }
  eexists. split; [reflexivity|]. split; [|split].
  - apply join_chunks. unfold n, L in *. nia.
  - rewrite length_map, length_seq. exact Hsz.
  - intros i c. rewrite nth_error_map, nth_error_seq.
    destruct (i <? sz)%nat eqn:Ei; [|discriminate].
    apply Nat.ltb_lt in Ei. cbn [option_map Nat.add]. intros H.
    injection H as <-. rewrite substring_length.
    assert (Hi : Z.of_nat i * len < L) by nia.
    unfold n, L in *. split; nia.
Qed.

Lemma chunkString_spec_witness :
  exists chunks,
    chunkString "a9059cbb00" 4 = Ret chunks
    /\ join "" chunks = "a9059cbb00"%string
    /\ Z.of_nat (List.length chunks)
       = (Z.of_nat (String.length "a9059cbb00") + 4 - 1) / 4
    /\ forall i c,
         nth_error chunks i = Some c ->
         Z.of_nat (String.length c)
         = Z.min 4 (Z.of_nat (String.length "a9059cbb00") - Z.of_nat i * 4)
         /\ (0 < String.length c)%nat.
Proof.
  apply (chunkString_spec "a9059cbb00" 4). lia.
Defined.

(** ** The text of a type *)

Lemma append_assoc (a b c : string) :
  ((a ++ b) ++ c = a ++ b ++ c)%string.
Proof.
  induction a as [|x a IH]; [reflexivity|].
  cbn [String.append]. f_equal. exact IH.
Qed.

Lemma append_nil_r (a : string) : (a ++ EmptyString)%string = a.
Proof.
  induction a as [|x a IH]; [reflexivity|].
  cbn [String.append]. f_equal. exact IH.
Qed.

Lemma append_inv_head (a b c : string) :
  (a ++ b = a ++ c)%string -> b = c.
Proof.
  induction a as [|x a IH]; [intros H; exact H|].
  cbn [String.append]. intros H. injection H as H. exact (IH H).
Qed.

Lemma format_head (p : ParamType) :
  rawType p = true ->
  exists c rest,
    format p = String c rest /\ (c = "b"%char \/ c = "("%char).
Proof.
  induction p as [| | | | | n | cs _ | c IH] using ParamType_nested_ind;
    cbn [rawType]; try discriminate; intros Hp.
  - eexists _, _. split; [reflexivity | left; reflexivity].
  - eexists _, _. split; [reflexivity | left; reflexivity].
  - eexists _, _. split; [reflexivity | right; reflexivity].
  - destruct (IH Hp) as (x & rest & E & Hx). cbn [format]. rewrite E.
    eexists _, _. split; [reflexivity | exact Hx].
Qed.

Lemma brackets_head (k : nat) (r : string) :
  closing r ->
  match (brackets k ++ r)%string with
  | EmptyString => True
  | String c _ => c = ","%char \/ c = ")"%char \/ c = "["%char
  end.
Proof.
  intros Hr. destruct k as [|k].
  - cbn [brackets String.append]. destruct r as [|c r]; [exact I|].
    destruct Hr as [-> | ->]; [left | right; left]; reflexivity.
  - right; right. reflexivity.
Qed.

Lemma brackets_inj (k : nat) :
  forall k' r s,
    closing r -> closing s ->
    (brackets k ++ r = brackets k' ++ s)%string ->
    k = k' /\ r = s.
Proof.
  induction k as [|k IH]; intros [|k'] r s Hr Hs H.
  - split; [reflexivity | exact H].
  - exfalso. cbn in H. subst r. destruct Hr as [E | E]; discriminate E.
  - exfalso. cbn in H. subst s. destruct Hs as [E | E]; discriminate E.
  - cbn in H. injection H as H.
    destruct (IH k' r s Hr Hs H) as [-> ->]. split; reflexivity.
Qed.

Lemma format_array_tail (c : ParamType) (k : nat) (r : string) :
  (format (TArray c) ++ brackets k ++ r
   = format c ++ brackets (S k) ++ r)%string.
Proof. cbn [format brackets]. rewrite !append_assoc. reflexivity. Qed.

Lemma join_cons_append (x : string) (xs : list string) (t : string) :
  (join "," (x :: xs) ++ t
   = x ++ match xs with
          | [] => t
          | _ :: _ => "," ++ join "," xs ++ t
          end)%string.
Proof.
  destruct xs as [|y ys]; cbn [join]; [reflexivity|].
  rewrite !append_assoc. reflexivity.
Qed.

Lemma head_mismatch (p : ParamType) (a b : string) (c : ascii) :
  rawType p = true ->
  c <> "b"%char -> c <> "("%char ->
  (format p ++ a)%string <> String c b.
Proof.
  intros Hp Hb Hc H. destruct (format_head p Hp) as (x & rest & E & Hx).
  rewrite E in H. cbn [String.append] in H. injection H as H _.
  destruct Hx; congruence.
Qed.

Lemma join_format_unique (cs : list ParamType) :
  Forall formatUnique cs ->
  forallb rawType cs = true ->
  forall cs' t1 t2,
    forallb rawType cs' = true ->
    (join "," (map format cs) ++ ")" ++ t1
     = join "," (map format cs') ++ ")" ++ t2)%string ->
    cs = cs' /\ t1 = t2.
Proof.
  intros Hcs. induction Hcs as [|c rest Hc _ IH]; intros Hraw cs' t1 t2 Hraw' H.
  - destruct cs' as [|c' rest'].
    + cbn in H. injection H as H. split; [reflexivity | exact H].
    + exfalso. cbn [forallb] in Hraw'. apply andb_true_iff in Hraw'.
      cbn [map] in H. rewrite join_cons_append in H.
      symmetry in H. revert H. cbn [join String.append].
      apply head_mismatch; [apply Hraw' | discriminate | discriminate].
  - cbn [forallb] in Hraw. apply andb_true_iff in Hraw.
    destruct Hraw as [Hrc Hrrest].
    cbn [map] in H. rewrite join_cons_append in H.
    destruct cs' as [|c' rest'].
    + exfalso. revert H. cbn [map join String.append].
      apply head_mismatch; [exact Hrc | discriminate | discriminate].
    + cbn [forallb] in Hraw'. apply andb_true_iff in Hraw'.
      destruct Hraw' as [Hrc' Hrrest'].
      cbn [map] in H. rewrite join_cons_append in H.
      apply (Hc c' O O) in H; [|exact Hrc | exact Hrc' | |].
      * destruct H as [Ec H]. cbn [arrays] in Ec. subst c'.
        destruct rest as [|r0 rest0], rest' as [|r0' rest0']; cbn [map] in H.
        -- injection H as H. split; [reflexivity | exact H].
        -- discriminate H.
        -- discriminate H.
        -- cbn [String.append] in H. injection H as H.
           destruct (IH Hrrest _ _ _ Hrrest' H) as [E1 E2].
           split; [f_equal; exact E1 | exact E2].
      * destruct rest; cbn; [right | left]; reflexivity.
      * destruct rest'; cbn; [right | left]; reflexivity.
Qed.

Lemma format_unique (p : ParamType) : formatUnique p.
Proof.
  induction p as [| | | | | n | cs IH | c IH] using ParamType_nested_ind;
    unfold formatUnique; intros q k k' r s Hp; try discriminate Hp.
  - (* bytes32 *)
    revert k'. induction q as [| | | | | n | cs' | c' IHq];
      intros k' Hq Hr Hs H; try discriminate Hq.
    + apply append_inv_head in H.
      destruct (brackets_inj _ _ _ _ Hr Hs H) as [-> ->].
      split; reflexivity.
    + exfalso. change (format TBytes32) with ("bytes" ++ "32")%string in H.
      rewrite append_assoc in H. apply append_inv_head in H.
      pose proof (brackets_head k' s Hs) as Hh. rewrite <- H in Hh.
      cbn in Hh. destruct Hh as [E | [E | E]]; discriminate E.
    + exfalso. cbn in H. discriminate H.
    + rewrite format_array_tail in H.
      exact (IHq (S k') Hq Hr Hs H).
  - (* bytes *)
    revert k'. induction q as [| | | | | n | cs' | c' IHq];
      intros k' Hq Hr Hs H; try discriminate Hq.
    + exfalso. change (format TBytes32) with ("bytes" ++ "32")%string in H.
      rewrite append_assoc in H. apply append_inv_head in H.
      pose proof (brackets_head k r Hr) as Hh. rewrite H in Hh.
      cbn in Hh. destruct Hh as [E | [E | E]]; discriminate E.
    + apply append_inv_head in H.
      destruct (brackets_inj _ _ _ _ Hr Hs H) as [-> ->].
      split; reflexivity.
    + exfalso. cbn in H. discriminate H.
    + rewrite format_array_tail in H.
      exact (IHq (S k') Hq Hr Hs H).
  - (* tuple *)
    revert k'. induction q as [| | | | | n | cs' | c' IHq];
      intros k' Hq Hr Hs H; try discriminate Hq.
    + exfalso. cbn in H. discriminate H.
    + exfalso. cbn in H. discriminate H.
    + cbn [format] in H. rewrite !append_assoc in H.
      cbn [String.append] in H. injection H as H.
      cbn [rawType] in Hp, Hq.
      destruct (join_format_unique cs IH Hp cs' _ _ Hq H) as [-> H'].
      destruct (brackets_inj _ _ _ _ Hr Hs H') as [-> ->].
      split; reflexivity.
    + rewrite format_array_tail in H.
      exact (IHq (S k') Hq Hr Hs H).
  - (* array *)
    intros Hq Hr Hs H. rewrite format_array_tail in H.
    exact (IH q (S k) k' r s Hp Hq Hr Hs H).
Qed.

(** X21. The text of a type determines the type, among the types that
    the search builds: two such types with the same [format] are the
    same type.  (The sets of formatted types that the search compares
    are thus sets of types.) *)
Theorem format_injective (p q : ParamType) :
  rawType p = true -> rawType q = true ->
  format p = format q -> p = q.
Proof.
  intros Hp Hq H.
  destruct (format_unique p q O O EmptyString EmptyString Hp Hq I I) as [E _].
  - cbn [brackets String.append]. rewrite !append_nil_r. exact H.
  - exact E.
Qed.

Lemma format_injective_witness :
  TArray (TTuple [TBytes; TArray TBytes32])
  = TArray (TTuple [TBytes; TArray TBytes32]).
Proof.
  apply (format_injective (TArray (TTuple [TBytes; TArray TBytes32]))
           (TArray (TTuple [TBytes; TArray TBytes32])));
    reflexivity.
Defined.

(** ** Values without empty arrays *)

Lemma refinesStrictly_tuple (cs ts : list ParamType) :
  refinesStrictly (TTuple cs) (TTuple ts) <-> Forall2 refinesStrictly cs ts.
Proof.
  cbn [refinesStrictly]. revert ts.
  induction cs as [|c cs IH]; intros [|t ts]; split; intros H.
  - constructor.
  - exact I.
  - contradiction H.
  - inversion H.
  - contradiction H.
  - inversion H.
  - destruct H as [H1 H2]. constructor; [exact H1 | apply IH, H2].
  - inversion H; subst. split; [assumption | apply IH; assumption].
Qed.

Lemma hasShape_tuple (cs : list ParamType) (vs : list Value) :
  hasShape (TTuple cs) (VList vs) <-> Forall2 hasShape cs vs.
Proof.
  cbn [hasShape]. revert vs.
  induction cs as [|c cs IH]; intros [|v vs]; split; intros H.
  - constructor.
  - exact I.
  - contradiction H.
  - inversion H.
  - contradiction H.
  - inversion H.
  - destruct H as [H1 H2]. constructor; [exact H1 | apply IH, H2].
  - inversion H; subst. split; [assumption | apply IH; assumption].
Qed.

Lemma refined_tuples (cs : list ParamType) (l : list ParamType) :
  Forall (refinesStrictly (TTuple cs)) l ->
  exists css, l = map TTuple css /\ Forall (Forall2 refinesStrictly cs) css.
Proof.
  induction 1 as [|t l Ht _ (css & -> & Hcss)].
  - exists []. split; [reflexivity | constructor].
  - destruct t as [| | | | | n | ts | c]; try contradiction Ht.
    exists (ts :: css). split; [reflexivity|]. constructor; [|exact Hcss].
    apply refinesStrictly_tuple, Ht.
Qed.

Lemma refined_arrays (c : ParamType) (l : list ParamType) :
  Forall (refinesStrictly (TArray c)) l ->
  exists l', l = map TArray l' /\ Forall (refinesStrictly c) l'.
Proof.
  induction 1 as [|t l Ht _ (l' & -> & Hl')].
  - exists []. split; [reflexivity | constructor].
  - destruct t as [| | | | | n | ts | t']; try contradiction Ht.
    exists (t' :: l'). split; [reflexivity|]. constructor; assumption.
Qed.

Lemma Forall2_nth_default {A B : Type} (R : A -> B -> Prop)
    (l : list A) (l' : list B) (i : nat) (d : A) (d' : B) :
  Forall2 R l l' -> (i < List.length l)%nat -> R (nth i l d) (nth i l' d').
Proof.
  intros H. revert i. induction H as [|a b l l' Hab _ IH]; intros i Hi.
  - cbn in Hi. lia.
  - destruct i as [|i]; [exact Hab|]. cbn [nth]. apply IH. cbn in Hi. lia.
Qed.

(** Types that refine one type merge without an exception, to a type
    that refines it. *)
Lemma mergeTypes_refined (c : ParamType) :
  rawType c = true ->
  forall t ts,
    Forall (refinesStrictly c) (t :: ts) ->
    exists m, mergeTypes (t :: ts) = Ret m /\ refinesStrictly c m.
Proof.
  induction c as [| | | | | n | cs IH | c IH] using ParamType_nested_ind;
    intros Hraw t ts Hall; try discriminate Hraw.
  - (* bytes32 *)
    assert (Hs : forallb isScalar (t :: ts) = true).
    { apply forallb_forall. intros x Hx.
      rewrite Forall_forall in Hall. specialize (Hall x Hx).
      destruct Hall as [-> | [-> | [-> | [k ->]]]]; reflexivity. }
    rewrite (mergeTypes_scalars (t :: ts) ltac:(discriminate) Hs). cbv zeta.
    destruct (setSize _ =? 1).
    { exists t. split; [reflexivity|]. inversion Hall; assumption. }
    destruct (setHas _ "bytes") eqn:Eb.
    { exfalso. apply (setHas_bytes _ Hs) in Eb.
      rewrite Forall_forall in Hall. specialize (Hall _ Eb).
      destruct Hall as [E | [E | [E | [k E]]]]; discriminate E. }
    destruct (setHas _ "uint256").
    + exists TUint256. split; [reflexivity|]. right; left; reflexivity.
    + exists TBytes32. split; [reflexivity|]. right; right; left; reflexivity.
  - (* bytes *)
    assert (Hs : forallb isScalar (t :: ts) = true).
    { apply forallb_forall. intros x Hx.
      rewrite Forall_forall in Hall. specialize (Hall x Hx).
      destruct Hall as [-> | ->]; reflexivity. }
    rewrite (mergeTypes_scalars (t :: ts) ltac:(discriminate) Hs). cbv zeta.
    destruct (setSize _ =? 1) eqn:E1.
    { exists t. split; [reflexivity|]. inversion Hall; assumption. }
    destruct (setHas _ "bytes") eqn:Eb.
    { exists TBytes. split; [reflexivity|]. right; reflexivity. }
    exfalso. apply Z.eqb_neq in E1. apply E1. cbn [map].
    assert (Hstr : forall x, In x (t :: ts) -> x = TString).
    { intros x Hx. rewrite Forall_forall in Hall.
      destruct (Hall x Hx) as [-> | ->]; [reflexivity|].
      apply (setHas_bytes _ Hs) in Hx. congruence. }
    apply setSize_one. apply Forall_forall. intros x Hx.
    apply in_map_iff in Hx. destruct Hx as (y & <- & Hy).
    rewrite (Hstr y (or_intror Hy)), (Hstr t (or_introl eq_refl)).
    reflexivity.
  - (* tuple *)
    destruct (refined_tuples cs _ Hall) as (css & E & Hcss).
    destruct css as [|cs0 css]; [discriminate E|].
    rewrite E. clear E Hall t ts.
    assert (Hlen : forall x, In x (cs0 :: css) ->
                             List.length x = List.length cs).
    { intros x Hx. rewrite Forall_forall in Hcss.
      symmetry. exact (Forall2_length (Hcss x Hx)). }
    rewrite mergeTypes_tuples.
    2:{ apply Forall_forall. intros x Hx.
        rewrite (Hlen x (or_intror Hx)), (Hlen cs0 (or_introl eq_refl)).
        reflexivity. }
    rewrite (Hlen cs0 (or_introl eq_refl)).
    cbn [rawType] in Hraw.
    set (column := fun i => mergeTypes
                              (map (fun x => nth i x TBytes32) (cs0 :: css))).
    assert (L : forall suf pre, cs = pre ++ suf ->
              exists ms,
                mapM column (seq (List.length pre) (List.length suf)) = Ret ms
                /\ Forall2 refinesStrictly suf ms).
    { induction suf as [|c suf IHsuf]; intros pre Ecs.
      { exists []. split; [reflexivity | constructor]. }
      cbn [List.length seq mapM].
      assert (Hin : In c cs) by (rewrite Ecs; apply in_elt).
      assert (Hc : nth (List.length pre) cs TBytes32 = c).
      { rewrite Ecs, app_nth2, Nat.sub_diag by lia. reflexivity. }
      assert (Hcol : Forall (refinesStrictly c)
                       (map (fun x => nth (List.length pre) x TBytes32)
                            (cs0 :: css))).
      { apply Forall_forall. intros y Hy. apply in_map_iff in Hy.
        destruct Hy as (x & <- & Hx). rewrite <- Hc.
        rewrite Forall_forall in Hcss.
        apply Forall2_nth_default; [exact (Hcss x Hx)|].
        rewrite Ecs, length_app. cbn [List.length]. lia. }
      rewrite Forall_forall in IH.
      cbn [map] in Hcol.
      destruct (IH c Hin (proj1 (forallb_forall _ _) Hraw c Hin) _ _ Hcol)
        as (m & Em & Hm).
      assert (Em' : column (List.length pre) = Ret m) by exact Em.
      rewrite Em'. cbn [bind].
      destruct (IHsuf (pre ++ [c])) as (ms & Ems & Hms).
      { rewrite <- app_assoc. exact Ecs. }
      rewrite length_app, Nat.add_1_r in Ems. rewrite Ems. cbn [bind].
      exists (m :: ms). split; [reflexivity|]. constructor; assumption. }
    destruct (L cs [] eq_refl) as (ms & Ems & Hms).
    cbn [List.length] in Ems. rewrite Ems. cbn [bind].
    exists (TTuple ms). split; [reflexivity|].
    apply refinesStrictly_tuple, Hms.
  - (* array *)
    destruct (refined_arrays c _ Hall) as (l' & E & Hl').
    destruct l' as [|t' ts']; [discriminate E|].
    rewrite E, mergeTypes_arrays.
    destruct (IH Hraw t' ts' Hl') as (m & Em & Hm).
    rewrite Em. cbn [bind]. exists (TArray m). split; [reflexivity|].
    exact Hm.
Qed.

Lemma prettyTypesFrom_shaped (isUtf8 : bytes -> bool) (cs : list ParamType) :
  Forall (fun c => rawType c = true ->
                   forall v, hasShape c v ->
                   exists t, prettyType isUtf8 c (Some v) = Ret t
                             /\ refinesStrictly c t) cs ->
  forallb rawType cs = true ->
  forall vs pre,
    Forall2 hasShape cs vs ->
    exists ts,
      prettyTypesFrom isUtf8 (List.length pre) cs (pre ++ vs) = Ret ts
      /\ Forall2 refinesStrictly cs ts.
Proof.
  intros Hcs. induction Hcs as [|c cs Hc _ IH]; intros Hraw vs pre Hvs.
  - exists []. split; [reflexivity | constructor].
  - inversion Hvs as [|c' v cs' vs' Hv Hvs' E1 E2]; subst.
    cbn [forallb] in Hraw. apply andb_true_iff in Hraw.
    destruct Hraw as [Hrc Hrcs].
    cbn [prettyTypesFrom].
    rewrite nth_error_app2, Nat.sub_diag by lia. cbn [nth_error].
    destruct (Hc Hrc v Hv) as (t & Et & Ht). rewrite Et. cbn [bind].
    destruct (IH Hrcs vs' (pre ++ [v]) Hvs') as (ts & Ets & Hts).
    rewrite length_app, Nat.add_1_r, <- app_assoc in Ets.
    cbn [app] in Ets. rewrite Ets. cbn [bind].
    exists (t :: ts). split; [reflexivity | constructor; assumption].
Qed.

Lemma prettyType_shaped (isUtf8 : bytes -> bool) (param : ParamType) :
  rawType param = true ->
  forall v,
    hasShape param v ->
    exists t, prettyType isUtf8 param (Some v) = Ret t
              /\ refinesStrictly param t.
Proof.
  induction param as [| | | | | n | cs IH | c IH] using ParamType_nested_ind;
    intros Hraw v Hv; try discriminate Hraw.
  - destruct Hv as [w ->]. cbn [prettyType].
    exists (prettyBytes32 w). split; [reflexivity|].
    exact (prettyBytes32_names w).
  - cbn [prettyType]. destruct v as [w|b|vs].
    + exists TBytes. split; [reflexivity | right; reflexivity].
    + destruct (isUtf8 b); eexists; (split; [reflexivity|]);
        [left | right]; reflexivity.
    + exists TBytes. split; [reflexivity | right; reflexivity].
  - destruct v as [w|b|vs]; try contradiction Hv.
    apply hasShape_tuple in Hv. cbn [rawType] in Hraw.
    destruct cs as [|c0 cs0].
    + exists (TTuple []). split; [reflexivity | exact I].
    + rewrite prettyType_tuple.
      destruct (prettyTypesFrom_shaped isUtf8 _ IH Hraw vs [] Hv)
        as (ts & Ets & Hts).
      cbn [List.length app] in Ets. rewrite Ets. cbn [bind].
      exists (TTuple ts). split; [reflexivity|].
      apply refinesStrictly_tuple, Hts.
  - destruct v as [w|b|vs]; try contradiction Hv.
    destruct Hv as [Hne Hvs]. cbn [rawType] in Hraw. cbn [prettyType].
    assert (Hmap : exists ts,
              mapM (fun child => prettyType isUtf8 c (Some child)) vs = Ret ts
              /\ Forall (refinesStrictly c) ts
              /\ List.length ts = List.length vs).
    { clear Hne. induction Hvs as [|v vs Hv _ IHvs].
      - exists []. split; [reflexivity|]. split; [constructor | reflexivity].
      - destruct (IH Hraw v Hv) as (t & Et & Ht).
        destruct IHvs as (ts & Ets & Hts & Hlen).
        cbn [mapM]. rewrite Et. cbn [bind]. rewrite Ets. cbn [bind].
        exists (t :: ts). split; [reflexivity|].
        split; [constructor; assumption | cbn; lia]. }
    destruct Hmap as (ts & Ets & Hts & Hlen). rewrite Ets. cbn [bind].
    destruct ts as [|t ts].
    { destruct vs; [congruence | discriminate Hlen]. }
    destruct (mergeTypes_refined c Hraw t ts Hts) as (m & Em & Hm).
    rewrite Em. cbn [bind]. exists (TArray m). split; [reflexivity|].
    exact Hm.
Qed.

(** X22. On the types of the search and values that have their shape
    and hold no empty array, the prettifier raises no exception: it
    returns one type for each parameter, and each refines its parameter
    at every level, the element type of an array included. *)
Theorem prettyTypes_shaped (isUtf8 : bytes -> bool)
    (params : list ParamType) (vals : list Value) :
  forallb rawType params = true ->
  Forall2 hasShape params vals ->
  exists ts,
    prettyTypes isUtf8 params vals = Ret ts
    /\ Forall2 refinesStrictly params ts.
Proof.
  intros Hraw Hvals. unfold prettyTypes.
  apply (prettyTypesFrom_shaped isUtf8 params
           ltac:(apply Forall_forall; intros c _; apply prettyType_shaped)
           Hraw vals [] Hvals).
Qed.

Lemma prettyTypes_shaped_witness :
  exists ts,
    prettyTypes Ref.validUtf8 [TArray TBytes32; TBytes]
      [VList [VWord (word 1); VWord (word 2)]; VBytes []] = Ret ts
    /\ Forall2 refinesStrictly [TArray TBytes32; TBytes] ts.
Proof.
  apply (prettyTypes_shaped Ref.validUtf8 [TArray TBytes32; TBytes]
           [VList [VWord (word 1); VWord (word 2)]; VBytes []]).
  - reflexivity.
  - constructor.
    + split; [discriminate|].
      constructor; [eexists; reflexivity|].
      constructor; [eexists; reflexivity | constructor].
    + constructor; [exact I | constructor].
Defined.

(** X23. [guessFragment] returns, a fragment or none, on calldata for
    which the values that the decoder gives for the fragment of the
    search have the shape of its types and hold no empty array: an
    exception needs an empty array, or a decoder that breaks its
    contract. *)
Theorem guessFragment_returns
    (abiDecode : list ParamType -> bytes -> option (list Value))
    (isUtf8 : bytes -> bool) (calldata : bytes) :
  (forall raw vals,
     decodeWellFormedTuple abiDecode (searchFuel (skipn 4 calldata)) 0
       (skipn 4 calldata) 0 [] (len (skipn 4 calldata)) None
     = Ret (Some raw) ->
     abiDecode (inputs raw) (skipn 4 calldata) = Some vals ->
     Forall2 hasShape (inputs raw) vals) ->
  exists r, guessFragment abiDecode isUtf8 calldata = Ret r.
Proof.
  intros Hshape. unfold guessFragment, wellFormedParse.
  destruct (len calldata =? 0); [eexists; reflexivity|].
  destruct (decodeWellFormedTuple_returns abiDecode (skipn 4 calldata))
    as [[raw|] Hr]; rewrite Hr; cbn [bind]; [|eexists; reflexivity].
  pose proof (decodeWellFormedTuple_accepted _ _ _ _ _ _ _ _ _ Hr) as Hacc.
  unfold testFragment in Hacc.
  destruct (abiDecode (inputs raw) (skipn 4 calldata)) as [vals|] eqn:Ed;
    [|discriminate].
  pose proof (decodeWellFormedTuple_raw abiDecode _ _ _ _ _ _ _ raw
                ltac:(constructor) Hr) as Hraw.
  destruct (prettyTypesFrom_shaped isUtf8 (inputs raw)
              ltac:(apply Forall_forall; intros c _; apply prettyType_shaped)
              Hraw vals [] (Hshape raw vals Hr Ed))
    as (ts & Ets & _).
  unfold prettyTypes. cbn [List.length app] in Ets. rewrite Ets. cbn [bind].
  eexists. reflexivity.
Qed.

Lemma guessFragment_returns_witness :
  exists r,
    guessFragment Ref.decode Ref.validUtf8 (selector ++ scenarioSingle) = Ret r.
Proof.
  apply (guessFragment_returns Ref.decode Ref.validUtf8
           (selector ++ scenarioSingle)).
  intros raw vals Hraw Hvals.
  vm_compute in Hraw. injection Hraw as <-.
  vm_compute in Hvals. injection Hvals as <-.
  constructor; [exact I | constructor].
Defined.

(** ** Arrays of static elements *)

Lemma Forall2_in_r {A B : Type} (R : A -> B -> Prop)
    (l : list A) (l' : list B) (b : B) :
  Forall2 R l l' -> In b l' -> exists a, In a l /\ R a b.
Proof.
  induction 1 as [|a b' l l' Hab _ IH]; intros Hin; [contradiction|].
  destruct Hin as [-> | Hin].
  - exists a. split; [left; reflexivity | exact Hab].
  - destruct (IH Hin) as (a' & Ha' & HR).
    exists a'. split; [right; exact Ha' | exact HR].
Qed.

Section StaticElements.

Variable rec : decoder.

Hypothesis rec_raw :
  forall depth data endOfStaticCalldata mode f,
    rec depth data 0 [] endOfStaticCalldata mode = Ret (Some f) ->
    forallb rawType (inputs f) = true.

Lemma decodeElements_spec (depth : Z) (dynamicData : bytes)
    (elemSizeWords : Z) (elemIdxs : list Z) :
  forall elems,
    decodeElements rec depth dynamicData elemSizeWords elemIdxs
    = Ret (Some elems)
    <-> exists fs,
          elems = map inputs fs
          /\ Forall2
               (fun i f =>
                  rec (depth + 1)
                    (slice dynamicData (i * elemSizeWords * 32)
                       ((i + 1) * elemSizeWords * 32))
                    0 [] (elemSizeWords * 32) None = Ret (Some f))
               elemIdxs fs.
Proof.
  induction elemIdxs as [|i l IH]; intros elems; cbn [decodeElements].
  - split.
    + intros H. injection H as <-. exists []. split; [reflexivity|constructor].
    + intros (fs & -> & H). inversion H. reflexivity.
  - split.
    + destruct (rec _ _ _ _ _ _) as [[f|] | |] eqn:Ef; cbn [bind];
        try discriminate.
      destruct (decodeElements _ _ _ _ _) as [[more|] | |] eqn:Em;
        cbn [bind]; try discriminate.
      intros H. injection H as <-.
      destruct (proj1 (IH more) eq_refl) as (fs & -> & Hfs).
      exists (f :: fs). split; [reflexivity|]. constructor; assumption.
    + intros (fs & -> & H).
      inversion H as [|i' f l' fs' Hf Hfs E1 E2]; subst.
      rewrite Hf. cbn [bind].
      rewrite (proj2 (IH (map inputs fs'))
                 (ex_intro _ fs' (conj eq_refl Hfs))).
      reflexivity.
Qed.

(** X25. The rule of the arrays whose elements are packed without
    offsets.  The tail is cut into [k] pieces of equal size, after the
    words that do not fill a piece have been dropped, which is allowed
    for the trailing placeholder only; the result is the array
    [(T1,...,Tn)[]] exactly when every piece decodes on its own to a
    fragment and all these fragments have the inputs [T1,...,Tn] of the
    first. *)
Theorem static_element_array_rule (depth : Z) (dynamicData : bytes) (k : Z)
    (trailing : bool) (ty : ParamType) :
  0 < k ->
  let uneven := negb (len dynamicData mod (32 * k) =? 0) in
  let pieces :=
    if uneven
    then slice dynamicData 0 (len dynamicData / (32 * k) * k * 32)
    else dynamicData in
  let w := len pieces / (32 * k) in
  resolveStaticElements rec depth dynamicData k trailing = Ret (Some ty)
  <-> (uneven = false \/ trailing = true)
      /\ exists f0 fs,
           Forall2
             (fun i f =>
                rec (depth + 1)
                  (slice pieces (i * w * 32) ((i + 1) * w * 32))
                  0 [] (w * 32) None = Ret (Some f))
             (keys k) (f0 :: fs)
           /\ Forall (fun f => inputs f = inputs f0) fs
           /\ ty = TArray (TTuple (inputs f0)).
Proof.
  intros Hk uneven pieces w. unfold resolveStaticElements.
  cbv zeta. fold uneven. fold pieces. fold w.
  destruct (uneven && negb trailing) eqn:Eg.
  { split; [discriminate|]. intros [[H|H] _]; rewrite H in Eg.
    - discriminate Eg.
    - rewrite andb_false_r in Eg. discriminate Eg. }
  assert (Hmode : uneven = false \/ trailing = true).
  { destruct uneven, trailing; try discriminate Eg;
      first [left; reflexivity | right; reflexivity]. }
  split.
  - intros H. split; [exact Hmode|]. revert H.
    destruct (decodeElements rec depth pieces w (keys k))
      as [[elems|] | |] eqn:Ee; cbn [bind]; try discriminate.
    destruct (setSize _ >? 1) eqn:Es; [discriminate|].
    destruct elems as [|ins elems]; [discriminate|].
    intros H. injection H as <-.
    apply decodeElements_spec in Ee.
    destruct Ee as (fs' & Eelems & Hfs).
    destruct fs' as [|f0 fs]; [discriminate Eelems|].
    cbn [map] in Eelems. injection Eelems as -> ->.
    exists f0, fs. split; [exact Hfs|]. split; [|reflexivity].
    rewrite Z.gtb_ltb in Es. apply Z.ltb_ge in Es.
    assert (E1 : setSize (map (fun ins => format (TTuple ins))
                            (inputs f0 :: map inputs fs)) = 1).
    { revert Es. unfold setSize. cbn [map setOf List.length]. lia. }
    cbn [map] in E1. apply setSize_one in E1.
    inversion Hfs as [|? ? ? ? Hf0 Hrest]; subst.
    apply Forall_forall. intros f Hf.
    assert (Hraw : forallb rawType (inputs f) = true).
    { destruct (Forall2_in_r _ _ _ _ Hrest Hf) as (i & _ & Hi).
      exact (rec_raw _ _ _ _ _ Hi). }
    assert (Hfmt : format (TTuple (inputs f)) = format (TTuple (inputs f0))).
    { rewrite Forall_forall in E1. apply E1.
      rewrite map_map. apply in_map_iff. exists f. split;
        [reflexivity | exact Hf]. }
    destruct (format_unique (TTuple (inputs f)) (TTuple (inputs f0)) O O
                EmptyString EmptyString Hraw (rec_raw _ _ _ _ _ Hf0) I I)
      as [E _].
    + cbn [brackets String.append]. rewrite !append_nil_r. exact Hfmt.
    + cbn [arrays] in E. injection E as E. exact E.
  - intros [_ (f0 & fs & Hfs & Hsame & ->)].
    rewrite (proj2 (decodeElements_spec depth pieces w (keys k)
                      (map inputs (f0 :: fs)))
               (ex_intro _ (f0 :: fs) (conj eq_refl Hfs))).
    cbn [bind map].
    assert (E1 : setSize (format (TTuple (inputs f0))
                          :: map (fun ins => format (TTuple ins))
                               (map inputs fs)) = 1).
    { apply setSize_one. apply Forall_forall. intros x Hx.
      rewrite map_map in Hx. apply in_map_iff in Hx.
      destruct Hx as (f & <- & Hf).
      rewrite Forall_forall in Hsame. rewrite (Hsame f Hf). reflexivity. }
    rewrite E1. reflexivity.
Qed.

End StaticElements.

Lemma static_element_array_rule_witness :
  resolveStaticElements (refSearch 8) 0 staticPairs 2 true
  = Ret (Some (TArray (TTuple [TBytes32; TBytes32]))).
Proof.
  apply (proj2 (static_element_array_rule (refSearch 8)
                  ltac:(intros depth data e mode f;
                        apply (decodeWellFormedTuple_raw Ref.decode 8);
                        constructor)
                  0 staticPairs 2 true (TArray (TTuple [TBytes32; TBytes32]))
                  ltac:(lia))).
  split; [left; vm_compute; reflexivity|].
  exists (mkFragment "guessed" [TBytes32; TBytes32]),
         [mkFragment "guessed" [TBytes32; TBytes32]].
  split; [|split; [repeat constructor | reflexivity]].
  change (keys 2) with [0; 1].
  constructor; [vm_compute; reflexivity|].
  constructor; [vm_compute; reflexivity | constructor].
Defined.

(** ** Arrays read from a flat tuple *)

Lemma chunks_nat {A : Type} (l : list A) (k q : Z) :
  0 <= q ->
  map (fun i => firstn (Z.to_nat q) (skipn (Z.to_nat (i * q)) l)) (keys k)
  = map (fun i => firstn (Z.to_nat q) (skipn (i * Z.to_nat q) l))
        (seq 0 (Z.to_nat k)).
Proof.
  intros Hq. unfold keys. rewrite map_map. apply map_ext. intros i.
  rewrite Z2Nat.inj_mul, Nat2Z.id by lia. reflexivity.
Qed.

Lemma concat_chunks {A : Type} (m : nat) :
  forall (k : nat) (l : list A),
    List.length l = (k * m)%nat ->
    List.concat (map (fun i => firstn m (skipn (i * m) l)) (seq 0 k)) = l.
Proof.
  induction k as [|k IH]; intros l Hl.
  - destruct l; [reflexivity | discriminate Hl].
  - cbn [seq map List.concat]. rewrite <- seq_shift, map_map.
    rewrite (map_ext _ (fun i => firstn m (skipn (i * m) (skipn m l)))).
    + rewrite IH by (rewrite length_skipn; lia).
      cbn [Nat.mul skipn]. apply firstn_skipn.
    + intros i. rewrite skipn_skipn. do 2 f_equal. lia.
Qed.

Lemma chunk_of_repeat {A : Type} (group : list A) :
  forall (k i : nat),
    (i < k)%nat ->
    firstn (List.length group)
      (skipn (i * List.length group) (List.concat (repeat group k)))
    = group.
Proof.
  induction k as [|k IH]; intros i Hi; [lia|].
  cbn [repeat List.concat]. destruct i as [|i].
  - cbn [Nat.mul skipn]. rewrite firstn_app, Nat.sub_diag, firstn_all.
    cbn [firstn]. apply app_nil_r.
  - rewrite skipn_app.
    replace (S i * List.length group - List.length group)%nat
      with (i * List.length group)%nat by lia.
    rewrite (skipn_all2 group) by lia. cbn [app]. apply IH. lia.
Qed.

Lemma length_concat_repeat {A : Type} (group : list A) (k : nat) :
  List.length (List.concat (repeat group k)) = (k * List.length group)%nat.
Proof.
  induction k as [|k IH]; [reflexivity|].
  cbn [repeat List.concat]. rewrite length_app, IH. lia.
Qed.

Lemma map_constant {A B : Type} (g : A -> B) (c : B) (l : list A) :
  (forall a, In a l -> g a = c) -> map g l = repeat c (List.length l).
Proof.
  induction l as [|a l IH]; intros H; [reflexivity|].
  cbn [map List.length repeat]. rewrite (H a (or_introl eq_refl)).
  f_equal. apply IH. intros b Hb. apply H. right. exact Hb.
Qed.

Lemma join_formats_agree (a b : list ParamType) :
  forallb rawType a = true -> forallb rawType b = true ->
  join "," (map format a) = join "," (map format b) -> a = b.
Proof.
  intros Ha Hb H.
  apply (join_format_unique a ltac:(apply Forall_forall; intros c _;
                                     apply format_unique)
           Ha b EmptyString EmptyString Hb).
  rewrite H. reflexivity.
Qed.

Section ChunkedTuple.

Variable rec : decoder.

Hypothesis rec_raw :
  forall depth data endOfStaticCalldata mode f,
    rec depth data 0 [] endOfStaticCalldata mode = Ret (Some f) ->
    forallb rawType (inputs f) = true.

(** X26. A placeholder with the length [k] whose tail is read as a flat
    tuple resolves exactly when [k] is positive and the inputs of the
    tuple are [k] repetitions of one group of types; the result is
    [bytes] when the group is the one type [bytes], [T[]] when it is
    one other type [T], and [(T1,...,Tn)[]] otherwise. *)
Theorem chunked_array_rule (depth : Z) (dynamicData : bytes) (k : Z)
    (ty : ParamType) :
  resolveAsTuple rec depth dynamicData (Some k) = Ret (Some ty)
  <-> exists f group,
        rec (depth + 1) dynamicData 0 [] (len dynamicData) None
        = Ret (Some f)
        /\ 0 < k
        /\ inputs f = List.concat (repeat group (Z.to_nat k))
        /\ ty = match group with
                | [TBytes] => TBytes
                | [t] => TArray t
                | _ => TArray (TTuple group)
                end.
Proof.
  unfold resolveAsTuple. split.
  - destruct (rec _ _ _ _ _ _) as [[f|] | |] eqn:Ef; cbn [bind];
      try discriminate.
    pose proof (rec_raw _ _ _ _ _ Ef) as Hraw. cbv zeta.
    set (n := Z.of_nat (List.length (inputs f))).
    destruct ((k =? 0) || negb (n mod k =? 0)) eqn:E0; [discriminate|].
    apply orb_false_iff in E0. destruct E0 as [Ek En].
    apply Z.eqb_neq in Ek. apply negb_false_iff, Z.eqb_eq in En.
    assert (Hq : 0 <= n / k \/ k < 0).
    { destruct (Z_lt_le_dec k 0) as [Hneg|Hpos]; [right; exact Hneg|].
      left. apply Z.div_pos; unfold n; lia. }
    destruct (Z_lt_le_dec k 0) as [Hneg|Hpos].
    { replace (keys k) with (@nil Z)
        by (unfold keys; replace (Z.to_nat k) with O by lia; reflexivity).
      cbn [map]. discriminate. }
    assert (Hk : 0 < k) by lia. clear Hpos Ek.
    assert (Hq0 : 0 <= n / k) by (apply Z.div_pos; unfold n; lia).
    rewrite (chunks_nat (inputs f) k (n / k) Hq0).
    set (m := Z.to_nat (n / k)).
    set (g := fun i => firstn m (skipn (i * m) (inputs f))).
    assert (Hlen : List.length (inputs f) = (Z.to_nat k * m)%nat).
    { pose proof (Z.div_mod n k ltac:(lia)) as Hd. unfold m, n in *. nia. }
    destruct (Z.to_nat k) as [|kn] eqn:Ekn; [lia|].
    cbn [seq map].
    destruct (negb _) eqn:E1; [discriminate|].
    apply negb_false_iff, Z.eqb_eq, setSize_one in E1.
    assert (Hsame : forall i, In i (seq 0 (S kn)) -> g i = g O).
    { intros i Hi. cbn [seq] in Hi. destruct Hi as [<- | Hi]; [reflexivity|].
      apply join_formats_agree;
        try (unfold g; apply forallb_firstn_skipn; exact Hraw).
      rewrite Forall_forall in E1. apply E1.
      rewrite map_map. apply in_map_iff. exists i. split;
        [reflexivity | exact Hi]. }
    pose proof (concat_chunks m (S kn) (inputs f) Hlen) as Hcat.
    fold g in Hcat. rewrite (map_constant g (g O) _ Hsame) in Hcat.
    rewrite length_seq in Hcat.
    intros H. exists f, (g O). split; [reflexivity|]. split; [exact Hk|].
    split; [symmetry; exact Hcat|].
    revert H. generalize (g O). intros group.
    destruct group as [|c [|c' cs]]; try destruct c;
      intros H; injection H as <-; reflexivity.
  - intros (f & group & Hf & Hk & Hin & ->). rewrite Hf. cbn [bind]. cbv zeta.
    set (kn := Z.to_nat k) in *.
    assert (Hn : Z.of_nat (List.length (inputs f))
                 = Z.of_nat (List.length group) * k).
    { rewrite Hin, length_concat_repeat. unfold kn. nia. }
    rewrite Hn, Z.mod_mul, Z.div_mul by lia.
    replace (k =? 0) with false by (symmetry; apply Z.eqb_neq; lia).
    cbn [orb negb Z.eqb].
    rewrite (chunks_nat (inputs f) k (Z.of_nat (List.length group))
               ltac:(lia)), Nat2Z.id.
    fold kn.
    rewrite (map_constant _ group).
    2:{ intros i Hi. apply in_seq in Hi. rewrite Hin.
        apply chunk_of_repeat. lia. }
    rewrite length_seq.
    destruct kn as [|kn'] eqn:Ekn; [unfold kn in Ekn; lia|].
    rewrite map_repeat.
    replace (setSize (repeat (join "," (map format group)) (S kn')) =? 1)
      with true
      by (unfold setSize; rewrite setOf_repeat; reflexivity).
    cbn [negb repeat].
    destruct group as [|c [|c' cs]]; try destruct c; reflexivity.
Qed.

End ChunkedTuple.

Lemma chunked_array_rule_witness :
  resolveAsTuple (refSearch 8) 0 (flat_map word [1; 2]) (Some 2)
  = Ret (Some (TArray TBytes32)).
Proof.
  apply (proj2 (chunked_array_rule (refSearch 8)
                  ltac:(intros depth data e mode f;
                        apply (decodeWellFormedTuple_raw Ref.decode 8);
                        constructor)
                  0 (flat_map word [1; 2]) 2 (TArray TBytes32))).
  exists (mkFragment "guessed" [TBytes32; TBytes32]), [TBytes32].
  split; [vm_compute; reflexivity|].
  split; [lia|]. split; reflexivity.
Defined.

(** ** The name of a guess *)

Lemma hexDigit_inj (d d' : Z) :
  0 <= d < 16 -> 0 <= d' < 16 -> hexDigit d = hexDigit d' -> d = d'.
Proof.
  intros Hd Hd' H. apply (f_equal nat_of_ascii) in H. unfold hexDigit in H.
  destruct (d <? 10) eqn:E; destruct (d' <? 10) eqn:E';
    rewrite !nat_ascii_embedding in H by lia;
    rewrite ?Z.ltb_lt, ?Z.ltb_ge in *; lia.
Qed.

Lemma byteVal_inj (b b' : byte) : byteVal b = byteVal b' -> b = b'.
Proof.
  unfold byteVal. intros H. apply N2Z.inj in H.
  pose proof (Byte.of_to_N b) as E. rewrite H, Byte.of_to_N in E.
  congruence.
Qed.

(** X27. The hex text that names a guess has two characters for each
    byte and determines the bytes: guesses for different selectors
    have different names. *)
Theorem hexOf_injective (bs : bytes) :
  String.length (hexOf bs) = (2 * List.length bs)%nat
  /\ forall bs', hexOf bs = hexOf bs' -> bs = bs'.
Proof.
  split.
  - induction bs as [|b bs IH]; [reflexivity|].
    cbn [hexOf String.length List.length]. rewrite IH. lia.
  - induction bs as [|b bs IH]; intros [|b' bs'] H; try discriminate H.
    + reflexivity.
    + cbn [hexOf] in H. injection H as Hhi Hlo Hrest.
      pose proof (byteVal_range b) as Hb.
      pose proof (byteVal_range b') as Hb'.
      apply hexDigit_inj in Hhi;
        [|split; [apply Z.div_pos | apply Z.div_lt_upper_bound]; lia
         |split; [apply Z.div_pos | apply Z.div_lt_upper_bound]; lia].
      apply hexDigit_inj in Hlo; [|apply Z.mod_pos_bound; lia
                                  |apply Z.mod_pos_bound; lia].
      f_equal; [|apply IH, Hrest].
      apply byteVal_inj.
      rewrite (Z.div_mod (byteVal b) 16), (Z.div_mod (byteVal b') 16) by lia.
      rewrite Hhi, Hlo. reflexivity.
Qed.

(** ** Placeholders of length zero *)

(** X28. A placeholder whose length word is zero resolves in one way
    only: to [bytes], and only when its tail is empty.  When bytes
    follow, the array rules look for a fragment without inputs on a
    buffer that is not empty, which the search never returns: the
    placeholder does not resolve. *)
Theorem zero_length_placeholder
    (abiDecode : list ParamType -> bytes -> option (list Value))
    (fuel : nat) (depth : Z) (data : bytes)
    (dynamicParams : list DynamicPlaceholder) (dynamicParamIdx : nat)
    (ph : DynamicPlaceholder) (t : ParamType) :
  ph_length ph = Some 0 ->
  resolveDynamicParam (decodeWellFormedTuple abiDecode fuel) depth data
    dynamicParams dynamicParamIdx ph = Ret (Some t) ->
  t = TBytes /\ tailOf data dynamicParams dynamicParamIdx ph = [].
Proof.
  intros Hk. unfold resolveDynamicParam. rewrite Hk.
  set (dd := tailOf data dynamicParams dynamicParamIdx ph).
  set (trailing := isTrailing dynamicParams dynamicParamIdx).
  pose proof (len_nonneg dd) as Hl.
  assert (Hb : isBytesLike 0 dd trailing = (len dd =? 0)).
  { unfold isBytesLike. cbv zeta.
    change (0 =? 0) with true. change (0 >? 0) with false.
    cbn [andb orb]. apply orb_false_r. }
  rewrite Hb. destruct (len dd =? 0) eqn:E.
  - intros H. injection H as <-. split; [reflexivity|].
    apply len_nil_iff. apply Z.eqb_eq. exact E.
  - apply Z.eqb_neq in E. unfold resolveArray.
    replace (len dd >? 32 * 0) with true by (symmetry; apply Z.gtb_lt; lia).
    change (keys 0) with (@nil Z). cbn [mapM bind forallb].
    unfold resolveDynamicElements.
    destruct (decodeWellFormedTuple _ _ _ _ _ _ _ _) as [a | |] eqn:Ea;
      cbn [bind]; try discriminate.
    destruct (decodeWellFormedTuple abiDecode fuel (depth + 1) dd 0 []
                (len dd) (Some (mkDynamicOnly (depth + 1) false)))
      as [b | |] eqn:Eb; cbn [bind]; try discriminate.
    assert (Hg : forall g, orNull a b = Some g ->
                           1 <= Z.of_nat (List.length (inputs g))).
    { intros g Hg.
      assert (Hcall : exists mode,
                decodeWellFormedTuple abiDecode fuel (depth + 1) dd 0 []
                  (len dd) mode = Ret (Some g)).
      { destruct a as [fa|]; cbn [orNull] in Hg.
        - injection Hg as <-. eexists. exact Ea.
        - subst b. eexists. exact Eb. }
      destruct Hcall as [mode Hcall].
      apply (decodeWellFormedTuple_slots abiDecode fuel (depth + 1) dd 0 []
               (len dd) mode g eq_refl ltac:(lia) ltac:(lia)
               ltac:(left; reflexivity) Hcall).
      lia. }
    destruct (orNull a b) as [g|]; [|discriminate].
    specialize (Hg g eq_refl).
    replace (Z.of_nat (List.length (inputs g)) =? 0) with false
      by (symmetry; apply Z.eqb_neq; lia).
    discriminate.
Qed.

Lemma zero_length_placeholder_witness :
  TBytes = TBytes
  /\ tailOf blobData blobPlaceholders 1 (mkPlaceholder 160 (Some 0)) = [].
Proof.
  apply (zero_length_placeholder Ref.decode 8 0 blobData blobPlaceholders
           1%nat (mkPlaceholder 160 (Some 0)) TBytes eq_refl).
  vm_compute. reflexivity.
Defined.

(** ** The head ends where the first tail starts *)

Lemma resolveParams_words (rec : decoder) (depth : Z) (data : bytes)
    (dynamicParams : list DynamicPlaceholder)
    (collectedParams : list DecodedParam) :
  Forall (fun v => v = Resolved TBytes32) collectedParams ->
  forall dynamicParamIdx,
    resolveParams rec depth data dynamicParams dynamicParamIdx collectedParams
    = Ret (repeat (Some TBytes32) (List.length collectedParams)).
Proof.
  induction 1 as [|v C -> _ IH]; intros idx; cbn [resolveParams];
    [reflexivity|].
  rewrite IH. reflexivity.
Qed.

Lemma definedParams_words (n : nat) :
  definedParams (repeat (Some TBytes32) n) = repeat TBytes32 n.
Proof.
  unfold definedParams. induction n as [|n IH]; [reflexivity|].
  cbn [repeat flat_map app]. f_equal. exact IH.
Qed.

Lemma decodeWellFormedTuple_head
    (abiDecode : list ParamType -> bytes -> option (list Value))
    (fuel : nat) :
  forall (depth : Z) (data : bytes) (paramIdx : Z)
         (collectedParams : list DecodedParam) (endOfStaticCalldata : Z)
         (mode : option DynamicOnlyParams) (f : FunctionFragment),
    headEndsAtTail data paramIdx collectedParams endOfStaticCalldata ->
    decodeWellFormedTuple abiDecode fuel depth data paramIdx collectedParams
      endOfStaticCalldata mode = Ret (Some f) ->
    let n := Z.of_nat (List.length (inputs f)) in
    Forall (fun t => t = TBytes32) (inputs f)
    \/ exists j, 0 <= j < n
                 /\ tryParseOffset data (j * 32) = Ret (Some (32 * n)).
Proof.
  induction fuel as [|fuel IH]; intros depth data i C e mode f Hinv;
    [discriminate|].
  destruct Hinv as (Hlen & Hlast & Hend).
  cbn [decodeWellFormedTuple]. unfold decodeBody.
  set (rec := decodeWellFormedTuple abiDecode fuel) in *.
  destruct (i * 32 >=? e) eqn:Eend.
  - rewrite Z.geb_leb in Eend. apply Z.leb_le in Eend.
    unfold resolveTails.
    destruct (resolveParams _ _ _ _ _ _) as [finalParams | |] eqn:Er;
      cbn [bind]; try discriminate.
    pose proof (resolveParams_length _ _ _ _ _ _ _ Er) as Hfl.
    destruct (Nat.eqb _ _) eqn:El; cbn [negb]; [|discriminate].
    apply Nat.eqb_eq in El. cbv zeta. intros H.
    match type of H with
    | (if ?c then _ else _) = _ => destruct c; [|discriminate H]
    end.
    injection H as <-. cbn [inputs].
    destruct Hend as [[_ Hall] | (j & Hj & Ho)].
    + left. rewrite (resolveParams_words _ _ _ _ _ Hall) in Er.
      injection Er as <-. rewrite definedParams_words.
      apply Forall_forall. intros t Ht. apply repeat_spec in Ht. exact Ht.
    + right. exists j. rewrite <- El, Hfl, Hlen.
      split; [exact Hj|].
      pose proof (tryParseOffset_Some _ _ _ Ho) as [_ Hm].
      pose proof (Z.div_mod e 32 ltac:(lia)) as Hd.
      replace (32 * i) with e by lia. exact Ho.
  - rewrite Z.geb_leb in Eend. apply Z.leb_gt in Eend.
    assert (Hi0 : 0 <= i) by lia.
    assert (Hnext : forall param newEnd g,
              headEndsAtTail data (i + 1) (C ++ [param]) newEnd ->
              rec depth data (i + 1) (C ++ [param]) newEnd mode = Ret g ->
              Ret g = Ret (Some f) ->
              let n := Z.of_nat (List.length (inputs f)) in
              Forall (fun t => t = TBytes32) (inputs f)
              \/ exists j, 0 <= j < n
                           /\ tryParseOffset data (j * 32)
                              = Ret (Some (32 * n))).
    { intros param newEnd g Hinv Hg H. injection H as ->.
      exact (IH depth data (i + 1) (C ++ [param]) newEnd mode f Hinv Hg). }
    assert (Hword : headEndsAtTail data (i + 1) (C ++ [Resolved TBytes32]) e).
    { split; [rewrite length_app; cbn [List.length]; lia|].
      split; [right; lia|].
      destruct Hend as [[He Hall] | (j & Hj & Ho)].
      - left. split; [exact He|]. apply Forall_app. split; [exact Hall|].
        constructor; [reflexivity | constructor].
      - right. exists j. split; [lia | exact Ho]. }
    assert (Hptr : forall offset length,
              tryParseOffset data (i * 32) = Ret (Some offset) ->
              headEndsAtTail data (i + 1)
                (C ++ [Dynamic (mkPlaceholder offset length)])
                (Z.min e offset)).
    { intros offset length Ho.
      pose proof (tryParseOffset_Some _ _ _ Ho) as [Hrange _].
      split; [rewrite length_app; cbn [List.length]; lia|].
      split; [right; lia|]. right.
      destruct (Z_lt_le_dec offset e) as [Hlt|Hge].
      - exists i. rewrite Z.min_r by lia. split; [lia | exact Ho].
      - rewrite Z.min_l by lia.
        destruct Hend as [[He _] | (j & Hj & Hoj)]; [lia|].
        exists j. split; [lia | exact Hoj]. }
    assert (Hstatic : tryStatic abiDecode rec depth data i C e mode
                      = Ret (Some f) ->
                      let n := Z.of_nat (List.length (inputs f)) in
                      Forall (fun t => t = TBytes32) (inputs f)
                      \/ exists j, 0 <= j < n
                                   /\ tryParseOffset data (j * 32)
                                      = Ret (Some (32 * n))).
    { unfold tryStatic. destruct (negb _); [discriminate|].
      destruct (rec _ _ _ _ _ _) as [fragment | |] eqn:Eg; cbn [bind];
        try discriminate.
      destruct (testFragment abiDecode data fragment); [|discriminate].
      exact (Hnext _ _ _ Hword Eg). }
    unfold classifySlot.
    destruct (tryParseOffset data (i * 32)) as [[offset|] | |] eqn:Eo;
      cbn [bind]; try discriminate; [|exact Hstatic].
    assert (HnoLength :
              tryNoLength abiDecode rec depth data i C e mode offset
              = Ret (Some f) ->
              let n := Z.of_nat (List.length (inputs f)) in
              Forall (fun t => t = TBytes32) (inputs f)
              \/ exists j, 0 <= j < n
                           /\ tryParseOffset data (j * 32)
                              = Ret (Some (32 * n))).
    { unfold tryNoLength.
      destruct (mayAssumeNoLength depth mode); [|exact Hstatic].
      destruct (rec _ _ _ _ _ _) as [fragment | |] eqn:Eg; cbn [bind];
        try discriminate.
      destruct (testFragment abiDecode data fragment); [|exact Hstatic].
      exact (Hnext _ _ _ (Hptr offset None eq_refl) Eg). }
    destruct (tryParseLength data offset) as [[length|] | |]; cbn [bind];
      try discriminate; [|exact HnoLength].
    destruct (mayAssumeLength depth mode); [|exact HnoLength].
    destruct (rec _ _ _ _ _ _) as [fragment | |] eqn:Eg; cbn [bind];
      try discriminate.
    destruct (testFragment abiDecode data fragment); [|exact HnoLength].
    exact (Hnext _ _ _ (Hptr offset (Some length) eq_refl) Eg).
Qed.

(** X29. The head of a guess ends where its first tail starts: a
    fragment with [n] inputs that a search over a whole buffer returns
    has static words only, or the word of one of its [n] slots is a
    valid offset and equals [32 * n]. *)
Theorem search_head_ends_at_tail
    (abiDecode : list ParamType -> bytes -> option (list Value))
    (fuel : nat) (depth : Z) (data : bytes)
    (mode : option DynamicOnlyParams) (f : FunctionFragment) :
  decodeWellFormedTuple abiDecode fuel depth data 0 [] (len data) mode
  = Ret (Some f) ->
  let n := Z.of_nat (List.length (inputs f)) in
  Forall (fun t => t = TBytes32) (inputs f)
  \/ exists j, 0 <= j < n
               /\ tryParseOffset data (j * 32) = Ret (Some (32 * n)).
Proof.
  intros H.
  apply (decodeWellFormedTuple_head abiDecode fuel depth data 0 []
           (len data) mode f); [|exact H].
  split; [reflexivity|]. split; [left; reflexivity|].
  left. split; [reflexivity | constructor].
Qed.

Lemma search_head_ends_at_tail_witness :
  let n := Z.of_nat (List.length
                       (inputs (mkFragment "guessed" [TArray TBytes]))) in
  Forall (fun t => t = TBytes32)
    (inputs (mkFragment "guessed" [TArray TBytes]))
  \/ exists j, 0 <= j < n
               /\ tryParseOffset stringArray (j * 32) = Ret (Some (32 * n)).
Proof.
  apply (search_head_ends_at_tail Ref.decode 20 0 stringArray None).
  vm_compute. reflexivity.
Defined.
